(** * DataTransferKit: the Rendezvous decomposition (DTK_Rendezvous_def.hpp)

    A shallow embedding of [Rendezvous<Mesh>]: the two local queries
    [getRendezvousProcs] and [getElements], the bounding-box filter
    [getMeshInBox] and the import planner [setupImportCommunication].

    [build] sets [d_node_dim], calls [getMeshInBox], has RCB partition the
    flagged nodes and calls [sendMeshToRendezvous], which starts with
    [setupImportCommunication]; it ends by moving coordinates and
    connectivity with Tpetra imports and building the kD-tree.  RCB, the
    bounding box, the kD-tree and Tpetra are declared elsewhere: the first
    two enter as arbitrary functions, the kD-tree lookup follows its
    specification, and the distributor is a round of a collective program.

    Conventions.
    - [double] is IEEE binary64 ([PrimFloat.float]); the code only moves
      coordinates around and pads them with [0.0], it never computes on them.
    - [GlobalOrdinal] and MPI ranks ([int]) are integers [Z].
    - Sizes and array indices ([ordinal_type], [std::size_t]) are [nat]: every
      index the code forms is compared against a container size.
    - Every operation that is undefined in C++ (division by zero, access past
      the end of an array, dereferencing [map::find] == [end()], using a null
      [RCP]) is made explicit as a [Fail] of the [result] monad.
    - A local array the code declares without initialising it ([double
      point[3]]) is an extra argument: its initial content is arbitrary.

    Two headers that stand on their own follow the facade: the binary heap
    [Details::PriorityQueue] of the search (DTK_DetailsPriorityQueue.hpp) and
    the monomial bases [MultivariatePolynomialBasis]
    (DTK_MultivariatePolynomialBasis.hpp). *)

From Stdlib Require Import ZArith List Lia Sorted Permutation.
From Stdlib Require PrimFloat.
From stdpp Require Import base option list gmap.

Local Open Scope Z_scope.
Local Open Scope nat_scope.

(** ** Errors and the result monad *)

Inductive error : Set :=
| DivideByZero          (* integer division by zero *)
| OutOfRange            (* array access past the end *)
| KeyNotFound           (* [std::map::find] returned [end()] and was dereferenced *)
| NullReference         (* [operator->] on a null [Teuchos::RCP] *)
| PostconditionFailed.  (* [testPostcondition] threw *)

Inductive result (A : Type) : Type :=
| Ok (a : A)
| Fail (e : error).
Arguments Ok {A} a.
Arguments Fail {A} e.

#[global] Instance result_ret : MRet result := λ A a, Ok a.
#[global] Instance result_bind : MBind result := λ A B f m,
  match m with
  | Ok a => f a
  | Fail e => Fail e
  end.

Definition is_Ok {A} (r : result A) : Prop := ∃ a, r = Ok a.

(** [for ( x : l ) body], threading the loop state and stopping at the first
    failure. *)
Fixpoint for_each {A S : Type} (body : A → S → result S) (l : list A) (s : S)
  : result S :=
  match l with
  | [] => Ok s
  | x :: l' => s' ← body x s; for_each body l' s'
  end.

(** [for ( n = lo; n < hi; ++n ) body]. *)
Definition for_range {S : Type} (lo hi : nat) (body : nat → S → result S) (s : S)
  : result S :=
  for_each body (seq lo (hi - lo)) s.

(** ** Scalars, arrays, maps and sets of the C++ code *)

Abbreviation double := PrimFloat.float (only parsing).
Definition zero : double := PrimFloat.zero.

Abbreviation GlobalOrdinal := Z (only parsing).

(** [a[i]] on a [Teuchos::Array], an [ArrayView] or a raw iterator. *)
Definition array_get {A} (a : list A) (i : nat) : result A :=
  match a !! i with
  | Some x => Ok x
  | None => Fail OutOfRange
  end.

(** [a[i] = x]. *)
Definition array_set {A} (a : list A) (i : nat) (x : A) : result (list A) :=
  if decide (i < length a) then Ok (<[i := x]> a) else Fail OutOfRange.

(** [coords.size() / d_node_dim]. *)
Definition size_div (n d : nat) : result nat :=
  match d with
  | 0 => Fail DivideByZero
  | S _ => Ok (n / d)
  end.

(** [double point[3]]. *)
Record Point3 : Set := mkPoint3 { px : double; py : double; pz : double }.

Definition point_store (p : Point3) (d : nat) (v : double) : result Point3 :=
  match d with
  | 0 => Ok (mkPoint3 v (py p) (pz p))
  | 1 => Ok (mkPoint3 (px p) v (pz p))
  | 2 => Ok (mkPoint3 (px p) (py p) v)
  | _ => Fail OutOfRange
  end.

(** The block that appears three times in the file:
<<
    for ( d = 0; d < d_node_dim; ++d ) point[d] = coords[ d*stride + n ];
    for ( d = d_node_dim; d < 3; ++d ) point[d] = 0.0;
>>
    [point] is the previous content of the buffer. *)
Definition load_point (node_dim : nat) (coords : list double) (stride n : nat)
    (point : Point3) : result Point3 :=
  point ← for_range 0 node_dim
             (λ d point, v ← array_get coords (d * stride + n);
                         point_store point d v) point;
  for_range node_dim 3 (λ d point, point_store point d zero) point.

(** ** Collaborators declared outside this file *)

(** [RCB<Mesh>]: only [getDestinationProc] is used here; it is an arbitrary
    routing function. *)
Record RCB : Type := { getDestinationProc : Point3 → Z }.

(** [BoundingBox]: only [pointInBox] is used here. *)
Record BoundingBox : Type := { pointInBox : Point3 → bool }.

(** Modelled from the spec: [KDTree<GlobalOrdinal>] and its [findPoint] are
    not part of this file.  Section 4.6: [findPoint p] returns the
    GlobalOrdinal of an element containing [p], the smallest one when several
    do, or a reserved sentinel when none does; containment is the
    application-provided point-in-cell predicate. *)
Record KDTree : Type := {
  kd_elements : list GlobalOrdinal;
  kd_pointInCell : GlobalOrdinal → list double → bool;
  kd_sentinel : GlobalOrdinal
}.

Definition kd_candidates (t : KDTree) (p : list double) : list GlobalOrdinal :=
  List.filter (λ e, kd_pointInCell t e p) (kd_elements t).

Definition findPoint (t : KDTree) (p : list double) : GlobalOrdinal :=
  match kd_candidates t p with
  | [] => kd_sentinel t
  | e :: es => foldl Z.min e es
  end.

(** [rcp->], which throws (or crashes) on a null [RCP]. *)
Definition deref {A} (rcp : option A) : result A :=
  match rcp with
  | Some a => Ok a
  | None => Fail NullReference
  end.

(** ** The facade *)

Record Rendezvous : Type := {
  d_global_box : BoundingBox;
  d_node_dim : nat;
  d_rcb : option RCB;
  d_kdtree : option KDTree
}.

(** The constructor: [d_node_dim( 0 )], the [RCP] members default to null. *)
Definition Rendezvous_new (global_box : BoundingBox) : Rendezvous :=
  {| d_global_box := global_box; d_node_dim := 0;
     d_rcb := None; d_kdtree := None |}.

(** [testPostcondition( c, msg )]. *)
Definition testPostcondition (c : bool) : result unit :=
  if c then Ok () else Fail PostconditionFailed.

(** [getRendezvousProcs].  [point] is the indeterminate initial content of the
    local [double point[3]]; the loop state is the buffer and the output. *)
Definition getRendezvousProcs (this : Rendezvous) (point : Point3)
    (coords : list double) : result (list Z) :=
  num_points ← size_div (length coords) (d_node_dim this);
  '(_, destination_procs) ←
    for_range 0 num_points
      (λ n '(point, destination_procs),
         point ← load_point (d_node_dim this) coords num_points n point;
         rcb ← deref (d_rcb this);
         let rendezvous_proc := getDestinationProc rcb point in
         Ok (point, destination_procs ++ [rendezvous_proc]))
      (point, []);
  _ ← testPostcondition (bool_decide (length destination_procs = num_points));
  Ok destination_procs.

(** [getElements].  [point] is a [Teuchos::Array<double>] of [d_node_dim]
    zeros. *)
Definition getElements (this : Rendezvous) (coords : list double)
    : result (list GlobalOrdinal) :=
  let point := replicate (d_node_dim this) zero in
  num_points ← size_div (length coords) (d_node_dim this);
  '(_, element_ordinals) ←
    for_range 0 num_points
      (λ n '(point, element_ordinals),
         point ← for_range 0 (d_node_dim this)
                   (λ d point, v ← array_get coords (d * num_points + n);
                               array_set point d v) point;
         kdtree ← deref (d_kdtree this);
         let element_ordinal := findPoint kdtree point in
         Ok (point, element_ordinals ++ [element_ordinal]))
      (point, []);
  _ ← testPostcondition (bool_decide (length element_ordinals = num_points));
  Ok element_ordinals.

(** ** The source mesh, as [MeshTraits] exposes it *)

Record Mesh : Type := {
  nodeDim : nat;                        (* MT::nodeDim *)
  nodes : list GlobalOrdinal;           (* MT::nodesBegin .. nodesEnd *)
  coords : list double;                 (* MT::coordsBegin, blocked by dimension *)
  elements : list GlobalOrdinal;        (* MT::elementsBegin .. elementsEnd *)
  nodesPerElement : nat;                (* MT::nodesPerElement *)
  connectivity : list GlobalOrdinal     (* MT::connectivityBegin, blocked by slot *)
}.

(** [std::map<GlobalOrdinal,ordinal_type>] filled by
<<
    m = 0;  for ( it = begin; it != end; ++it ) { indices[ *it ] = m; ++m; }
>>
    A later occurrence of an ordinal overwrites an earlier one. *)
Definition index_map (ids : list GlobalOrdinal) : gmap Z nat :=
  (foldl (λ '(indices, m) id, (<[id := m]> indices, S m)) (∅, 0) ids).1.

(** [indices.find( id )->second]. *)
Definition map_find (indices : gmap Z nat) (id : GlobalOrdinal) : result nat :=
  match indices !! id with
  | Some m => Ok m
  | None => Fail KeyNotFound
  end.

(** [a[i].insert( x )] and the like: read, modify, write back. *)
Definition array_modify {A} (a : list A) (i : nat) (f : A → A) : result (list A) :=
  x ← array_get a i; array_set a i (f x).

(** [std::set<int>] and [std::set<GlobalOrdinal>]: the elements in ascending
    order, as iteration yields them. *)
Fixpoint set_insert (x : Z) (s : list Z) : list Z :=
  match s with
  | [] => [x]
  | y :: s' =>
      if decide (x < y)%Z then x :: s
      else if decide (x = y) then s
      else y :: set_insert x s'
  end.

(** [mesh_connectivity[ i*num_elements + n ]] followed by
    [node_indices.find( node_ordinal )->second]. *)
Definition connected_node_index (mesh : Mesh) (node_indices : gmap Z nat)
    (i n : nat) : result nat :=
  node_ordinal ← array_get (connectivity mesh) (i * length (elements mesh) + n);
  map_find node_indices node_ordinal.

(** Lines 180-196 of [getMeshInBox]: the flag of every node, pushed onto an
    empty [nodes_in_box].  [node_coords] is the indeterminate initial content
    of the local buffer. *)
Definition nodesInBox (this : Rendezvous) (mesh : Mesh) (box : BoundingBox)
    (node_coords : Point3) : result (list Z) :=
  let num_nodes := length (nodes mesh) in
  '(_, nodes_in_box) ←
    for_range 0 num_nodes
      (λ n '(node_coords, nodes_in_box),
         node_coords ← load_point (d_node_dim this) (coords mesh) num_nodes n
                         node_coords;
         Ok (node_coords, nodes_in_box ++ [Z.b2z (pointInBox box node_coords)]))
      (node_coords, []);
  Ok nodes_in_box.

(** Lines 198-222: the flag of every element, pushed onto an empty
    [elements_in_box]. *)
Definition elementsInBox (mesh : Mesh) (nodes_in_box : list Z)
    : result (list Z) :=
  let node_indices := index_map (nodes mesh) in
  let num_elements := length (elements mesh) in
  for_range 0 num_elements
    (λ n elements_in_box,
       this_element_in_box ←
         for_range 0 (nodesPerElement mesh)
           (λ i this_element_in_box,
              node_index ← connected_node_index mesh node_indices i n;
              flag ← array_get nodes_in_box node_index;
              Ok (if decide (flag ≠ 0%Z) then 1%Z else this_element_in_box))
           0%Z;
       Ok (elements_in_box ++ [this_element_in_box]))
    [].

(** Lines 224-237: the nodes of the elements in the box that are not in the
    box themselves. *)
Definition expandNodesInBox (mesh : Mesh) (elements_in_box nodes_in_box : list Z)
    : result (list Z) :=
  let node_indices := index_map (nodes mesh) in
  let num_elements := length (elements mesh) in
  for_range 0 num_elements
    (λ n nodes_in_box,
       flag ← array_get elements_in_box n;
       if decide (flag ≠ 0%Z) then
         for_range 0 (nodesPerElement mesh)
           (λ i nodes_in_box,
              node_index ← connected_node_index mesh node_indices i n;
              array_set nodes_in_box node_index 1%Z)
           nodes_in_box
       else Ok nodes_in_box)
    nodes_in_box.

(** [getMeshInBox], called with empty [nodes_in_box] and [elements_in_box]
    as [build] does; returns [(nodes_in_box, elements_in_box)].  The two
    [assert]s compare the sizes of the freshly filled arrays with the loop
    bounds; they hold by construction. *)
Definition getMeshInBox (this : Rendezvous) (mesh : Mesh) (box : BoundingBox)
    (node_coords : Point3) : result (list Z * list Z) :=
  nodes_in_box ← nodesInBox this mesh box node_coords;
  elements_in_box ← elementsInBox mesh nodes_in_box;
  nodes_in_box ← expandNodesInBox mesh elements_in_box nodes_in_box;
  Ok (nodes_in_box, elements_in_box).

(** ** The import planner *)

(** Lines 384-413: the destination set of every local element. *)
Definition elementDestinations (this : Rendezvous) (mesh : Mesh)
    (elements_in_box : list Z) (node_coords : Point3)
    : result (list (list Z)) :=
  let node_indices := index_map (nodes mesh) in
  let num_nodes := length (nodes mesh) in
  let num_elements := length (elements mesh) in
  let nodes_per_element := nodesPerElement mesh in
  '(_, export_element_procs_set) ←
    for_range 0 num_elements
      (λ n st,
         flag ← array_get elements_in_box n;
         if decide (flag ≠ 0%Z) then
           for_range 0 nodes_per_element
             (λ i '(node_coords, export_element_procs_set),
                node_index ← connected_node_index mesh node_indices i n;
                node_coords ← load_point (d_node_dim this) (coords mesh)
                                num_nodes node_index node_coords;
                rcb ← deref (d_rcb this);
                let destination_proc := getDestinationProc rcb node_coords in
                export_element_procs_set ←
                  array_modify export_element_procs_set n
                    (set_insert destination_proc);
                Ok (node_coords, export_element_procs_set))
             st
         else Ok st)
      (node_coords, replicate num_elements []);
  Ok export_element_procs_set.

(** Lines 417-434 and 501-517: a vector of sets unrolled into two parallel
    arrays, the ordinal of slot [n] repeated once per member of [sets[n]].
    The two iterators advance together and the loop ends with [sets]. *)
Fixpoint unroll (ids : list GlobalOrdinal) (sets : list (list Z)) {struct sets}
  : result (list GlobalOrdinal * list Z) :=
  match sets with
  | [] => Ok ([], [])
  | procs :: sets' =>
      match ids with
      | [] => Fail OutOfRange
      | id :: ids' =>
          '(export_ids, export_procs) ← unroll ids' sets';
          Ok (replicate (length procs) id ++ export_ids, procs ++ export_procs)
      end
  end.

(** Lines 476-493: the destination set of every local node, from the exported
    (element, rank) pairs.  The two iterators advance together and the loop
    ends with [export_elements]. *)
Fixpoint nodeDestinationsLoop (mesh : Mesh) (node_indices element_indices : gmap Z nat)
    (export_elements : list GlobalOrdinal) (export_element_procs : list Z)
    (export_node_procs_set : list (list Z)) : result (list (list Z)) :=
  match export_elements with
  | [] => Ok export_node_procs_set
  | element :: export_elements' =>
      match export_element_procs with
      | [] => Fail OutOfRange
      | proc :: export_element_procs' =>
          element_index ← map_find element_indices element;
          export_node_procs_set ←
            for_range 0 (nodesPerElement mesh)
              (λ i export_node_procs_set,
                 node_index ← connected_node_index mesh node_indices i element_index;
                 array_modify export_node_procs_set node_index (set_insert proc))
              export_node_procs_set;
          nodeDestinationsLoop mesh node_indices element_indices
            export_elements' export_element_procs' export_node_procs_set
      end
  end.

Definition nodeDestinations (mesh : Mesh)
    (export_elements : list GlobalOrdinal) (export_element_procs : list Z)
    : result (list (list Z)) :=
  nodeDestinationsLoop mesh (index_map (nodes mesh)) (index_map (elements mesh))
    export_elements export_element_procs
    (replicate (length (nodes mesh)) []).

(** Lines 452-466 and 535-549: the imported ordinals go through a
    [std::set<GlobalOrdinal>] and are copied out in iteration order. *)
Definition unique_list (import : list GlobalOrdinal) : list GlobalOrdinal :=
  foldl (λ rendezvous_set id, set_insert id rendezvous_set) [] import.

(** A collective program of one rank.  [Distribute exports procs k] is one
    round of [Tpetra::Distributor]: [createFromSends( procs )] followed by
    [doPostsAndWaits( exports, 1, imports )]; the rank resumes with what it
    received. *)
Inductive Collective (A : Type) : Type :=
| Done (a : A)
| Abort (e : error)
| Distribute (exports : list GlobalOrdinal) (export_procs : list Z)
    (k : list GlobalOrdinal → Collective A).
Arguments Done {A} a.
Arguments Abort {A} e.
Arguments Distribute {A} exports export_procs k.

Fixpoint collective_bind {A B} (f : A → Collective B) (m : Collective A)
  : Collective B :=
  match m with
  | Done a => f a
  | Abort e => Abort e
  | Distribute exports export_procs k =>
      Distribute exports export_procs (λ imports, collective_bind f (k imports))
  end.

#[global] Instance Collective_ret : MRet Collective := λ A a, Done a.
#[global] Instance Collective_bind : MBind Collective := @collective_bind.

Definition local {A} (r : result A) : Collective A :=
  match r with
  | Ok a => Done a
  | Fail e => Abort e
  end.

Definition distribute (exports : list GlobalOrdinal) (export_procs : list Z)
  : Collective (list GlobalOrdinal) :=
  Distribute exports export_procs Done.

(** [setupImportCommunication]; returns
    [(rendezvous_nodes, rendezvous_elements)].  [node_coords] is the
    indeterminate initial content of the local buffer. *)
Definition setupImportCommunication (this : Rendezvous) (mesh : Mesh)
    (elements_in_box : list Z) (node_coords : Point3)
    : Collective (list GlobalOrdinal * list GlobalOrdinal) :=
  export_element_procs_set ←
    local (elementDestinations this mesh elements_in_box node_coords);
  '(export_elements, export_element_procs) ←
    local (unroll (elements mesh) export_element_procs_set);
  import_elements ← distribute export_elements export_element_procs;
  let rendezvous_elements := unique_list import_elements in
  export_node_procs_set ←
    local (nodeDestinations mesh export_elements export_element_procs);
  '(export_nodes, export_node_procs) ←
    local (unroll (nodes mesh) export_node_procs_set);
  import_nodes ← distribute export_nodes export_node_procs;
  let rendezvous_nodes := unique_list import_nodes in
  Done (rendezvous_nodes, rendezvous_elements).

(** ** Running collective programs *)

(** One rank's run, given what it receives in each round: the sends it posted,
    round by round, and its outcome.  A round without a matching receive ends
    the run ([build] has no time-out: the rank never returns). *)
Fixpoint run_rank {A} (p : Collective A) (received : list (list GlobalOrdinal))
  : list (list GlobalOrdinal * list Z) * option (result A) :=
  match p with
  | Done a => ([], Some (Ok a))
  | Abort e => ([], Some (Fail e))
  | Distribute exports export_procs k =>
      match received with
      | [] => ([(exports, export_procs)], None)
      | imports :: received' =>
          let '(sends, outcome) := run_rank (k imports) received' in
          ((exports, export_procs) :: sends, outcome)
      end
  end.

(** The items of one rank's send that are addressed to rank [r]. *)
Definition sent_to (r : Z) (send : list GlobalOrdinal * list Z)
  : list GlobalOrdinal :=
  (List.filter (λ item, bool_decide (item.2 = r)) (zip send.1 send.2)).*1.

(** One distributor round: rank [r] gets every item addressed to it, listed
    here by sending rank. *)
Definition allToAll (sends : list (list GlobalOrdinal * list Z)) (r : nat)
  : list GlobalOrdinal :=
  flat_map (sent_to (Z.of_nat r)) sends.

(** What one rank brings to [setupImportCommunication], and what it receives
    in the rounds. *)
Record RankRun : Type := {
  rank_this : Rendezvous;
  rank_mesh : Mesh;
  rank_elements_in_box : list Z;
  rank_node_coords : Point3;
  rank_received : list (list GlobalOrdinal)
}.

Definition rank_program (rk : RankRun)
  : Collective (list GlobalOrdinal * list GlobalOrdinal) :=
  setupImportCommunication (rank_this rk) (rank_mesh rk)
    (rank_elements_in_box rk) (rank_node_coords rk).

Definition rank_sends (rk : RankRun) : list (list GlobalOrdinal * list Z) :=
  (run_rank (rank_program rk) (rank_received rk)).1.

Definition rank_outcome (rk : RankRun)
  : option (result (list GlobalOrdinal * list GlobalOrdinal)) :=
  (run_rank (rank_program rk) (rank_received rk)).2.

(** The sends of round [j], by rank. *)
Definition round_sends (ranks : list RankRun) (j : nat)
  : list (list GlobalOrdinal * list Z) :=
  map (λ rk, default ([], []) (rank_sends rk !! j)) ranks.

(** The ranks of a communicator ran together: in every round every rank
    received the items addressed to it, in some order of arrival. *)
Definition collective_run (ranks : list RankRun) : Prop :=
  ∀ r rk j imports,
    ranks !! r = Some rk →
    rank_received rk !! j = Some imports →
    imports ≡ₚ allToAll (round_sends ranks j) r.

(** A delivery for a whole communicator, computed round by round with the
    items of each round listed by sending rank: one of the runs
    [collective_run] admits. *)
Definition with_received (rk : RankRun) (received : list (list GlobalOrdinal))
  : RankRun :=
  {| rank_this := rank_this rk; rank_mesh := rank_mesh rk;
     rank_elements_in_box := rank_elements_in_box rk;
     rank_node_coords := rank_node_coords rk;
     rank_received := received |}.

Definition deliver_round (ranks : list RankRun) (j : nat) : list RankRun :=
  imap (λ r rk,
          with_received rk
            (rank_received rk ++ [allToAll (round_sends ranks j) r]))
    ranks.

Definition deliver (ranks : list RankRun) : list RankRun :=
  deliver_round
    (deliver_round (map (λ rk, with_received rk []) ranks) 0) 1.

(** ** Vocabulary of the statements *)

(** Axis [k] of point [n] in a blocked array of [N] points in [d]
    dimensions, zero beyond [d]. *)
Definition axis (d N : nat) (coords : list double) (n k : nat) : double :=
  if decide (k < d) then default zero (coords !! (k * N + n)) else zero.

Definition padded_point (d N : nat) (coords : list double) (n : nat) : Point3 :=
  mkPoint3 (axis d N coords n 0) (axis d N coords n 1) (axis d N coords n 2).

Definition blocked_point (d N : nat) (coords : list double) (n : nat)
  : list double :=
  map (axis d N coords n) (seq 0 d).

(** Slot [k] of the three-slot buffer. *)
Definition coordinate (p : Point3) (k : nat) : double :=
  match k with
  | 0 => px p
  | 1 => py p
  | _ => pz p
  end.

(** The rank RCB gives to point [n] of a blocked array. *)
Definition routed (rcb : RCB) (d N : nat) (coords : list double) (n : nat) : Z :=
  getDestinationProc rcb (padded_point d N coords n).

(** The element the kD-tree gives for point [n] of a blocked array. *)
Definition located (t : KDTree) (d N : nat) (coords : list double) (n : nat)
  : GlobalOrdinal :=
  findPoint t (blocked_point d N coords n).

(** The zero-padded coordinates of the node in slot [m] of the mesh. *)
Definition node_point (this : Rendezvous) (mesh : Mesh) (m : nat) : Point3 :=
  padded_point (d_node_dim this) (length (nodes mesh)) (coords mesh) m.

(** The flags the first loop of [getMeshInBox] computes: node slot [m] is
    geometrically in the box. *)
Definition in_box_flags (this : Rendezvous) (mesh : Mesh) (box : BoundingBox)
  : list Z :=
  map (λ m, Z.b2z (pointInBox box (node_point this mesh m)))
    (seq 0 (length (nodes mesh))).

(** The ordinal in slot [i] of the element in slot [n]. *)
Definition element_node (mesh : Mesh) (n i : nat) : option GlobalOrdinal :=
  connectivity mesh !! (i * length (elements mesh) + n).

(** Node slot [m] is the one the code consults for slot [i] of element [n]. *)
Definition element_node_index (mesh : Mesh) (n i m : nat) : Prop :=
  ∃ g, element_node mesh n i = Some g ∧ index_map (nodes mesh) !! g = Some m.

(** [r] is the rank RCB gives to some node of the element in slot [n]. *)
Definition element_routes (this : Rendezvous) (rcb : RCB) (mesh : Mesh)
    (n : nat) (r : Z) : Prop :=
  ∃ i m, i < nodesPerElement mesh ∧ element_node_index mesh n i m ∧
         getDestinationProc rcb (node_point this mesh m) = r.

(** An ascending sequence without repetition: the content of a [std::set]. *)
Definition ascending (s : list Z) : Prop := StronglySorted Z.lt s.

(** A vector of sets grew row by row: row [m] gained exactly the ranks [r]
    with [Q m r]. *)
Definition rows_extend (Q : nat → Z → Prop) (sets sets' : list (list Z)) : Prop :=
  length sets' = length sets ∧
  ∀ m s, sets !! m = Some s →
    ∃ s', sets' !! m = Some s' ∧ (ascending s → ascending s') ∧
          ∀ r, r ∈ s' ↔ r ∈ s ∨ Q m r.

(** The exported pair [(e, r)] makes node slot [m] go to rank [r]: [m] is a
    node of [e], whose connectivity the code finds through
    [element_indices]. *)
Definition pulls_node (mesh : Mesh) (export : list (Z * Z)) (m : nat) (r : Z)
  : Prop :=
  ∃ e n i, (e, r) ∈ export ∧ index_map (elements mesh) !! e = Some n ∧
           i < nodesPerElement mesh ∧ element_node_index mesh n i m.

(** The same, read off the arrays directly: slot [m] holds an ordinal that
    appears in the connectivity row of a slot holding an exported element. *)
Definition carries_node (mesh : Mesh) (export : list (Z * Z)) (m : nat) (r : Z)
  : Prop :=
  ∃ e n i g, (e, r) ∈ export ∧ elements mesh !! n = Some e ∧
             i < nodesPerElement mesh ∧ element_node mesh n i = Some g ∧
             nodes mesh !! m = Some g.

(** The element in slot [n] has a connectivity node that is geometrically
    inside the box. *)
Definition element_in_box (this : Rendezvous) (mesh : Mesh) (box : BoundingBox)
    (n : nat) : Prop :=
  ∃ i m, i < nodesPerElement mesh ∧ element_node_index mesh n i m ∧
         pointInBox box (node_point this mesh m) = true.

(** [g] is a node of element ordinal [e]; the code finds the element's
    connectivity through [element_indices]. *)
Definition node_of (mesh : Mesh) (e g : GlobalOrdinal) : Prop :=
  ∃ n i, index_map (elements mesh) !! e = Some n ∧
         i < nodesPerElement mesh ∧ element_node mesh n i = Some g.

(** Rank [rk] exported the pair (element [e], rank [r]) in the first round. *)
Definition ships_element (rk : RankRun) (e : GlobalOrdinal) (r : nat) : Prop :=
  ∃ export_elements export_element_procs,
    rank_sends rk !! 0 = Some (export_elements, export_element_procs) ∧
    (e, Z.of_nat r) ∈ zip export_elements export_element_procs.

(** The input [MeshTraits] promises: the arrays have their blocked sizes and
    the connectivity names local nodes. *)
Record well_formed (this : Rendezvous) (mesh : Mesh) : Prop := {
  wf_dim : d_node_dim this ≤ 3;
  wf_coords : d_node_dim this * length (nodes mesh) ≤ length (coords mesh);
  wf_connectivity :
    ∀ n i, n < length (elements mesh) → i < nodesPerElement mesh →
           ∃ g, element_node mesh n i = Some g ∧ g ∈ nodes mesh
}.

(** What the first loop of [getMeshInBox] needs when there is a node to
    load: room in the three-slot buffer and in the coordinate array. *)
Definition loadable (this : Rendezvous) (mesh : Mesh) : Prop :=
  nodes mesh = [] ∨
  (d_node_dim this ≤ 3 ∧
   d_node_dim this * length (nodes mesh) ≤ length (coords mesh)).

(** Every connectivity entry the loops read exists and names a local node. *)
Definition resolvable (mesh : Mesh) : Prop :=
  ∀ n i, n < length (elements mesh) → i < nodesPerElement mesh →
         ∃ g, element_node mesh n i = Some g ∧ g ∈ nodes mesh.

(** Two runs of a loop end alike: with related states, or with the same
    failure. *)
Definition same_outcome {S} (R : S → S → Prop) (r1 r2 : result S) : Prop :=
  match r1, r2 with
  | Ok a, Ok b => R a b
  | Fail e1, Fail e2 => e1 = e2
  | _, _ => False
  end.

(** Loop states that differ in the coordinate buffer only. *)
Definition same_sets (st1 st2 : Point3 * list (list Z)) : Prop :=
  st1.2 = st2.2.

(** Two runs of a rank on the same facade, mesh and flags; the buffer and
    the deliveries may differ. *)
Definition same_input (rk rk' : RankRun) : Prop :=
  rank_this rk = rank_this rk' ∧ rank_mesh rk = rank_mesh rk' ∧
  rank_elements_in_box rk = rank_elements_in_box rk'.

(** ** A small configuration to run the definitions on *)

Module Example.
Import PrimFloat.

(** Two ranks split at [x = 0.5]; points on the cut go to rank 0. *)
Definition rcb : RCB :=
  {| getDestinationProc := λ p,
       if PrimFloat.leb (px p) 0.5%float then 0%Z else 1%Z |}.

(** The unit box, closed. *)
Definition box : BoundingBox :=
  {| pointInBox := λ p,
       PrimFloat.leb 0%float (px p) && PrimFloat.leb (px p) 1%float &&
       PrimFloat.leb 0%float (py p) && PrimFloat.leb (py p) 1%float &&
       PrimFloat.leb 0%float (pz p) && PrimFloat.leb (pz p) 1%float |}.

(** Elements 10 and 20 cover [x <= 0.5] and [0.5 <= x <= 1]. *)
Definition kdtree : KDTree :=
  {| kd_elements := [20; 10]%Z;
     kd_pointInCell := λ e p,
       match p with
       | x :: _ =>
           if decide (e = 10%Z) then PrimFloat.leb x 0.5%float
           else PrimFloat.leb 0.5%float x && PrimFloat.leb x 1%float
       | [] => false
       end;
     kd_sentinel := (-1)%Z |}.

Definition facade : Rendezvous :=
  {| d_global_box := box; d_node_dim := 2;
     d_rcb := Some rcb; d_kdtree := Some kdtree |}.

Definition junk : Point3 := mkPoint3 7%float 8%float 9%float.

(** Three points of the plane, blocked: (0.25, 0), (0.5, 1), (2, 0.5). *)
Definition three_points : list double :=
  [0.25; 0.5; 2; 0; 1; 0.5]%float.

(** The same with one stray value at the end. *)
Definition ragged_points : list double :=
  [0.25; 0.5; 2; 0; 1; 0.5; 3]%float.

(** Rank 0 holds three segments on the line [y = 0.5]:
    element 10 = (100, 101), 20 = (101, 102), 30 = (102, 103), with the nodes
    at [x] = 0.25, 0.75, 1.5 and 2.5.  Nodes 102 and 103 are outside the
    unit box. *)
Definition mesh : Mesh :=
  {| nodeDim := 2;
     nodes := [100; 101; 102; 103]%Z;
     coords := [0.25; 0.75; 1.5; 2.5; 0.5; 0.5; 0.5; 0.5]%float;
     elements := [10; 20; 30]%Z;
     nodesPerElement := 2;
     connectivity := [100; 101; 102; 101; 102; 103]%Z |}.

(** Rank 1 holds one segment, element 40 = (200, 201), left of the cut. *)
Definition mesh1 : Mesh :=
  {| nodeDim := 2;
     nodes := [200; 201]%Z;
     coords := [0.125; 0.375; 0.5; 0.5]%float;
     elements := [40]%Z;
     nodesPerElement := 2;
     connectivity := [200; 201]%Z |}.

(** The run of the two ranks together; the deliveries are listed in an order
    of arrival that differs from the order of the senders. *)
Definition rank0 : RankRun :=
  {| rank_this := facade; rank_mesh := mesh;
     rank_elements_in_box := [1; 1; 0]%Z; rank_node_coords := junk;
     rank_received := [[40; 10]; [200; 100; 201; 101]]%Z |}.

Definition rank1 : RankRun :=
  {| rank_this := facade; rank_mesh := mesh1;
     rank_elements_in_box := [1]%Z; rank_node_coords := junk;
     rank_received := [[10; 20]; [101; 100; 102]]%Z |}.

(** A mesh whose only element names an ordinal, 999, that is not a node. *)
Definition broken_mesh : Mesh :=
  {| nodeDim := 2;
     nodes := [100; 101]%Z;
     coords := [0.25; 0.75; 0.5; 0.5]%float;
     elements := [10]%Z;
     nodesPerElement := 2;
     connectivity := [100; 999]%Z |}.

(** A facade built for a mesh of dimension 4. *)
Definition facade4 : Rendezvous :=
  {| d_global_box := box; d_node_dim := 4;
     d_rcb := Some rcb; d_kdtree := Some kdtree |}.

(** A facade with the node dimension set and both trees still null. *)
Definition facade_no_trees : Rendezvous :=
  {| d_global_box := box; d_node_dim := 2;
     d_rcb := None; d_kdtree := None |}.

(** One point of a four-dimensional space. *)
Definition one_point4 : list double := [0.25; 0.5; 0.75; 1]%float.

End Example.

(** ** The priority queue of the search (DTK_DetailsPriorityQueue.hpp) *)

(** [PriorityQueue<T, Compare>] is a binary heap in a fixed array of
    [_max_size] slots.  Indices are [IndexType = std::ptrdiff_t], signed:
    they are integers [Z] here, and no operation below leaves the range of
    the type, since every index is compared with [_size] or used as a
    subscript before it grows.  The two things that can go wrong are kept
    apart: an [assert] that does not hold, and a subscript outside the
    array.  The [while] loops run on fuel; the fuel each operation passes is
    more than its loop can use. *)

Module Details.
Local Open Scope Z_scope.

Inductive fault : Set :=
| AssertionFailed   (* the condition of an [assert] is false *)
| OutOfBounds       (* [_heap[i]] with [i] outside the array *)
| OutOfFuel.        (* a loop of the model was cut short *)

Inductive checked (A : Type) : Type :=
| Returns (a : A)
| Faults (f : fault).
Arguments Returns {A} a.
Arguments Faults {A} f.

#[global] Instance checked_ret : MRet checked := λ A a, Returns a.
#[global] Instance checked_bind : MBind checked := λ A B f m,
  match m with
  | Returns a => f a
  | Faults e => Faults e
  end.

Definition assert (b : bool) : checked unit :=
  if b then Returns () else Faults AssertionFailed.

(** What one turn of a loop body decides. *)
Inductive loop (St : Type) : Type :=
| Continue (s : St)
| Break (s : St).
Arguments Continue {St} s.
Arguments Break {St} s.

(** [while ( ... ) body], where [body] also evaluates the loop condition and
    the [break]s. *)
Fixpoint while {St : Type} (fuel : nat) (body : St → checked (loop St))
    (s : St) : checked St :=
  match fuel with
  | O => Faults OutOfFuel
  | S fuel' =>
      r ← body s;
      match r with
      | Continue s' => while fuel' body s'
      | Break s' => Returns s'
      end
  end.

(** [for ( x : {a, b} ) body]. *)
Fixpoint for_in {A St : Type} (body : A → St → checked St) (l : list A)
    (s : St) : checked St :=
  match l with
  | [] => Returns s
  | x :: l' => s' ← body x s; for_in body l' s'
  end.

(** [Less<T>] at [T = Z]. *)
Definition Less (x y : Z) : bool := bool_decide (x < y).

Definition _max_size : Z := 256.

Record PriorityQueue (T : Type) : Type := mkPriorityQueue {
  _heap : list T;
  _size : Z;
  _compare : T → T → bool
}.
Arguments mkPriorityQueue {T} _ _ _.
Arguments _heap {T} _.
Arguments _size {T} _.
Arguments _compare {T} _.

(** The slot [_heap[i]], if there is one. *)
Definition slot {T} (heap : list T) (i : Z) : option T :=
  if decide (0 ≤ i) then heap !! Z.to_nat i else None.

(** Reading [_heap[i]]. *)
Definition heap_get {T} (heap : list T) (i : Z) : checked T :=
  match slot heap i with
  | Some x => Returns x
  | None => Faults OutOfBounds
  end.

(** [_heap[i] = x]. *)
Definition heap_set {T} (heap : list T) (i : Z) (x : T) : checked (list T) :=
  match slot heap i with
  | Some _ => Returns (<[Z.to_nat i := x]> heap)
  | None => Faults OutOfBounds
  end.

(** [PriorityQueue() = default]: [_size = 0], and the slots hold what default
    initialisation of [T] leaves in them. *)
Definition PriorityQueue_new {T} (compare : T → T → bool) (junk : T)
  : PriorityQueue T :=
  {| _heap := replicate (Z.to_nat _max_size) junk;
     _size := 0;
     _compare := compare |}.

Definition empty {T} (q : PriorityQueue T) : bool := bool_decide (_size q = 0).

Definition size {T} (q : PriorityQueue T) : Z := _size q.

Definition clear {T} (q : PriorityQueue T) : PriorityQueue T :=
  {| _heap := _heap q; _size := 0; _compare := _compare q |}.

Definition value_comp {T} (q : PriorityQueue T) : T → T → bool := _compare q.

(** One turn of the up-heap loop of [push]; the state is [(_heap, pos)]. *)
Definition up_heap {T} (compare : T → T → bool) (elem : T)
    (s : list T * Z) : checked (loop (list T * Z)) :=
  let '(heap, pos) := s in
  if bool_decide (pos > 0) then
    let parent := (pos - 1) `quot` 2 in
    p ← heap_get heap parent;
    if negb (compare p elem) then Returns (Break (heap, pos))
    else
      v ← heap_get heap parent;
      heap ← heap_set heap pos v;
      Returns (Continue (heap, parent))
  else Returns (Break (heap, pos)).

Definition push {T} (q : PriorityQueue T) (elem : T)
  : checked (PriorityQueue T) :=
  _ ← assert (bool_decide (_size q < _max_size));
  let pos := _size q in
  '(heap, pos) ← while (S (Z.to_nat pos)) (up_heap (_compare q) elem)
                   (_heap q, pos);
  heap ← heap_set heap pos elem;
  Returns {| _heap := heap; _size := _size q + 1; _compare := _compare q |}.

(** The body of [for ( IndexType child : {left_child, right_child} )]. *)
Definition pick_child {T} (compare : T → T → bool) (heap : list T) (size : Z)
    (child next_pos : Z) : checked Z :=
  if bool_decide (child < size - 1) then
    a ← heap_get heap next_pos;
    b ← heap_get heap child;
    if compare a b then Returns child else Returns next_pos
  else Returns next_pos.

(** One turn of the down-heap loop of [pop]. *)
Definition down_heap {T} (compare : T → T → bool) (size : Z)
    (s : list T * Z) : checked (loop (list T * Z)) :=
  let '(heap, pos) := s in
  let left_child := 2 * pos + 1 in
  let right_child := 2 * pos + 2 in
  next_pos ← for_in (pick_child compare heap size) [left_child; right_child]
                (size - 1);
  if bool_decide (next_pos = size - 1) then Returns (Break (heap, pos))
  else
    v ← heap_get heap next_pos;
    heap ← heap_set heap pos v;
    Returns (Continue (heap, next_pos)).

Definition pop {T} (q : PriorityQueue T) : checked (PriorityQueue T) :=
  _ ← assert (bool_decide (_size q > 0));
  '(heap, pos) ← while (S (Z.to_nat (_size q)))
                   (down_heap (_compare q) (_size q)) (_heap q, 0);
  v ← heap_get heap (_size q - 1);
  heap ← heap_set heap pos v;
  Returns {| _heap := heap; _size := _size q - 1; _compare := _compare q |}.

Definition pop_push {T} (q : PriorityQueue T) (elem : T)
  : checked (PriorityQueue T) :=
  _ ← assert (bool_decide (_size q < _max_size));
  let size := _size q + 1 in
  heap ← heap_set (_heap q) (size - 1) elem;
  pop {| _heap := heap; _size := size; _compare := _compare q |}.

Definition top {T} (q : PriorityQueue T) : checked T :=
  _ ← assert (bool_decide (_size q > 0));
  heap_get (_heap q) 0.

(** *** Vocabulary of the statements about the queue *)

(** A queue as the constructor and the operations leave it. *)
Definition well_sized {T} (q : PriorityQueue T) : Prop :=
  length (_heap q) = Z.to_nat _max_size ∧ 0 ≤ _size q ≤ _max_size.

(** The elements of the queue: the first [_size] slots. *)
Definition contents {T} (q : PriorityQueue T) : list T :=
  take (Z.to_nat (_size q)) (_heap q).

(** The first [m] slots form a heap: no slot compares below its child. *)
Definition ordered_upto {T} (compare : T → T → bool) (heap : list T) (m : Z)
  : Prop :=
  ∀ i x p, 0 < i < m →
    slot heap i = Some x → slot heap ((i - 1) `quot` 2) = Some p →
    compare p x = false.

Definition heap_ordered {T} (q : PriorityQueue T) : Prop :=
  ordered_upto (_compare q) (_heap q) (_size q).

(** What the standard asks of a [Compare]: a strict weak ordering. *)
Definition strict_weak_order {T} (compare : T → T → bool) : Prop :=
  (∀ x, compare x x = false) ∧
  (∀ x y z, compare x y = true → compare y z = true → compare x z = true) ∧
  (∀ x y z, compare x y = false → compare y z = false → compare x z = false).

(** Two queues a caller cannot tell apart: the same ordering, the same number
    of elements and the same elements in the same slots.  Nothing is said
    about the slots from [_size] on. *)
Definition same_elements {T} (q1 q2 : PriorityQueue T) : Prop :=
  _compare q1 = _compare q2 ∧ _size q1 = _size q2 ∧
  length (_heap q1) = length (_heap q2) ∧ contents q1 = contents q2.

(** Two outcomes that are alike: the same fault, or results related by
    [R]. *)
Definition alike {A B} (R : A → B → Prop) (m1 : checked A) (m2 : checked B)
  : Prop :=
  match m1, m2 with
  | Returns a, Returns b => R a b
  | Faults f, Faults g => f = g
  | _, _ => False
  end.

Definition loop_alike {A B} (R : A → B → Prop) (l1 : loop A) (l2 : loop B)
  : Prop :=
  match l1, l2 with
  | Continue a, Continue b => R a b
  | Break a, Break b => R a b
  | _, _ => False
  end.

(** Two loop states with the hole in the same slot that agree on the slots
    [0 .. m - 1], the hole left out or not. *)
Definition agree_upto {T} (m : Z) (with_hole : bool) (s1 s2 : list T * Z)
  : Prop :=
  s1.2 = s2.2 ∧ length s1.1 = length s2.1 ∧
  ∀ i, 0 ≤ i < m → with_hole = true ∨ i ≠ s1.2 → slot s1.1 i = slot s2.1 i.

(** *** The loops, as the proofs see them *)

(** The up-heap loop of [push], for a queue of [n] elements in [heap0]:
    [pos] is a hole that climbs.  Outside the hole the first [n + 1] slots
    hold the [n] elements; they stay a heap, and what was copied down into
    the last hole compared below [elem]. *)
Definition up_heap_inv {T} (compare : T → T → bool) (elem : T)
    (heap0 : list T) (n : Z) (s : list T * Z) : Prop :=
  let '(heap, pos) := s in
  length heap = length heap0 ∧ 0 ≤ pos ≤ n ∧
  delete (Z.to_nat pos) (take (S (Z.to_nat n)) heap)
    ≡ₚ take (Z.to_nat n) heap0 ∧
  (strict_weak_order compare → ordered_upto compare heap0 n →
   (pos = n ∧ ordered_upto compare heap n) ∨
   (ordered_upto compare heap (n + 1) ∧
    ∃ v, slot heap pos = Some v ∧ compare v elem = true)).

Definition up_heap_post {T} (compare : T → T → bool) (elem : T)
    (heap0 : list T) (n : Z) (s : list T * Z) : Prop :=
  up_heap_inv compare elem heap0 n s ∧
  (s.2 = 0 ∨
   ∃ p, slot s.1 ((s.2 - 1) `quot` 2) = Some p ∧ compare p elem = false).

(** The down-heap loop of [pop], for a queue of [n] elements in [heap0] whose
    last one is [last]: the hole [pos] starts at the root and sinks.  Outside
    the hole the first [n] slots hold everything but the old root; the first
    [n - 1] slots stay a heap, and the slot above the hole does not compare
    below [last]. *)
Definition down_heap_inv {T} (compare : T → T → bool) (heap0 : list T)
    (n : Z) (last : T) (s : list T * Z) : Prop :=
  let '(heap, pos) := s in
  length heap = length heap0 ∧ 0 ≤ pos ∧ (pos = 0 ∨ pos < n - 1) ∧
  slot heap (n - 1) = Some last ∧
  delete (Z.to_nat pos) (take (Z.to_nat n) heap)
    ≡ₚ delete 0%nat (take (Z.to_nat n) heap0) ∧
  (strict_weak_order compare → ordered_upto compare heap0 (n - 1) →
   ordered_upto compare heap (n - 1) ∧
   (pos = 0 ∨
    ∃ p, slot heap ((pos - 1) `quot` 2) = Some p ∧ compare p last = false)).

(** No child of [pos] among the first [n - 1] slots compares above [v]. *)
Definition above_children {T} (compare : T → T → bool) (heap : list T)
    (n pos : Z) (v : T) : Prop :=
  ∀ child x, child = 2 * pos + 1 ∨ child = 2 * pos + 2 → child < n - 1 →
    slot heap child = Some x → compare v x = false.

Definition down_heap_post {T} (compare : T → T → bool) (heap0 : list T)
    (n : Z) (last : T) (s : list T * Z) : Prop :=
  down_heap_inv compare heap0 n last s ∧
  above_children compare s.1 n s.2 last.

End Details.

Module QueueExample.
Import Details.
Local Open Scope Z_scope.

(** Three elements, the largest at the root. *)
Definition three : PriorityQueue Z :=
  {| _heap := [7; 3; 5] ++ replicate 253 0; _size := 3; _compare := Less |}.

(** The same three elements over other spare slots. *)
Definition three' : PriorityQueue Z :=
  {| _heap := [7; 3; 5] ++ replicate 253 8; _size := 3; _compare := Less |}.

(** A queue that was never pushed to. *)
Definition none : PriorityQueue Z := PriorityQueue_new Less 0.

(** A full queue. *)
Definition full : PriorityQueue Z :=
  {| _heap := replicate 256 9; _size := 256; _compare := Less |}.

End QueueExample.

(** ** The polynomial bases (DTK_MultivariatePolynomialBasis.hpp) *)

(** [MultivariatePolynomialBasis<Basis, DIM>]: [size()] exists where
    [Details::Traits] is specialised, [operator()] where it is specialised
    itself, for [DIM] 2 and 3; elsewhere the program does not link, which is
    [None].  A point is what its [operator[]] returns. *)

Module MultivariatePolynomialBasis.
Local Open Scope Z_scope.

Inductive Basis : Set := Constant | Linear | Quadratic.

(** [Details::Traits<Basis, DIM>::size()]. *)
Definition Traits_size (basis : Basis) (DIM : Z) : option Z :=
  match basis, DIM with
  | Constant, _ => Some 1
  | Linear, 3 => Some 4
  | Quadratic, 3 => Some 10
  | Linear, 2 => Some 3
  | Quadratic, 2 => Some 6
  | _, _ => None
  end.

Definition size (basis : Basis) (DIM : Z) : option Z := Traits_size basis DIM.

(** [operator()( Point const &p )]. *)
Definition call (basis : Basis) (DIM : Z) (p : Z → double)
  : option (list double) :=
  let mul := PrimFloat.mul in
  let one := PrimFloat.one in
  match basis, DIM with
  | Constant, 3 => Some [one]
  | Linear, 3 => Some [one; p 0; p 1; p 2]
  | Quadratic, 3 =>
      Some [one; p 0; p 1; p 2; mul (p 0) (p 0); mul (p 0) (p 1);
            mul (p 0) (p 2); mul (p 1) (p 1); mul (p 1) (p 2);
            mul (p 2) (p 2)]
  | Constant, 2 => Some [one]
  | Linear, 2 => Some [one; p 0; p 1]
  | Quadratic, 2 =>
      Some [one; p 0; p 1; mul (p 0) (p 0); mul (p 0) (p 1); mul (p 1) (p 1)]
  | _, _ => None
  end.

(** *** Vocabulary of the statements about the bases *)

Definition degree (basis : Basis) : nat :=
  match basis with Constant => 0 | Linear => 1 | Quadratic => 2 end.

(** The products [p[i1] * ... * p[ik]] with [first <= i1 <= ... <= ik < DIM],
    in lexicographic order of the indices; [acc] is what stands before
    them. *)
Fixpoint monomials (k : nat) (DIM first : nat) (p : Z → double)
    (acc : option double) : list double :=
  match k with
  | O => [default PrimFloat.one acc]
  | S k' =>
      flat_map (λ i,
        let x := p (Z.of_nat i) in
        monomials k' DIM i p
          (Some (from_option (λ a, PrimFloat.mul a x) x acc)))
        (seq first (DIM - first))
  end.

(** The monomials of degree at most [k], by degree. *)
Definition graded_monomials (k : nat) (DIM : nat) (p : Z → double)
  : list double :=
  flat_map (λ j, monomials j DIM 0 p None) (seq 0 (S k)).

(** A point to evaluate the bases at. *)
Definition example_point (i : Z) : double :=
  if Z.eqb i 0 then PrimFloat.two else PrimFloat.infinity.

End MultivariatePolynomialBasis.

(** * Proofs *)

(** ** The result monad and the loops *)

Lemma bind_Ok {A B} (m : result A) (f : A → result B) (b : B) :
  m ≫= f = Ok b ↔ ∃ a, m = Ok a ∧ f a = Ok b.
Proof.
  destruct m as [a|e]; simpl; split.
  - eauto.
  - intros (a' & [= <-] & H). exact H.
  - discriminate.
  - intros (a' & H & _). discriminate.
Qed.

Lemma for_each_app {A S} (body : A → S → result S) (l1 l2 : list A) (s : S) :
  for_each body (l1 ++ l2) s = for_each body l1 s ≫= for_each body l2.
Proof.
  revert s. induction l1 as [|x l1 IH]; intros s; simpl; [done|].
  destruct (body x s) as [s'|e]; simpl; [apply IH | done].
Qed.

Lemma for_range_empty {S} lo hi (body : nat → S → result S) s :
  hi ≤ lo → for_range lo hi body s = Ok s.
Proof. intros H. unfold for_range. by replace (hi - lo) with 0 by lia. Qed.

Lemma for_range_first {S} lo hi (body : nat → S → result S) s :
  lo < hi →
  for_range lo hi body s = body lo s ≫= for_range (Datatypes.S lo) hi body.
Proof.
  intros H. unfold for_range.
  replace (hi - lo) with (Datatypes.S (hi - Datatypes.S lo)) by lia. done.
Qed.

Lemma for_range_last {S} lo hi (body : nat → S → result S) s :
  lo ≤ hi →
  for_range lo (Datatypes.S hi) body s = for_range lo hi body s ≫= body hi.
Proof.
  intros H. unfold for_range.
  replace (Datatypes.S hi - lo) with (Datatypes.S (hi - lo)) by lia.
  rewrite seq_S, for_each_app. replace (lo + (hi - lo)) with hi by lia.
  destruct (for_each body (seq lo (hi - lo)) s) as [s'|e]; simpl; [|done].
  by destruct (body hi s').
Qed.

(** Total correctness of a counted loop from an invariant. *)
Lemma for_range_total {S} (I : nat → S → Prop) lo hi
    (body : nat → S → result S) s :
  lo ≤ hi → I lo s →
  (∀ n s, lo ≤ n < hi → I n s → ∃ s', body n s = Ok s' ∧ I (Datatypes.S n) s') →
  ∃ s', for_range lo hi body s = Ok s' ∧ I hi s'.
Proof.
  intros Hle H0 Hstep. induction hi as [|hi IH].
  - assert (lo = 0) as -> by lia. exists s. by rewrite for_range_empty.
  - destruct (decide (lo = Datatypes.S hi)) as [->|Hne].
    + exists s. by rewrite for_range_empty.
    + destruct IH as (s1 & Hrun & HI); [lia| |].
      { intros n s0 Hn. apply Hstep. lia. }
      destruct (Hstep hi s1) as (s2 & Hb & HI2); [lia|done|].
      exists s2. rewrite for_range_last by lia. rewrite Hrun. simpl. done.
Qed.

(** Partial correctness: what a loop that completed has established. *)
Lemma for_range_partial {S} (I : nat → S → Prop) lo hi
    (body : nat → S → result S) s s' :
  lo ≤ hi → I lo s →
  (∀ n s s', lo ≤ n < hi → I n s → body n s = Ok s' → I (Datatypes.S n) s') →
  for_range lo hi body s = Ok s' → I hi s'.
Proof.
  intros Hle H0 Hstep. revert s'. induction hi as [|hi IH]; intros s'.
  - assert (lo = 0) as -> by lia. rewrite for_range_empty by lia. by intros [= <-].
  - destruct (decide (lo = Datatypes.S hi)) as [->|Hne].
    + rewrite for_range_empty by lia. by intros [= <-].
    + rewrite for_range_last by lia. intros (s1 & Hrun & Hb)%bind_Ok.
      apply (Hstep hi s1); [lia| |done].
      apply IH; [lia| |done]. intros n s0 s0' Hn. apply Hstep. lia.
Qed.

Lemma array_get_Ok {A} (a : list A) i x : array_get a i = Ok x ↔ a !! i = Some x.
Proof. unfold array_get. destruct (a !! i); split; congruence. Qed.

Lemma array_get_lt {A} (a : list A) i :
  i < length a → ∃ x, a !! i = Some x ∧ array_get a i = Ok x.
Proof.
  intros H. destruct (lookup_lt_is_Some_2 a i H) as [x Hx].
  exists x. split; [done|]. by apply array_get_Ok.
Qed.

Lemma array_set_Ok {A} (a : list A) i x a' :
  array_set a i x = Ok a' ↔ i < length a ∧ a' = <[i := x]> a.
Proof. unfold array_set. case_decide; split; try intros [??]; try congruence; try lia.
  intros [= <-]. done. Qed.

(** ** Loading a point into the three-slot buffer *)

Lemma axis_lt d N coords n k v :
  k < d → coords !! (k * N + n) = Some v → axis d N coords n k = v.
Proof. intros Hk Hv. unfold axis. rewrite decide_True by done. by rewrite Hv. Qed.

Lemma axis_ge d N coords n k : d ≤ k → axis d N coords n k = zero.
Proof. intros Hk. unfold axis. rewrite decide_False by lia. done. Qed.

Ltac load_point_cases :=
  unfold load_point, for_range, array_get; simpl;
  repeat match goal with
    | |- context [?c !! ?i] =>
        let v := fresh "v" in let Hv := fresh "Hv" in
        destruct (c !! i) as [v|] eqn:Hv; simpl
    end.

(** The buffer's previous content never shows in the outcome. *)
Lemma load_point_junk d coords stride n (junk1 junk2 : Point3) :
  load_point d coords stride n junk1 = load_point d coords stride n junk2.
Proof. destruct d as [|[|[|[|d]]]]; load_point_cases; done. Qed.

Ltac axis_cases :=
  unfold padded_point, axis; simpl;
  repeat (case_decide; try lia);
  repeat match goal with H : _ !! _ = Some _ |- _ => rewrite H; clear H end;
  simpl; try done.

Lemma load_point_total d coords stride n junk :
  d ≤ 3 → (∀ k, k < d → k * stride + n < length coords) →
  load_point d coords stride n junk = Ok (padded_point d stride coords n).
Proof.
  intros Hd Hin.
  destruct d as [|[|[|[|d]]]]; [| | | |lia]; load_point_cases;
    try (exfalso;
         match goal with
         | H : _ !! _ = None |- _ =>
             apply lookup_ge_None in H;
             pose proof (Hin 0); pose proof (Hin 1); pose proof (Hin 2); lia
         end);
    axis_cases.
Qed.

Lemma load_point_Ok d coords stride n junk p :
  load_point d coords stride n junk = Ok p →
  p = padded_point d stride coords n.
Proof.
  destruct d as [|[|[|[|d]]]]; load_point_cases; intros [= <-]; axis_cases.
Qed.

(** ** The two queries *)

Lemma blocked_index d N len k n :
  d * N ≤ len → k < d → n < N → k * N + n < len.
Proof. nia. Qed.

Lemma size_div_Ok len d : 1 ≤ d → size_div len d = Ok (len / d).
Proof. destruct d; [lia|done]. Qed.

Lemma div_blocked len d : 1 ≤ d → d * (len / d) ≤ len.
Proof. intros. apply Nat.Div0.mul_div_le. Qed.

Lemma getRendezvousProcs_run this junk coords rcb :
  1 ≤ d_node_dim this ≤ 3 → d_rcb this = Some rcb →
  getRendezvousProcs this junk coords =
    Ok (map (routed rcb (d_node_dim this) (length coords / d_node_dim this) coords)
          (seq 0 (length coords / d_node_dim this))).
Proof.
  intros Hd Hrcb. unfold getRendezvousProcs.
  rewrite size_div_Ok by lia. rewrite Hrcb.
  set (d := d_node_dim this) in *. set (N := length coords / d).
  pose proof (div_blocked (length coords) d ltac:(lia)) as HN. fold N in HN.
  change (Ok N ≫= ?f) with (f N). cbv beta.
  match goal with |- context [for_range 0 N ?b ?s] =>
    destruct (for_range_total
                (λ n (st : Point3 * list Z), st.2 = map (routed rcb d N coords) (seq 0 n))
                0 N b s) as ([pt out] & -> & Hout)
  end; [lia|done| |].
  - intros n [pt out] Hn Hout. simpl in Hout.
    rewrite (load_point_total d coords N n pt) by
      (try lia; intros; apply (blocked_index d N); lia).
    eexists. split; [reflexivity|]. cbn [snd].
    rewrite seq_S, map_app, Hout. done.
  - simpl in *. subst out. rewrite length_map, length_seq.
    rewrite bool_decide_eq_true_2 by done. done.
Qed.

Lemma routed_lookup rcb d N coords n :
  n < N →
  map (routed rcb d N coords) (seq 0 N) !! n = Some (routed rcb d N coords n).
Proof. intros Hn. rewrite list_lookup_fmap, lookup_seq_lt by done. done. Qed.

Lemma blocked_point_lookup d N coords n k :
  k < d → blocked_point d N coords n !! k = Some (axis d N coords n k).
Proof.
  intros Hk. unfold blocked_point.
  rewrite list_lookup_fmap, lookup_seq_lt by done. done.
Qed.

Lemma length_blocked_point d N coords n : length (blocked_point d N coords n) = d.
Proof. unfold blocked_point. by rewrite length_map, length_seq. Qed.

(** The inner loop of [getElements] overwrites the whole [point] array. *)
Lemma load_array_total d N coords n (point : list double) :
  length point = d → (∀ k, k < d → k * N + n < length coords) →
  for_range 0 d
    (λ k point, v ← array_get coords (k * N + n); array_set point k v) point
  = Ok (blocked_point d N coords n).
Proof.
  intros Hlen Hin.
  match goal with |- for_range 0 d ?b ?s = _ =>
    destruct (for_range_total
                (λ k (pt : list double),
                   length pt = d ∧ ∀ j, j < k → pt !! j = Some (axis d N coords n j))
                0 d b s) as (pt & -> & Hpt & Hax)
  end; [lia|split; [done|intros; lia]| |].
  - intros k pt Hk [Hpt Hax].
    destruct (array_get_lt coords (k * N + n)) as (v & Hv & ->); [auto with lia|].
    exists (<[k := v]> pt). split.
    + simpl. unfold array_set. rewrite decide_True by lia. done.
    + split; [by rewrite length_insert|]. intros j Hj.
      destruct (decide (j = k)) as [->|Hne].
      * rewrite list_lookup_insert_eq by lia. f_equal. symmetry.
        apply axis_lt; [lia|done].
      * rewrite list_lookup_insert_ne by done. apply Hax. lia.
  - f_equal. apply list_eq. intros j. destruct (decide (j < d)) as [Hj|Hj].
    + rewrite Hax, blocked_point_lookup by done. done.
    + rewrite !lookup_ge_None_2; [done| |]; rewrite ?length_blocked_point; lia.
Qed.

Lemma getElements_run this coords t :
  1 ≤ d_node_dim this → d_kdtree this = Some t →
  getElements this coords =
    Ok (map (located t (d_node_dim this) (length coords / d_node_dim this) coords)
          (seq 0 (length coords / d_node_dim this))).
Proof.
  intros Hd Ht. unfold getElements. cbv zeta.
  rewrite size_div_Ok by lia. rewrite Ht.
  set (d := d_node_dim this) in *. set (N := length coords / d).
  pose proof (div_blocked (length coords) d ltac:(lia)) as HN. fold N in HN.
  change (Ok N ≫= ?f) with (f N). cbv beta.
  match goal with |- context [for_range 0 N ?b ?s] =>
    destruct (for_range_total
                (λ n (st : list double * list GlobalOrdinal),
                   length st.1 = d ∧ st.2 = map (located t d N coords) (seq 0 n))
                0 N b s) as ([pt out] & -> & Hpt & Hout)
  end; [lia|split; [apply length_replicate|done]| |].
  - intros n [pt out] Hn [Hpt Hout]. cbn [fst snd] in *.
    rewrite (load_array_total d N coords n pt) by
      (try done; intros; apply (blocked_index d N); lia).
    eexists. split; [reflexivity|]. cbn [fst snd].
    split; [apply length_blocked_point|].
    rewrite seq_S, map_app, Hout. done.
  - cbn [fst snd] in *. subst out. simpl. rewrite length_map, length_seq.
    rewrite bool_decide_eq_true_2 by done. done.
Qed.

Lemma located_lookup t d N coords n :
  n < N →
  map (located t d N coords) (seq 0 N) !! n = Some (located t d N coords n).
Proof. intros Hn. rewrite list_lookup_fmap, lookup_seq_lt by done. done. Qed.

(** [findPoint] picks among the elements that contain the point. *)
Lemma foldl_min_elem (e : Z) (es : list Z) : foldl Z.min e es ∈ e :: es.
Proof.
  revert e. induction es as [|x es IH]; intros e; simpl; [left|].
  pose proof (IH (Z.min e x)) as Hmin.
  destruct (Z.min_spec e x) as [[_ Hm]|[_ Hm]]; rewrite Hm in Hmin |- *.
  - apply elem_of_cons in Hmin as [->|Hin]; [left|right; by right].
  - by right.
Qed.

Lemma foldl_min_le (e : Z) (es : list Z) x :
  x ∈ e :: es → (foldl Z.min e es ≤ x)%Z.
Proof.
  revert e x. induction es as [|y es IH]; intros e x Hx; simpl.
  - apply list_elem_of_singleton in Hx. lia.
  - pose proof (IH (Z.min e y) (Z.min e y) ltac:(left)) as Hmin.
    assert (x = e ∨ x = y ∨ x ∈ es) as [->|[->|Hin]]
      by (rewrite !elem_of_cons in Hx; tauto); [lia|lia|].
    apply IH. by right.
Qed.

Lemma kd_candidates_elem t p e :
  e ∈ kd_candidates t p ↔ e ∈ kd_elements t ∧ kd_pointInCell t e p = true.
Proof.
  unfold kd_candidates. rewrite !list_elem_of_In, filter_In. done.
Qed.

Lemma findPoint_hit t p e :
  e ∈ kd_elements t → kd_pointInCell t e p = true →
  findPoint t p ∈ kd_elements t ∧ kd_pointInCell t (findPoint t p) p = true ∧
  (findPoint t p ≤ e)%Z.
Proof.
  intros He Hp. assert (e ∈ kd_candidates t p) as Hc by by apply kd_candidates_elem.
  unfold findPoint. destruct (kd_candidates t p) as [|c cs] eqn:Hcs.
  { by apply elem_of_nil in Hc. }
  pose proof (foldl_min_elem c cs) as Hm. rewrite <- Hcs in Hm.
  apply kd_candidates_elem in Hm as [??].
  split_and!; [done|done|]. by apply foldl_min_le.
Qed.

Lemma findPoint_miss t p :
  (∀ e, e ∈ kd_elements t → kd_pointInCell t e p = false) →
  findPoint t p = kd_sentinel t.
Proof.
  intros Hmiss. unfold findPoint.
  destruct (kd_candidates t p) as [|c cs] eqn:Hcs; [done|].
  assert (c ∈ kd_candidates t p) as [Hc Hp]%kd_candidates_elem
    by (rewrite Hcs; left).
  rewrite (Hmiss c Hc) in Hp. done.
Qed.

(** The outcome of a loop over (buffer, output) does not depend on the
    buffer's initial content when no iteration does. *)
Lemma for_each_junk {A S T} (body : A → S * T → result (S * T)) l j1 j2 out :
  (∀ x j1 j2 o, body x (j1, o) = body x (j2, o)) →
  (for_each body l (j1, out) ≫= λ st, Ok st.2) =
  (for_each body l (j2, out) ≫= λ st, Ok st.2).
Proof.
  intros Hbody. destruct l as [|x l]; simpl; [done|].
  by rewrite (Hbody x j1 j2 out).
Qed.

Lemma bind_snd_ext {S T B} (r1 r2 : result (S * T)) (f : T → result B) :
  (r1 ≫= λ st, Ok st.2) = (r2 ≫= λ st, Ok st.2) →
  (r1 ≫= λ '(_, o), f o) = (r2 ≫= λ '(_, o), f o).
Proof. destruct r1 as [[??]|?], r2 as [[??]|?]; simpl; congruence. Qed.

Lemma getRendezvousProcs_junk this junk1 junk2 coords :
  getRendezvousProcs this junk1 coords = getRendezvousProcs this junk2 coords.
Proof.
  unfold getRendezvousProcs.
  destruct (size_div _ _) as [N|e]; simpl; [|done].
  apply (bind_snd_ext (for_range 0 N _ _) (for_range 0 N _ _)).
  apply for_each_junk. intros n j1 j2 o.
  by rewrite (load_point_junk _ _ _ _ j1 j2).
Qed.

Lemma padded_point_take d N coords n len :
  d * N ≤ len → n < N →
  padded_point d N (take len coords) n = padded_point d N coords n.
Proof.
  intros Hlen Hn. unfold padded_point, axis.
  repeat case_decide; try lia;
    rewrite ?lookup_take_lt by (apply (blocked_index d N); lia); done.
Qed.

Lemma blocked_point_take d N coords n len :
  d * N ≤ len → n < N →
  blocked_point d N (take len coords) n = blocked_point d N coords n.
Proof.
  intros Hlen Hn. unfold blocked_point. apply map_ext_in.
  intros k [_ Hk]%in_seq. unfold axis. case_decide; [|done].
  rewrite lookup_take_lt by (apply (blocked_index d N); lia). done.
Qed.

Example getRendezvousProcs_three_points :
  getRendezvousProcs Example.facade Example.junk Example.three_points
  = Ok [0; 0; 1]%Z.
Proof. reflexivity. Qed.

Example getElements_three_points :
  getElements Example.facade Example.three_points = Ok [10; 10; -1]%Z.
Proof. reflexivity. Qed.

Example getRendezvousProcs_ragged_points :
  getRendezvousProcs Example.facade Example.junk Example.ragged_points
  = Ok [0; 0; 1]%Z.
Proof. reflexivity. Qed.

(** ** The claims about the queries *)

(** C6.  For a blocked array of [N] points in [d] dimensions, [d] the node
    dimension of the built mesh, [getRendezvousProcs] returns exactly [N]
    ranks; entry [n] is RCB's destination for the point whose axis [k] is
    [coords[k*N + n]] for [k < d] and zero for the axes from [d] up to 3. *)
Theorem C6_getRendezvousProcs_blocked this rcb junk coords N :
  d_rcb this = Some rcb →
  1 ≤ d_node_dim this ≤ 3 →
  length coords = d_node_dim this * N →
  ∃ ranks,
    getRendezvousProcs this junk coords = Ok ranks ∧
    length ranks = N ∧
    ∀ n, n < N →
      ∃ p, ranks !! n = Some (getDestinationProc rcb p) ∧
           (∀ k, k < d_node_dim this →
                 coords !! (k * N + n) = Some (coordinate p k)) ∧
           (∀ k, d_node_dim this ≤ k < 3 → coordinate p k = zero).
Proof.
  intros Hrcb Hd Hlen.
  assert (length coords / d_node_dim this = N) as HN.
  { rewrite Hlen, Nat.mul_comm. apply Nat.div_mul. lia. }
  eexists. split; [by apply getRendezvousProcs_run|]. rewrite HN.
  split; [by rewrite length_map, length_seq|].
  intros n Hn. exists (padded_point (d_node_dim this) N coords n).
  split; [by apply routed_lookup|]. split.
  - intros k Hk.
    destruct (lookup_lt_is_Some_2 coords (k * N + n)) as [v Hv]; [nia|].
    rewrite Hv. f_equal. symmetry.
    destruct k as [|[|k]]; simpl; try (by apply axis_lt).
    assert (k = 0) as -> by lia. by apply axis_lt.
  - intros k Hk. destruct k as [|[|k]]; simpl; apply axis_ge; lia.
Qed.

Lemma C6_getRendezvousProcs_blocked_witness :
  ∃ ranks,
    getRendezvousProcs Example.facade Example.junk Example.three_points
      = Ok ranks ∧
    length ranks = 3 ∧
    ∀ n, n < 3 →
      ∃ p, ranks !! n = Some (getDestinationProc Example.rcb p) ∧
           (∀ k, k < 2 →
                 Example.three_points !! (k * 3 + n) = Some (coordinate p k)) ∧
           (∀ k, 2 ≤ k < 3 → coordinate p k = zero).
Proof.
  apply (C6_getRendezvousProcs_blocked Example.facade Example.rcb Example.junk
           Example.three_points 3); [reflexivity | simpl; lia | reflexivity].
Defined.

(** C7.  For a blocked array of [N] points, [getElements] returns normally
    with exactly [N] entries; entry [n] is [findPoint] of point [n]: the
    ordinal of an element that contains the point when one does, the reserved
    sentinel when none does. *)
Theorem C7_getElements_in_band this t coords N :
  d_kdtree this = Some t →
  1 ≤ d_node_dim this →
  length coords = d_node_dim this * N →
  ∃ ids,
    getElements this coords = Ok ids ∧
    length ids = N ∧
    ∀ n, n < N →
      ∃ p, length p = d_node_dim this ∧
           (∀ k, k < d_node_dim this → p !! k = coords !! (k * N + n)) ∧
           ids !! n = Some (findPoint t p) ∧
           (∀ e, e ∈ kd_elements t → kd_pointInCell t e p = true →
                 findPoint t p ∈ kd_elements t ∧
                 kd_pointInCell t (findPoint t p) p = true) ∧
           ((∀ e, e ∈ kd_elements t → kd_pointInCell t e p = false) →
            findPoint t p = kd_sentinel t).
Proof.
  intros Ht Hd Hlen.
  assert (length coords / d_node_dim this = N) as HN.
  { rewrite Hlen, Nat.mul_comm. apply Nat.div_mul. lia. }
  eexists. split; [by apply getElements_run|]. rewrite HN.
  split; [by rewrite length_map, length_seq|].
  intros n Hn. exists (blocked_point (d_node_dim this) N coords n).
  split; [apply length_blocked_point|]. split; [|split; [|split]].
  - intros k Hk. rewrite blocked_point_lookup by done.
    destruct (lookup_lt_is_Some_2 coords (k * N + n)) as [v Hv]; [nia|].
    rewrite Hv. f_equal. by apply axis_lt.
  - by apply located_lookup.
  - intros e He Hp. destruct (findPoint_hit t _ e He Hp) as (? & ? & _). done.
  - apply findPoint_miss.
Qed.

Lemma C7_getElements_in_band_witness :
  ∃ ids,
    getElements Example.facade Example.three_points = Ok ids ∧
    length ids = 3 ∧
    ∀ n, n < 3 →
      ∃ p, length p = 2 ∧
           (∀ k, k < 2 → p !! k = Example.three_points !! (k * 3 + n)) ∧
           ids !! n = Some (findPoint Example.kdtree p) ∧
           (∀ e, e ∈ kd_elements Example.kdtree →
                 kd_pointInCell Example.kdtree e p = true →
                 findPoint Example.kdtree p ∈ kd_elements Example.kdtree ∧
                 kd_pointInCell Example.kdtree (findPoint Example.kdtree p) p
                   = true) ∧
           ((∀ e, e ∈ kd_elements Example.kdtree →
                  kd_pointInCell Example.kdtree e p = false) →
            findPoint Example.kdtree p = kd_sentinel Example.kdtree).
Proof.
  apply (C7_getElements_in_band Example.facade Example.kdtree
           Example.three_points 3); [reflexivity | simpl; lia | reflexivity].
Defined.

(** Which errors the pieces can raise. *)
Lemma bind_Fail {A B} (m : result A) (f : A → result B) e :
  m ≫= f = Fail e ↔ m = Fail e ∨ ∃ a, m = Ok a ∧ f a = Fail e.
Proof.
  destruct m as [a|e']; simpl; split.
  - eauto.
  - intros [H|(a' & [= <-] & H)]; [discriminate|exact H].
  - intros [= ->]. by left.
  - intros [H|(a' & H & _)]; [congruence|discriminate].
Qed.

Lemma for_each_Fail {A S} (body : A → S → result S) l s e :
  for_each body l s = Fail e → ∃ x s', x ∈ l ∧ body x s' = Fail e.
Proof.
  revert s. induction l as [|x l IH]; intros s; simpl; [done|].
  intros [Hx|(s' & _ & Hl)]%bind_Fail.
  - exists x, s. split; [left|done].
  - destruct (IH _ Hl) as (y & s'' & ? & ?). exists y, s''. split; [by right|done].
Qed.

Lemma load_point_Fail d coords stride n junk e :
  load_point d coords stride n junk = Fail e → e = OutOfRange.
Proof. destruct d as [|[|[|[|d]]]]; load_point_cases; congruence. Qed.

Lemma getRendezvousProcs_no_division_error this junk coords :
  1 ≤ d_node_dim this →
  getRendezvousProcs this junk coords ≠ Fail DivideByZero.
Proof.
  intros Hd. unfold getRendezvousProcs. rewrite size_div_Ok by done.
  change (Ok ?N ≫= ?f) with (f N). cbv beta.
  intros [Hloop|([pt out] & _ & Hpost)]%bind_Fail.
  - apply for_each_Fail in Hloop as (n & [pt out] & _ & Hbody).
    apply bind_Fail in Hbody as [Hload|(pt' & _ & Hbody)].
    + by apply load_point_Fail in Hload.
    + by destruct (d_rcb this).
  - unfold testPostcondition in Hpost. by case_bool_decide.
Qed.

Lemma getElements_no_division_error this coords :
  1 ≤ d_node_dim this →
  getElements this coords ≠ Fail DivideByZero.
Proof.
  intros Hd. unfold getElements. cbv zeta. rewrite size_div_Ok by done.
  change (Ok ?N ≫= ?f) with (f N). cbv beta.
  intros [Hloop|([pt out] & _ & Hpost)]%bind_Fail.
  - apply for_each_Fail in Hloop as (n & [pt out] & _ & Hbody).
    apply bind_Fail in Hbody as [Hload|(pt' & _ & Hbody)].
    + apply for_each_Fail in Hload as (k & pt' & _ & Hstore).
      apply bind_Fail in Hstore as [Hget|(v & _ & Hset)].
      * unfold array_get in Hget. by destruct (_ !! _).
      * unfold array_set in Hset. by case_decide.
    + by destruct (d_kdtree this).
  - unfold testPostcondition in Hpost. by case_bool_decide.
Qed.

(** C9.  On a facade that was constructed but not built, [d_node_dim] is 0
    and both queries divide by it; once [build] has set [d_node_dim] to 1, 2
    or 3 the division is defined and neither query can take that branch. *)
Theorem C9_queries_divide_by_node_dim :
  (∀ box junk coords,
     d_node_dim (Rendezvous_new box) = 0 ∧
     getRendezvousProcs (Rendezvous_new box) junk coords = Fail DivideByZero ∧
     getElements (Rendezvous_new box) coords = Fail DivideByZero) ∧
  (∀ this junk coords,
     1 ≤ d_node_dim this ≤ 3 →
     size_div (length coords) (d_node_dim this)
       = Ok (length coords / d_node_dim this) ∧
     getRendezvousProcs this junk coords ≠ Fail DivideByZero ∧
     getElements this coords ≠ Fail DivideByZero).
Proof.
  split.
  - intros box junk coords. done.
  - intros this junk coords Hd. split_and!.
    + apply size_div_Ok. lia.
    + apply getRendezvousProcs_no_division_error. lia.
    + apply getElements_no_division_error. lia.
Qed.

Lemma C9_queries_divide_by_node_dim_witness :
  size_div (length Example.three_points) (d_node_dim Example.facade)
    = Ok (length Example.three_points / d_node_dim Example.facade) ∧
  getRendezvousProcs Example.facade Example.junk Example.three_points
    ≠ Fail DivideByZero ∧
  getElements Example.facade Example.three_points ≠ Fail DivideByZero.
Proof.
  apply (proj2 C9_queries_divide_by_node_dim Example.facade Example.junk
           Example.three_points).
  simpl. lia.
Defined.

(** C8.  The outcome of either query is determined by the coordinates, the
    node dimension and the tree it consults: two calls on the same built
    facade with the same input return the same array, whatever was in the
    local buffer when each call started. *)
Theorem C8_queries_repeatable this1 this2 junk1 junk2 coords :
  d_node_dim this1 = d_node_dim this2 →
  d_rcb this1 = d_rcb this2 →
  d_kdtree this1 = d_kdtree this2 →
  getRendezvousProcs this1 junk1 coords = getRendezvousProcs this2 junk2 coords ∧
  getElements this1 coords = getElements this2 coords.
Proof.
  intros Hd Hrcb Ht. split.
  - rewrite (getRendezvousProcs_junk this1 junk1 junk2).
    unfold getRendezvousProcs. by rewrite Hd, Hrcb.
  - unfold getElements. by rewrite Hd, Ht.
Qed.

Lemma C8_queries_repeatable_witness :
  getRendezvousProcs Example.facade Example.junk Example.three_points
    = getRendezvousProcs Example.facade (mkPoint3 zero zero zero)
        Example.three_points ∧
  getElements Example.facade Example.three_points
    = getElements Example.facade Example.three_points.
Proof.
  apply (C8_queries_repeatable Example.facade Example.facade Example.junk
           (mkPoint3 zero zero zero) Example.three_points);
    reflexivity.
Defined.

(** C10.  When the length of the input is not a multiple of the node
    dimension, both queries process [floor( size / d_node_dim )] points and
    return normally with that many entries.  The points are read with that
    floor as the stride: entry [n] of [getRendezvousProcs] is RCB's
    destination for the point whose axis [k] is [coords[k*floor + n]], padded
    with zero up to 3, and entry [n] of [getElements] is [findPoint] of the
    point with these [d_node_dim] axes.  Nothing from index
    [d_node_dim * floor] on is read, so any input with the same floor and the
    same leading values gives the same output. *)
Theorem C10_ragged_input_truncated this rcb t junk coords :
  d_rcb this = Some rcb →
  d_kdtree this = Some t →
  1 ≤ d_node_dim this ≤ 3 →
  length coords `mod` d_node_dim this ≠ 0 →
  ∃ ranks ids,
    getRendezvousProcs this junk coords = Ok ranks ∧
    getElements this coords = Ok ids ∧
    length ranks = length coords / d_node_dim this ∧
    length ids = length coords / d_node_dim this ∧
    (∀ n, n < length coords / d_node_dim this →
       ∃ p, ranks !! n = Some (getDestinationProc rcb p) ∧
            (∀ k, k < d_node_dim this →
                  k * (length coords / d_node_dim this) + n
                    < d_node_dim this * (length coords / d_node_dim this) ∧
                  coords !! (k * (length coords / d_node_dim this) + n)
                    = Some (coordinate p k)) ∧
            (∀ k, d_node_dim this ≤ k < 3 → coordinate p k = zero)) ∧
    (∀ n, n < length coords / d_node_dim this →
       ∃ p, ids !! n = Some (findPoint t p) ∧
            length p = d_node_dim this ∧
            (∀ k, k < d_node_dim this →
                  is_Some (p !! k) ∧
                  p !! k
                    = coords !! (k * (length coords / d_node_dim this) + n))) ∧
    ∀ coords',
      length coords' / d_node_dim this = length coords / d_node_dim this →
      take (d_node_dim this * (length coords / d_node_dim this)) coords'
        = take (d_node_dim this * (length coords / d_node_dim this)) coords →
      getRendezvousProcs this junk coords' = Ok ranks ∧
      getElements this coords' = Ok ids.
Proof.
  intros Hrcb Ht Hd _.
  set (d := d_node_dim this). set (N := length coords / d).
  pose proof (div_blocked (length coords) d ltac:(lia)) as HN. fold N in HN.
  assert (∀ n k, n < N → k < d → k * N + n < d * N) as Hin
    by (intros; apply (blocked_index d N); lia).
  do 2 eexists. split; [by apply getRendezvousProcs_run|].
  split; [by apply getElements_run; [lia|]|].
  fold d N. rewrite !length_map, !length_seq.
  split; [done|]. split; [done|]. split; [|split].
  - intros n Hn. exists (padded_point d N coords n).
    split; [by apply routed_lookup|]. split.
    + intros k Hk. split; [by apply Hin|].
      destruct (lookup_lt_is_Some_2 coords (k * N + n)) as [v Hv].
      { specialize (Hin n k Hn Hk). lia. }
      rewrite Hv. f_equal. symmetry.
      destruct k as [|[|k]]; simpl; try (by apply axis_lt).
      assert (k = 0) as -> by lia. by apply axis_lt.
    + intros k Hk. destruct k as [|[|k]]; simpl; apply axis_ge; lia.
  - intros n Hn. exists (blocked_point d N coords n).
    split; [by apply located_lookup|].
    split; [apply length_blocked_point|].
    intros k Hk. rewrite blocked_point_lookup by done.
    split; [by eexists|].
    destruct (lookup_lt_is_Some_2 coords (k * N + n)) as [v Hv].
    { specialize (Hin n k Hn Hk). lia. }
    rewrite Hv. f_equal. by apply axis_lt.
  - intros coords' HN' Htake.
    rewrite (getRendezvousProcs_run this junk coords' rcb) by done.
    rewrite (getElements_run this coords' t) by (done || lia).
    fold d. rewrite HN'.
    split; f_equal; apply map_ext_in; intros n [_ Hn]%in_seq.
    + unfold routed. f_equal.
      rewrite <- (padded_point_take d N coords' n (d * N)) by (done || lia).
      rewrite Htake. apply padded_point_take; done || lia.
    + unfold located. f_equal.
      rewrite <- (blocked_point_take d N coords' n (d * N)) by (done || lia).
      rewrite Htake. apply blocked_point_take; done || lia.
Qed.

Lemma C10_ragged_input_truncated_witness :
  ∃ ranks ids,
    getRendezvousProcs Example.facade Example.junk Example.ragged_points
      = Ok ranks ∧
    getElements Example.facade Example.ragged_points = Ok ids ∧
    length ranks = 3 ∧
    length ids = 3 ∧
    (∀ n, n < 3 →
       ∃ p, ranks !! n = Some (getDestinationProc Example.rcb p) ∧
            (∀ k, k < 2 →
                  k * 3 + n < 6 ∧
                  Example.ragged_points !! (k * 3 + n)
                    = Some (coordinate p k)) ∧
            (∀ k, 2 ≤ k < 3 → coordinate p k = zero)) ∧
    (∀ n, n < 3 →
       ∃ p, ids !! n = Some (findPoint Example.kdtree p) ∧
            length p = 2 ∧
            (∀ k, k < 2 →
                  is_Some (p !! k) ∧
                  p !! k = Example.ragged_points !! (k * 3 + n))) ∧
    ∀ coords',
      length coords' / 2 = 3 →
      take 6 coords' = take 6 Example.ragged_points →
      getRendezvousProcs Example.facade Example.junk coords' = Ok ranks ∧
      getElements Example.facade coords' = Ok ids.
Proof.
  apply (C10_ragged_input_truncated Example.facade Example.rcb Example.kdtree
           Example.junk Example.ragged_points);
    [reflexivity | reflexivity | simpl; lia | simpl; lia].
Defined.

(** ** The index maps *)

Lemma index_map_counter (ids : list Z) (indices : gmap Z nat) (m : nat) :
  (foldl (λ '(indices, m) id, (<[id := m]> indices, S m)) (indices, m) ids).2
  = m + length ids.
Proof.
  revert indices m. induction ids as [|id ids IH]; intros indices m; simpl.
  - lia.
  - rewrite IH. lia.
Qed.

Lemma index_map_snoc (ids : list Z) (id : Z) :
  index_map (ids ++ [id]) = <[id := length ids]> (index_map ids).
Proof.
  unfold index_map. rewrite foldl_app. simpl.
  pose proof (index_map_counter ids ∅ 0) as Hc.
  destruct (foldl _ _ ids) as [indices m]. simpl in *. by subst m.
Qed.

(** The map sends an ordinal to the slot of its last occurrence. *)
Lemma index_map_lookup (ids : list Z) (g : Z) (m : nat) :
  index_map ids !! g = Some m ↔
  ids !! m = Some g ∧ ∀ j, m < j → ids !! j ≠ Some g.
Proof.
  revert m. induction ids as [|id ids IH] using rev_ind; intros m.
  - unfold index_map. simpl. rewrite lookup_empty. split; [done|].
    intros [H _]. by rewrite lookup_nil in H.
  - rewrite index_map_snoc. destruct (decide (id = g)) as [->|Hne].
    + rewrite lookup_insert_eq. split.
      * intros [= <-]. split.
        -- rewrite lookup_app_r by lia. by rewrite Nat.sub_diag.
        -- intros j Hj. rewrite lookup_ge_None_2; [done|].
           rewrite length_app. simpl. lia.
      * intros [Hm Hlast]. f_equal.
        pose proof (lookup_lt_Some _ _ _ Hm) as Hlt.
        rewrite length_app in Hlt. simpl in Hlt.
        destruct (decide (m = length ids)) as [->|Hm']; [done|].
        exfalso. apply (Hlast (length ids)); [lia|].
        rewrite lookup_app_r by lia. by rewrite Nat.sub_diag.
    + rewrite lookup_insert_ne by done. rewrite IH. split.
      * intros [Hm Hlast]. split.
        -- by apply lookup_app_l_Some.
        -- intros j Hj Hjg. destruct (decide (j < length ids)) as [Hlt|Hge].
           ++ rewrite lookup_app_l in Hjg by done. by apply (Hlast j).
           ++ rewrite lookup_app_r in Hjg by lia.
              destruct (j - length ids) as [|[|?]]; simpl in Hjg; congruence.
      * intros [Hm Hlast].
        assert (m < length ids) as Hlt.
        { pose proof (lookup_lt_Some _ _ _ Hm) as Hlt.
          rewrite length_app in Hlt. simpl in Hlt.
          destruct (decide (m = length ids)) as [->|?]; [|lia].
          rewrite lookup_app_r in Hm by lia.
          rewrite Nat.sub_diag in Hm. simpl in Hm. congruence. }
        rewrite lookup_app_l in Hm by done. split; [done|].
        intros j Hj Hjg. apply (Hlast j Hj). by apply lookup_app_l_Some.
Qed.

Lemma index_map_slot (ids : list Z) g m :
  index_map ids !! g = Some m → ids !! m = Some g.
Proof. by intros [? _]%index_map_lookup. Qed.

Lemma index_map_elem (ids : list Z) g :
  g ∈ ids → ∃ m, index_map ids !! g = Some m ∧ m < length ids.
Proof.
  intros Hg.
  assert (is_Some (index_map ids !! g)) as [m Hm].
  { induction ids as [|id ids IH] using rev_ind.
    - by apply elem_of_nil in Hg.
    - rewrite index_map_snoc. destruct (decide (id = g)) as [->|Hne].
      + rewrite lookup_insert_eq. eauto.
      + rewrite lookup_insert_ne by done. apply IH.
        apply elem_of_app in Hg as [?|Hg]; [done|].
        apply list_elem_of_singleton in Hg. congruence. }
  exists m. split; [done|].
  apply index_map_slot in Hm. by apply lookup_lt_Some in Hm.
Qed.

Lemma index_map_NoDup (ids : list Z) g m :
  NoDup ids → ids !! m = Some g → index_map ids !! g = Some m.
Proof.
  intros Hnd Hm. apply index_map_lookup. split; [done|].
  intros j Hj Hjg. pose proof (NoDup_lookup _ _ _ _ Hnd Hm Hjg). lia.
Qed.

Lemma index_map_lookup_NoDup (ids : list Z) g m :
  NoDup ids → index_map ids !! g = Some m ↔ ids !! m = Some g.
Proof.
  intros Hnd. split; [apply index_map_slot|by apply index_map_NoDup].
Qed.

Lemma map_find_Ok indices g m : map_find indices g = Ok m ↔ indices !! g = Some m.
Proof. unfold map_find. destruct (indices !! g); split; congruence. Qed.

Lemma connected_node_index_Ok mesh i n m :
  connected_node_index mesh (index_map (nodes mesh)) i n = Ok m ↔
  element_node_index mesh n i m.
Proof.
  unfold connected_node_index, element_node_index, element_node.
  rewrite bind_Ok. setoid_rewrite array_get_Ok. setoid_rewrite map_find_Ok. done.
Qed.

Lemma element_node_index_lt mesh n i m :
  element_node_index mesh n i m → m < length (nodes mesh).
Proof.
  intros (g & _ & Hm). apply index_map_slot in Hm. by apply lookup_lt_Some in Hm.
Qed.

Lemma well_formed_node_index this mesh n i :
  well_formed this mesh →
  n < length (elements mesh) → i < nodesPerElement mesh →
  ∃ m, element_node_index mesh n i m.
Proof.
  intros Hwf Hn Hi. destruct (wf_connectivity _ _ Hwf n i Hn Hi) as (g & Hg & Hin).
  destruct (index_map_elem _ _ Hin) as (m & Hm & _).
  exists m, g. done.
Qed.

(** ** [getMeshInBox] *)

(** A loop that pushes one value per iteration. *)
Lemma for_range_push {A} N (F : nat → result A) (out : list A) :
  for_range 0 N (λ n out, x ← F n; Ok (out ++ [x])) [] = Ok out →
  length out = N ∧ ∀ n, n < N → ∃ x, out !! n = Some x ∧ F n = Ok x.
Proof.
  apply (for_range_partial
           (λ k (o : list A),
              length o = k ∧ ∀ n, n < k → ∃ x, o !! n = Some x ∧ F n = Ok x));
    [lia|split; [done|intros; lia]|].
  intros n o o' Hn [Hlen Ho] (x & Hx & [= <-])%bind_Ok.
  split; [rewrite length_app; simpl; lia|].
  intros n' Hn'. destruct (decide (n' = n)) as [->|Hne].
  - exists x. split; [|done]. rewrite lookup_app_r by lia.
    by replace (n - length o) with 0 by lia.
  - destruct (Ho n') as (y & Hy & HF); [lia|].
    exists y. split; [|done]. by apply lookup_app_l_Some.
Qed.

Lemma for_range_push_total {A} N (F : nat → result A) :
  (∀ n, n < N → is_Ok (F n)) →
  is_Ok (for_range 0 N (λ n out, x ← F n; Ok (out ++ [x])) []).
Proof.
  intros HF.
  destruct (for_range_total (λ _ (_ : list A), True) 0 N
              (λ n out, x ← F n; Ok (out ++ [x])) []) as (o & Ho & _);
    [lia|done| |by exists o].
  intros n o Hn _. destruct (HF n) as [x Hx]; [lia|].
  exists (o ++ [x]). by rewrite Hx.
Qed.

Lemma in_box_flags_lookup this mesh box m :
  m < length (nodes mesh) →
  in_box_flags this mesh box !! m
  = Some (Z.b2z (pointInBox box (node_point this mesh m))).
Proof.
  intros Hm. unfold in_box_flags.
  rewrite list_lookup_fmap, lookup_seq_lt by done. done.
Qed.

Lemma nodesInBox_Ok this mesh box junk nodes_in_box :
  nodesInBox this mesh box junk = Ok nodes_in_box →
  nodes_in_box = in_box_flags this mesh box.
Proof.
  unfold nodesInBox. cbv zeta. intros ([pt nib] & Hloop & [= <-])%bind_Ok.
  revert Hloop.
  apply (for_range_partial
           (λ k (st : Point3 * list Z),
              st.2 = map (λ m, Z.b2z (pointInBox box (node_point this mesh m)))
                       (seq 0 k))); [lia|done|].
  intros n [pt0 o] [pt1 o'] Hn Ho (p & Hp & [= <- <-])%bind_Ok.
  cbn [snd] in *. apply load_point_Ok in Hp as ->.
  rewrite seq_S, map_app, Ho. done.
Qed.

Lemma nodesInBox_total this mesh box junk :
  well_formed this mesh → is_Ok (nodesInBox this mesh box junk).
Proof.
  intros Hwf. unfold nodesInBox. cbv zeta.
  match goal with |- context [for_range 0 ?N ?b ?s] =>
    destruct (for_range_total (λ _ (_ : Point3 * list Z), True) 0 N b s)
      as ([pt o] & -> & _)
  end; [lia|done| |by eexists].
  intros n [pt o] Hn _.
  rewrite load_point_total.
  - by eexists.
  - apply Hwf.
  - intros k Hk. apply (blocked_index (d_node_dim this)); [apply Hwf|done|lia].
Qed.

Lemma element_flag_Ok mesh (nodes_in_box : list Z) n flag :
  for_range 0 (nodesPerElement mesh)
    (λ i this_element_in_box,
       node_index ← connected_node_index mesh (index_map (nodes mesh)) i n;
       flag ← array_get nodes_in_box node_index;
       Ok (if decide (flag ≠ 0%Z) then 1%Z else this_element_in_box))
    0%Z = Ok flag →
  (flag = 0 ∨ flag = 1)%Z ∧
  (flag ≠ 0%Z ↔
   ∃ i m f, i < nodesPerElement mesh ∧ element_node_index mesh n i m ∧
            nodes_in_box !! m = Some f ∧ f ≠ 0%Z).
Proof.
  apply (for_range_partial
           (λ k (fl : Z),
              (fl = 0 ∨ fl = 1)%Z ∧
              (fl ≠ 0%Z ↔
               ∃ i m f, i < k ∧ element_node_index mesh n i m ∧
                        nodes_in_box !! m = Some f ∧ f ≠ 0%Z))); [lia| |].
  { split; [by left|]. split; [done|]. intros (i & _ & _ & Hi & _). lia. }
  intros k fl fl' Hk [H01 Hfl] (m & Hm & (f & Hf & [= <-])%bind_Ok)%bind_Ok.
  apply connected_node_index_Ok in Hm. apply array_get_Ok in Hf.
  case_decide as Hnz.
  - split; [by right|]. split; [|done]. intros _. exists k, m, f. auto.
  - split; [done|]. rewrite Hfl. split.
    + intros (i & m' & f' & Hi & ?). exists i, m', f'. split; [lia|done].
    + intros (i & m' & f' & Hi & Hm' & Hf' & Hnz').
      destruct (decide (i = k)) as [->|Hne].
      * destruct Hm as (g & Hg & Hgm), Hm' as (g' & Hg' & Hgm'). congruence.
      * exists i, m', f'. split; [lia|done].
Qed.

Lemma elementsInBox_Ok mesh nodes_in_box elements_in_box :
  elementsInBox mesh nodes_in_box = Ok elements_in_box →
  length elements_in_box = length (elements mesh) ∧
  ∀ n, n < length (elements mesh) →
    ∃ flag, elements_in_box !! n = Some flag ∧
            (flag = 0 ∨ flag = 1)%Z ∧
            (flag ≠ 0%Z ↔
             ∃ i m f, i < nodesPerElement mesh ∧ element_node_index mesh n i m ∧
                      nodes_in_box !! m = Some f ∧ f ≠ 0%Z).
Proof.
  unfold elementsInBox. cbv zeta. intros [Hlen Hflags]%for_range_push.
  split; [done|]. intros n Hn. destruct (Hflags n Hn) as (flag & Hflag & Hloop).
  exists flag. split; [done|]. by apply element_flag_Ok.
Qed.

Lemma elementsInBox_total this mesh nodes_in_box :
  well_formed this mesh → length nodes_in_box = length (nodes mesh) →
  is_Ok (elementsInBox mesh nodes_in_box).
Proof.
  intros Hwf Hlen. unfold elementsInBox. cbv zeta.
  apply for_range_push_total. intros n Hn.
  match goal with |- is_Ok (for_range 0 ?N ?b ?s) =>
    destruct (for_range_total (λ _ (_ : Z), True) 0 N b s) as (fl & Hfl & _)
  end; [lia|done| |by exists fl].
  intros i fl Hi _.
  destruct (well_formed_node_index this mesh n i Hwf) as [m Hm]; [done|lia|].
  pose proof (element_node_index_lt _ _ _ _ Hm) as Hlt.
  apply connected_node_index_Ok in Hm. rewrite Hm. simpl.
  destruct (array_get_lt nodes_in_box m) as (f & _ & ->); [lia|].
  by eexists.
Qed.

Lemma mark_element_Ok mesh n (nodes_in_box nodes_in_box' : list Z) :
  for_range 0 (nodesPerElement mesh)
    (λ i nodes_in_box,
       node_index ← connected_node_index mesh (index_map (nodes mesh)) i n;
       array_set nodes_in_box node_index 1%Z)
    nodes_in_box = Ok nodes_in_box' →
  length nodes_in_box' = length nodes_in_box ∧
  (∀ m, nodes_in_box !! m = Some 1%Z → nodes_in_box' !! m = Some 1%Z) ∧
  (∀ i, i < nodesPerElement mesh →
        ∃ m, element_node_index mesh n i m ∧ nodes_in_box' !! m = Some 1%Z).
Proof.
  apply (for_range_partial
           (λ k (nib : list Z),
              length nib = length nodes_in_box ∧
              (∀ m, nodes_in_box !! m = Some 1%Z → nib !! m = Some 1%Z) ∧
              (∀ i, i < k →
                    ∃ m, element_node_index mesh n i m ∧ nib !! m = Some 1%Z)));
    [lia| |].
  { split_and!; [done|done|intros; lia]. }
  intros k nib nib' Hk (Hlen & Hkeep & Hrow)
    (m & Hm%connected_node_index_Ok & [Hlt ->]%array_set_Ok)%bind_Ok.
  assert (∀ m', nib !! m' = Some 1%Z → <[m := 1%Z]> nib !! m' = Some 1%Z) as Hins.
  { intros m' Hm'. destruct (decide (m' = m)) as [->|Hne].
    - by rewrite list_lookup_insert_eq.
    - by rewrite list_lookup_insert_ne. }
  split_and!.
  - by rewrite length_insert.
  - auto.
  - intros i Hi. destruct (decide (i = k)) as [->|Hne].
    + exists m. split; [done|]. by rewrite list_lookup_insert_eq.
    + destruct (Hrow i) as (m' & ? & ?); [lia|]. exists m'. auto.
Qed.

Lemma expandNodesInBox_Ok mesh elements_in_box (nodes_in_box nodes_in_box' : list Z) :
  expandNodesInBox mesh elements_in_box nodes_in_box = Ok nodes_in_box' →
  length nodes_in_box' = length nodes_in_box ∧
  ∀ n flag i,
    n < length (elements mesh) → elements_in_box !! n = Some flag →
    flag ≠ 0%Z → i < nodesPerElement mesh →
    ∃ m, element_node_index mesh n i m ∧ nodes_in_box' !! m = Some 1%Z.
Proof.
  unfold expandNodesInBox. cbv zeta.
  apply (for_range_partial
           (λ k (nib : list Z),
              length nib = length nodes_in_box ∧
              ∀ n flag i,
                n < k → elements_in_box !! n = Some flag →
                flag ≠ 0%Z → i < nodesPerElement mesh →
                ∃ m, element_node_index mesh n i m ∧ nib !! m = Some 1%Z));
    [lia| |].
  { split; [done|intros; lia]. }
  intros k nib nib' Hk [Hlen Hdone] (flag & Hflag%array_get_Ok & Hbody)%bind_Ok.
  case_decide as Hnz.
  - apply mark_element_Ok in Hbody as (Hlen' & Hkeep & Hrow).
    split; [congruence|]. intros n fl i Hn Hfl Hfnz Hi.
    destruct (decide (n = k)) as [->|Hne]; [by apply Hrow|].
    destruct (Hdone n fl i) as (m & ? & ?); [lia|done..|]. exists m. auto.
  - injection Hbody as <-. split; [done|]. intros n fl i Hn Hfl Hfnz Hi.
    destruct (decide (n = k)) as [->|Hne]; [congruence|].
    apply (Hdone n fl i); [lia|done..].
Qed.

Lemma expandNodesInBox_total this mesh elements_in_box (nodes_in_box : list Z) :
  well_formed this mesh →
  length nodes_in_box = length (nodes mesh) →
  length elements_in_box = length (elements mesh) →
  is_Ok (expandNodesInBox mesh elements_in_box nodes_in_box).
Proof.
  intros Hwf Hnib Heib. unfold expandNodesInBox. cbv zeta.
  match goal with |- is_Ok (for_range 0 ?N ?b ?s) =>
    destruct (for_range_total
                (λ _ (nib : list Z), length nib = length (nodes mesh)) 0 N b s)
      as (nib & Hrun & _)
  end; [lia|done| |by exists nib].
  intros n nib Hn Hlen.
  destruct (array_get_lt elements_in_box n) as (flag & _ & ->); [lia|]. simpl.
  case_decide; [|by eexists].
  apply (for_range_total (λ _ (nib : list Z), length nib = length (nodes mesh)));
    [lia|done|].
  intros i nib0 Hi Hlen0.
  destruct (well_formed_node_index this mesh n i Hwf) as [m Hm]; [lia|lia|].
  pose proof (element_node_index_lt _ _ _ _ Hm) as Hlt.
  apply connected_node_index_Ok in Hm. rewrite Hm. simpl.
  unfold array_set. rewrite decide_True by lia.
  eexists. split; [done|]. by rewrite length_insert.
Qed.

Lemma getMeshInBox_Ok this mesh box junk nodes_in_box elements_in_box :
  getMeshInBox this mesh box junk = Ok (nodes_in_box, elements_in_box) →
  elementsInBox mesh (in_box_flags this mesh box) = Ok elements_in_box ∧
  expandNodesInBox mesh elements_in_box (in_box_flags this mesh box)
    = Ok nodes_in_box.
Proof.
  unfold getMeshInBox.
  intros (nib & ->%nodesInBox_Ok & (eib & Heib & (nib' & Hnib & [= <- <-])
            %bind_Ok)%bind_Ok)%bind_Ok.
  done.
Qed.

Lemma length_in_box_flags this mesh box :
  length (in_box_flags this mesh box) = length (nodes mesh).
Proof. unfold in_box_flags. by rewrite length_map, length_seq. Qed.

Lemma getMeshInBox_total this mesh box junk :
  well_formed this mesh → is_Ok (getMeshInBox this mesh box junk).
Proof.
  intros Hwf. unfold getMeshInBox.
  destruct (nodesInBox_total this mesh box junk Hwf) as [nib Hnib].
  rewrite Hnib. simpl. apply nodesInBox_Ok in Hnib as ->.
  destruct (elementsInBox_total this mesh (in_box_flags this mesh box) Hwf)
    as [eib Heib]; [apply length_in_box_flags|].
  rewrite Heib. simpl. apply elementsInBox_Ok in Heib as Hlen. destruct Hlen as [Hlen _].
  destruct (expandNodesInBox_total this mesh eib (in_box_flags this mesh box) Hwf)
    as [nib' Hnib']; [apply length_in_box_flags|done|].
  rewrite Hnib'. by eexists.
Qed.

(** An element flag is set exactly when a connectivity node is in the box. *)
Lemma in_box_flags_nonzero this mesh box n :
  (∃ i m f, i < nodesPerElement mesh ∧ element_node_index mesh n i m ∧
            in_box_flags this mesh box !! m = Some f ∧ f ≠ 0%Z) ↔
  (∃ i m, i < nodesPerElement mesh ∧ element_node_index mesh n i m ∧
          pointInBox box (node_point this mesh m) = true).
Proof.
  split.
  - intros (i & m & f & Hi & Hm & Hf & Hnz). exists i, m. split_and!; [done..|].
    rewrite in_box_flags_lookup in Hf by by eapply element_node_index_lt.
    injection Hf as <-. by destruct (pointInBox _ _).
  - intros (i & m & Hi & Hm & Hbox). exists i, m, 1%Z. split_and!; [done..| |done].
    rewrite in_box_flags_lookup by by eapply element_node_index_lt.
    by rewrite Hbox.
Qed.

(** C4.  [getMeshInBox] returns on every well-formed mesh; in what it
    returns, the flag of an element is set if and only if one of its
    connectivity nodes is geometrically inside the box, and every node of
    every flagged element has its flag set to 1, whatever its own
    coordinates. *)
Theorem C4_getMeshInBox_flags this mesh box junk :
  (well_formed this mesh → is_Ok (getMeshInBox this mesh box junk)) ∧
  ∀ nodes_in_box elements_in_box,
    getMeshInBox this mesh box junk = Ok (nodes_in_box, elements_in_box) →
    length elements_in_box = length (elements mesh) ∧
    (∀ n, n < length (elements mesh) →
       ∃ flag, elements_in_box !! n = Some flag ∧
               (flag ≠ 0%Z ↔
                ∃ i m, i < nodesPerElement mesh ∧
                       element_node_index mesh n i m ∧
                       pointInBox box (node_point this mesh m) = true)) ∧
    (∀ n flag i,
       n < length (elements mesh) → elements_in_box !! n = Some flag →
       flag ≠ 0%Z → i < nodesPerElement mesh →
       ∃ m, element_node_index mesh n i m ∧ nodes_in_box !! m = Some 1%Z).
Proof.
  split; [apply getMeshInBox_total|].
  intros nib eib [Heib Hnib]%getMeshInBox_Ok.
  apply elementsInBox_Ok in Heib as [Hlen Hflags].
  apply expandNodesInBox_Ok in Hnib as [_ Hactive].
  split_and!; [done| |done].
  intros n Hn. destruct (Hflags n Hn) as (flag & Hflag & _ & Hiff).
  exists flag. split; [done|]. by rewrite Hiff, in_box_flags_nonzero.
Qed.

Example getMeshInBox_example :
  getMeshInBox Example.facade Example.mesh Example.box Example.junk
  = Ok ([1; 1; 1; 0]%Z, [1; 1; 0]%Z).
Proof. reflexivity. Qed.

Lemma well_formed_example : well_formed Example.facade Example.mesh.
Proof.
  split; [simpl; lia..|].
  intros n i Hn Hi. simpl in Hn, Hi.
  destruct n as [|[|[|n]]]; [..|lia]; (destruct i as [|[|i]]; [..|lia]);
    (eexists; split; [reflexivity|]); apply list_elem_of_In; simpl; tauto.
Qed.

Lemma C4_getMeshInBox_flags_witness :
  is_Ok (getMeshInBox Example.facade Example.mesh Example.box Example.junk) ∧
  length [1; 1; 0]%Z = length (elements Example.mesh) ∧
  (∀ n, n < length (elements Example.mesh) →
     ∃ flag, [1; 1; 0]%Z !! n = Some flag ∧
             (flag ≠ 0%Z ↔
              ∃ i m, i < nodesPerElement Example.mesh ∧
                     element_node_index Example.mesh n i m ∧
                     pointInBox Example.box
                       (node_point Example.facade Example.mesh m) = true)) ∧
  (∀ n flag i,
     n < length (elements Example.mesh) → [1; 1; 0]%Z !! n = Some flag →
     flag ≠ 0%Z → i < nodesPerElement Example.mesh →
     ∃ m, element_node_index Example.mesh n i m ∧
          [1; 1; 1; 0]%Z !! m = Some 1%Z).
Proof.
  split.
  - apply (proj1 (C4_getMeshInBox_flags Example.facade Example.mesh Example.box
                    Example.junk)).
    exact well_formed_example.
  - apply (proj2 (C4_getMeshInBox_flags Example.facade Example.mesh Example.box
                    Example.junk) [1; 1; 1; 0]%Z [1; 1; 0]%Z).
    reflexivity.
Defined.

(** ** [std::set] *)

Lemma elem_of_set_insert x y s : y ∈ set_insert x s ↔ y = x ∨ y ∈ s.
Proof.
  induction s as [|z s IH]; simpl.
  - rewrite list_elem_of_singleton, elem_of_nil. tauto.
  - repeat case_decide; rewrite ?elem_of_cons, ?IH; subst; tauto.
Qed.

Lemma set_insert_ascending x s : ascending s → ascending (set_insert x s).
Proof.
  unfold ascending. induction 1 as [|z s Hs IH Hz]; simpl.
  - repeat constructor.
  - repeat case_decide.
    + constructor; [by constructor|]. constructor; [done|].
      eapply Forall_impl; [exact Hz|]. intros; simpl in *; lia.
    + by constructor.
    + constructor; [done|]. apply Forall_forall.
      intros y [->|Hy]%elem_of_set_insert; [lia|].
      by eapply Forall_forall in Hz.
Qed.

Lemma length_set_insert x s : length (set_insert x s) ≤ S (length s).
Proof. induction s as [|z s IH]; simpl; repeat case_decide; simpl; lia. Qed.

Lemma ascending_nil : ascending [].
Proof. constructor. Qed.

Lemma ascending_NoDup s : ascending s → NoDup s.
Proof.
  unfold ascending. induction 1 as [|z s Hs IH Hz]; constructor; [|done].
  intros Hin. eapply Forall_forall in Hz; [|exact Hin]. lia.
Qed.

Lemma unique_list_from (import s : list Z) :
  ascending s →
  ascending (foldl (λ rendezvous_set id, set_insert id rendezvous_set) s import) ∧
  ∀ x, x ∈ foldl (λ rendezvous_set id, set_insert id rendezvous_set) s import
       ↔ x ∈ import ∨ x ∈ s.
Proof.
  revert s. induction import as [|id import IH]; intros s Hs; simpl.
  - split; [done|]. intros x. rewrite elem_of_nil. tauto.
  - destruct (IH (set_insert id s)) as [Hasc Hmem]; [by apply set_insert_ascending|].
    split; [done|]. intros x.
    rewrite Hmem, elem_of_set_insert, elem_of_cons. tauto.
Qed.

Lemma unique_list_ascending import : ascending (unique_list import).
Proof. apply unique_list_from, ascending_nil. Qed.

Lemma elem_of_unique_list import x : x ∈ unique_list import ↔ x ∈ import.
Proof.
  unfold unique_list. destruct (unique_list_from import [] ascending_nil) as [_ ->].
  rewrite elem_of_nil. tauto.
Qed.

Lemma array_modify_Ok {A} (a a' : list A) i f :
  array_modify a i f = Ok a' ↔ ∃ x, a !! i = Some x ∧ a' = <[i := f x]> a.
Proof.
  unfold array_modify. rewrite bind_Ok. setoid_rewrite array_get_Ok.
  setoid_rewrite array_set_Ok. split.
  - intros (x & Hx & _ & ->). eauto.
  - intros (x & Hx & ->). exists x. split_and!; [done| |done].
    by eapply lookup_lt_Some.
Qed.

(** ** Phase 2: element destinations *)

Lemma elementDestinations_Ok this rcb mesh elements_in_box junk sets :
  d_rcb this = Some rcb →
  elementDestinations this mesh elements_in_box junk = Ok sets →
  length sets = length (elements mesh) ∧
  ∀ n, n < length (elements mesh) →
    ∃ flag s,
      elements_in_box !! n = Some flag ∧ sets !! n = Some s ∧
      ascending s ∧ length s ≤ nodesPerElement mesh ∧
      ∀ r, r ∈ s ↔ flag ≠ 0%Z ∧ element_routes this rcb mesh n r.
Proof.
  intros Hrcb. unfold elementDestinations. cbv zeta.
  intros ([pt sets'] & Hloop & [= <-])%bind_Ok. revert Hloop.
  set (E := length (elements mesh)).
  set (row_ok := λ (n : nat) (s : list Z),
         ∃ flag, elements_in_box !! n = Some flag ∧
                 ascending s ∧ length s ≤ nodesPerElement mesh ∧
                 ∀ r, r ∈ s ↔ flag ≠ 0%Z ∧ element_routes this rcb mesh n r).
  intros Hloop.
  assert (length sets' = E ∧
          ∀ n, n < E → ∃ s, sets' !! n = Some s ∧ (E ≤ n → s = []) ∧
                            (n < E → row_ok n s)) as [Hlen Hrows].
  { revert Hloop.
    apply (for_range_partial
             (λ k (st : Point3 * list (list Z)),
                length st.2 = E ∧
                ∀ n, n < E → ∃ s, st.2 !! n = Some s ∧ (k ≤ n → s = []) ∧
                                  (n < k → row_ok n s))); [lia| |].
    { cbn [snd]. split; [apply length_replicate|]. intros n Hn. exists [].
      split_and!; [by apply lookup_replicate_2|done|lia]. }
    intros k st st' Hk [Hlen Hrows] (flag & Hflag%array_get_Ok & Hbody)%bind_Ok.
    destruct (Hrows k) as (s0 & Hs0 & Hnil & _); [lia|].
    specialize (Hnil ltac:(lia)) as ->.
    case_decide as Hnz.
    - (* the element is in the box: route each of its nodes *)
      revert Hbody.
      pose (Iin := λ (j : nat) (stj : Point3 * list (list Z)),
              length stj.2 = E ∧
              (∀ n', n' ≠ k → stj.2 !! n' = st.2 !! n') ∧
              ∃ s, stj.2 !! k = Some s ∧ ascending s ∧ length s ≤ j ∧
                   ∀ r, r ∈ s ↔
                        ∃ i m, i < j ∧ element_node_index mesh k i m ∧
                               getDestinationProc rcb (node_point this mesh m) = r).
      intros Hbody.
      assert (Iin (nodesPerElement mesh) st') as (Hlen' & Hsame & s & Hs & Hasc & Hle & Hmem).
      { revert Hbody. apply (for_range_partial Iin); [lia| |].
        { split_and!; [done|done|]. exists []. split_and!; [done|constructor|simpl; lia|].
          intros r. rewrite elem_of_nil. split; [done|]. intros (i & _ & ? & _). lia. }
        intros j [ptj setsj] stj' Hj (Hlenj & Hsamej & s & Hs & Hasc & Hle & Hmem).
        cbn [snd] in *.
        intros (m & Hm%connected_node_index_Ok &
                (p & ->%load_point_Ok & Hrest)%bind_Ok)%bind_Ok.
        rewrite Hrcb in Hrest. simpl in Hrest.
        apply bind_Ok in Hrest as (setsj' & Hmod & [= <-]).
        apply array_modify_Ok in Hmod as (s' & Hs' & ->).
        assert (s' = s) as -> by congruence.
        unfold Iin. cbn [snd]. split_and!.
        - by rewrite length_insert.
        - intros n' Hn'. rewrite list_lookup_insert_ne by done. by apply Hsamej.
        - eexists. split_and!.
          + apply list_lookup_insert_eq. by eapply lookup_lt_Some.
          + by apply set_insert_ascending.
          + pose proof (length_set_insert
                          (getDestinationProc rcb
                             (padded_point (d_node_dim this) (length (nodes mesh))
                                (coords mesh) m)) s). lia.
          + intros r. rewrite elem_of_set_insert, Hmem. split.
            * intros [->|(i & m' & Hi & ?)].
              -- exists j, m. split_and!; [lia|done|done].
              -- exists i, m'. split; [lia|done].
            * intros (i & m' & Hi & Hm' & <-).
              destruct (decide (i = j)) as [->|Hne].
              -- left. destruct Hm as (g & Hg & Hgm), Hm' as (g' & Hg' & Hgm').
                 assert (m' = m) as -> by congruence. done.
              -- right. exists i, m'. split_and!; [lia|done|done]. }
      split; [done|]. intros n Hn. destruct (decide (n = k)) as [->|Hne].
      + exists s. split_and!; [done|intros; lia|]. intros _.
        exists flag. split_and!; [done|done|done|].
        intros r. rewrite Hmem. unfold element_routes.
        split; [intros Hr; by split|by intros [_ Hr]].
      + destruct (Hrows n Hn) as (sn & Hsn & Hnil & Hok).
        exists sn. rewrite Hsame by done.
        split_and!; [done|intros; apply Hnil; lia|intros; apply Hok; lia].
    - (* the element is not in the box *)
      injection Hbody as <-. split; [done|]. intros n Hn.
      destruct (decide (n = k)) as [->|Hne].
      + exists []. split_and!; [done|done|]. intros _.
        exists flag. split_and!; [done|constructor|simpl; lia|].
        intros r. rewrite elem_of_nil. split; [done|]. by intros [? _].
      + destruct (Hrows n Hn) as (sn & Hsn & Hnil & Hok).
        exists sn. split_and!; [done|intros; apply Hnil; lia|intros; apply Hok; lia]. }
  split; [done|]. intros n Hn.
  destruct (Hrows n Hn) as (s & Hs & _ & Hok).
  destruct (Hok Hn) as (flag & Hflag & Hasc & Hle & Hmem).
  exists flag, s. done.
Qed.

(** ** Unrolling a vector of sets *)

Lemma elem_of_zip_replicate (id : Z) (s : list Z) e r :
  (e, r) ∈ zip (replicate (length s) id) s ↔ e = id ∧ r ∈ s.
Proof.
  induction s as [|x s IH]; simpl.
  - rewrite !elem_of_nil. tauto.
  - rewrite !elem_of_cons, IH. split.
    + intros [[= -> ->]|[-> ?]]; auto.
    + intros [-> [->|?]]; auto.
Qed.

Lemma unroll_Ok ids sets export_ids export_procs :
  unroll ids sets = Ok (export_ids, export_procs) →
  length export_ids = length export_procs ∧
  ∀ e r, (e, r) ∈ zip export_ids export_procs ↔
         ∃ n s, ids !! n = Some e ∧ sets !! n = Some s ∧ r ∈ s.
Proof.
  revert ids export_ids export_procs.
  induction sets as [|s sets IH]; intros ids ee ep; simpl.
  - intros Heq. simplify_eq. split; [done|]. intros e r. simpl.
    rewrite elem_of_nil.
    split; [done|]. intros (n & s & _ & Hs & _). by rewrite lookup_nil in Hs.
  - destruct ids as [|id ids]; [done|].
    intros ([ee' ep'] & Hrec & Heq)%bind_Ok. simplify_eq.
    destruct (IH _ _ _ Hrec) as [Hlen Hmem].
    split; [rewrite !length_app, length_replicate; lia|].
    intros e r. rewrite zip_with_app by apply length_replicate.
    rewrite elem_of_app, elem_of_zip_replicate, Hmem. split.
    + intros [[-> Hr]|(n & s' & ? & ? & ?)].
      * by exists 0, s.
      * by exists (S n), s'.
    + intros ([|n] & s' & Hid & Hs' & Hr); simpl in *.
      * left. by simplify_eq.
      * right. by exists n, s'.
Qed.

Lemma unroll_total ids sets :
  length sets ≤ length ids → is_Ok (unroll ids sets).
Proof.
  revert ids. induction sets as [|s sets IH]; intros ids Hlen; simpl.
  - by eexists.
  - destruct ids as [|id ids]; simpl in *; [lia|].
    destruct (IH ids) as [[ee ep] ->]; [lia|]. by eexists.
Qed.

(** ** Phase 4: node destinations *)

Lemma rows_extend_refl (Q : nat → Z → Prop) sets :
  (∀ m r, ¬ Q m r) → rows_extend Q sets sets.
Proof.
  intros HQ. split; [done|]. intros m s Hs. exists s.
  split_and!; [done|done|]. intros r. specialize (HQ m r). tauto.
Qed.

Lemma rows_extend_step (Q1 Q2 Q : nat → Z → Prop) a b c :
  rows_extend Q1 a b → rows_extend Q2 b c →
  (∀ m r, Q m r ↔ Q1 m r ∨ Q2 m r) →
  rows_extend Q a c.
Proof.
  intros [Hl1 H1] [Hl2 H2] HQ. split; [congruence|]. intros m s Hs.
  destruct (H1 m s Hs) as (s1 & Hs1 & Ha1 & Hm1).
  destruct (H2 m s1 Hs1) as (s2 & Hs2 & Ha2 & Hm2).
  exists s2. split_and!; [done|auto|].
  intros r. rewrite Hm2, Hm1, HQ. tauto.
Qed.

Lemma rows_extend_modify sets sets' m p :
  array_modify sets m (set_insert p) = Ok sets' →
  rows_extend (λ m' r, m' = m ∧ r = p) sets sets'.
Proof.
  intros (s & Hs & ->)%array_modify_Ok. split; [by rewrite length_insert|].
  intros m' s' Hs'. destruct (decide (m' = m)) as [->|Hne].
  - assert (s' = s) as -> by congruence. exists (set_insert p s).
    split_and!.
    + apply list_lookup_insert_eq. by eapply lookup_lt_Some.
    + apply set_insert_ascending.
    + intros r. rewrite elem_of_set_insert. tauto.
  - exists s'. rewrite list_lookup_insert_ne by done.
    split_and!; [done|done|]. intros r. tauto.
Qed.

Lemma node_row_Ok mesh n p sets sets' :
  for_range 0 (nodesPerElement mesh)
    (λ i export_node_procs_set,
       node_index ← connected_node_index mesh (index_map (nodes mesh)) i n;
       array_modify export_node_procs_set node_index (set_insert p))
    sets = Ok sets' →
  rows_extend
    (λ m r, r = p ∧ ∃ i, i < nodesPerElement mesh ∧ element_node_index mesh n i m)
    sets sets'.
Proof.
  apply (for_range_partial
           (λ j setsj,
              rows_extend
                (λ m r, r = p ∧ ∃ i, i < j ∧ element_node_index mesh n i m)
                sets setsj)); [lia| |].
  { apply rows_extend_refl. intros m r (_ & i & Hi & _). lia. }
  intros j setsj setsj' Hj Hext
    (m & Hm%connected_node_index_Ok & Hmod%rows_extend_modify)%bind_Ok.
  eapply rows_extend_step; [exact Hext|exact Hmod|].
  intros m' r. split.
  - intros (-> & i & Hi & Hm').
    destruct (decide (i = j)) as [->|Hne].
    + right. split; [|done].
      destruct Hm as (g & Hg & Hgm), Hm' as (g' & Hg' & Hgm'). congruence.
    + left. split; [done|]. exists i. split; [lia|done].
  - intros [(-> & i & Hi & Hm')|[-> ->]].
    + split; [done|]. exists i. split; [lia|done].
    + split; [done|]. exists j. split; [lia|done].
Qed.

Lemma nodeDestinationsLoop_Ok mesh export_elements export_element_procs sets sets' :
  nodeDestinationsLoop mesh (index_map (nodes mesh)) (index_map (elements mesh))
    export_elements export_element_procs sets = Ok sets' →
  rows_extend (pulls_node mesh (zip export_elements export_element_procs))
    sets sets'.
Proof.
  revert export_element_procs sets.
  induction export_elements as [|e ee IH]; intros ep sets; simpl.
  - intros [= <-]. apply rows_extend_refl.
    intros m r (e & _ & _ & He & _). by apply elem_of_nil in He.
  - destruct ep as [|p ep]; [done|].
    intros (n & Hn%map_find_Ok & (sets1 & Hrow%node_row_Ok & Hrest%IH)%bind_Ok)
      %bind_Ok.
    eapply rows_extend_step; [exact Hrow|exact Hrest|].
    intros m r. unfold pulls_node. simpl. split.
    + intros (e' & n' & i & [[= -> ->]|Hin]%elem_of_cons & Hn' & Hi & Hm).
      * left. split; [done|]. exists i. split; [done|]. congruence.
      * right. by exists e', n', i.
    + intros [(-> & i & Hi & Hm)|(e' & n' & i & Hin & Hn' & Hi & Hm)].
      * exists e, n, i. split_and!; [left|done..].
      * exists e', n', i. split_and!; [by right|done..].
Qed.

Lemma nodeDestinations_Ok mesh export_elements export_element_procs sets :
  nodeDestinations mesh export_elements export_element_procs = Ok sets →
  length sets = length (nodes mesh) ∧
  ∀ m, m < length (nodes mesh) →
    ∃ s, sets !! m = Some s ∧ ascending s ∧
         ∀ r, r ∈ s ↔
              pulls_node mesh (zip export_elements export_element_procs) m r.
Proof.
  unfold nodeDestinations. intros [Hlen Hrows]%nodeDestinationsLoop_Ok.
  rewrite length_replicate in Hlen. split; [done|]. intros m Hm.
  destruct (Hrows m []) as (s & Hs & Hasc & Hmem); [by apply lookup_replicate_2|].
  exists s. split_and!; [done|apply Hasc, ascending_nil|].
  intros r. rewrite Hmem, elem_of_nil. tauto.
Qed.

(** ** The shape of [setupImportCommunication] *)

(** The first round was posted: phase 2 and its unrolling went through. *)
Lemma setupImportCommunication_round0 this mesh elements_in_box junk received
    export sends outcome :
  run_rank (setupImportCommunication this mesh elements_in_box junk) received
    = (export :: sends, outcome) →
  ∃ sets,
    elementDestinations this mesh elements_in_box junk = Ok sets ∧
    unroll (elements mesh) sets = Ok export.
Proof.
  unfold setupImportCommunication.
  destruct (elementDestinations _ _ _ _) as [sets|e]; simpl; [|done].
  destruct (unroll (elements mesh) sets) as [[ee ep]|e] eqn:Hun; simpl; [|done].
  intros Hrun. exists sets. split; [done|]. rewrite Hun. f_equal.
  destruct received as [|ie received]; simpl in Hrun.
  - by injection Hrun as <- _ _.
  - destruct (run_rank _ received) as [sends' outcome']. by injection Hrun as <- _ _.
Qed.

(** The second round was posted: phase 4 and its unrolling went through, from
    the pairs of the first round. *)
Lemma setupImportCommunication_round1 this mesh elements_in_box junk received
    export_elements export_element_procs export sends outcome :
  run_rank (setupImportCommunication this mesh elements_in_box junk) received
    = ((export_elements, export_element_procs) :: export :: sends, outcome) →
  ∃ sets,
    nodeDestinations mesh export_elements export_element_procs = Ok sets ∧
    unroll (nodes mesh) sets = Ok export.
Proof.
  unfold setupImportCommunication.
  destruct (elementDestinations _ _ _ _) as [esets|e]; simpl; [|done].
  destruct (unroll (elements mesh) esets) as [[ee ep]|e]; simpl; [|done].
  destruct received as [|ie received]; simpl; [done|].
  destruct (nodeDestinations mesh ee ep) as [sets|e] eqn:Hsets; simpl; [|done].
  destruct (unroll (nodes mesh) sets) as [[en np]|e] eqn:Hun; simpl; [|done].
  intros Hrun. exists sets.
  destruct received as [|inn received]; simpl in Hrun;
    injection Hrun as <- <- <- _ _; done.
Qed.

(** The rank returned: both rounds were posted and both arrays came out of
    their sets. *)
Lemma setupImportCommunication_returns this mesh elements_in_box junk received
    sends rendezvous_nodes rendezvous_elements :
  run_rank (setupImportCommunication this mesh elements_in_box junk) received
    = (sends, Some (Ok (rendezvous_nodes, rendezvous_elements))) →
  ∃ export0 export1 import_elements import_nodes rest,
    sends = [export0; export1] ∧
    received = import_elements :: import_nodes :: rest ∧
    rendezvous_elements = unique_list import_elements ∧
    rendezvous_nodes = unique_list import_nodes.
Proof.
  unfold setupImportCommunication.
  destruct (elementDestinations _ _ _ _) as [esets|e]; simpl; [|done].
  destruct (unroll (elements mesh) esets) as [[ee ep]|e]; simpl; [|done].
  destruct received as [|ie received]; simpl; [done|].
  destruct (nodeDestinations mesh ee ep) as [sets|e]; simpl; [|done].
  destruct (unroll (nodes mesh) sets) as [[en np]|e]; simpl; [|done].
  destruct received as [|inn received]; simpl; [done|].
  intros [= <- <- <-]. by exists (ee, ep), (en, np), ie, inn, received.
Qed.

(** ** The claims about the import planner *)

(** C5.  Whatever the distributor delivers in the two rounds, the arrays
    [rendezvous_elements] and [rendezvous_nodes] come out strictly ascending,
    hence without duplicates, and hold exactly the ordinals that were
    delivered. *)
Theorem C5_rendezvous_arrays_ascending this mesh elements_in_box junk received
    sends rendezvous_nodes rendezvous_elements :
  run_rank (setupImportCommunication this mesh elements_in_box junk) received
    = (sends, Some (Ok (rendezvous_nodes, rendezvous_elements))) →
  ∃ import_elements import_nodes rest,
    received = import_elements :: import_nodes :: rest ∧
    ascending rendezvous_elements ∧ NoDup rendezvous_elements ∧
    (∀ e, e ∈ rendezvous_elements ↔ e ∈ import_elements) ∧
    ascending rendezvous_nodes ∧ NoDup rendezvous_nodes ∧
    (∀ g, g ∈ rendezvous_nodes ↔ g ∈ import_nodes).
Proof.
  intros (_ & _ & ie & inn & rest & _ & -> & -> & ->)
    %setupImportCommunication_returns.
  exists ie, inn, rest. split_and!.
  - done.
  - apply unique_list_ascending.
  - apply ascending_NoDup, unique_list_ascending.
  - apply elem_of_unique_list.
  - apply unique_list_ascending.
  - apply ascending_NoDup, unique_list_ascending.
  - apply elem_of_unique_list.
Qed.

Lemma C5_rendezvous_arrays_ascending_witness :
  ∃ import_elements import_nodes rest,
    [[40; 10; 10]; [201; 100; 200; 101; 100]]%Z
      = import_elements :: import_nodes :: rest ∧
    ascending [10; 40]%Z ∧ NoDup [10; 40]%Z ∧
    (∀ e, e ∈ [10; 40]%Z ↔ e ∈ import_elements) ∧
    ascending [100; 101; 200; 201]%Z ∧ NoDup [100; 101; 200; 201]%Z ∧
    (∀ g, g ∈ [100; 101; 200; 201]%Z ↔ g ∈ import_nodes).
Proof.
  apply (C5_rendezvous_arrays_ascending Example.facade Example.mesh [1; 1; 0]%Z
           Example.junk [[40; 10; 10]; [201; 100; 200; 101; 100]]%Z
           [([10; 10; 20], [0; 1; 1]);
            ([100; 100; 101; 101; 102], [0; 1; 0; 1; 1])]%Z).
  reflexivity.
Defined.

Lemma elem_of_zip_lookup (l k : list Z) x y :
  (x, y) ∈ zip l k ↔ ∃ j, l !! j = Some x ∧ k !! j = Some y.
Proof.
  rewrite elem_of_lookup_zip_with. split.
  - intros (j & x' & y' & [= -> ->] & ? & ?). eauto.
  - intros (j & ? & ?). by exists j, x, y.
Qed.

Lemma elem_of_zip_fst (l k : list Z) x :
  length l = length k → x ∈ l → ∃ y, (x, y) ∈ zip l k.
Proof.
  intros Hlen [j Hj]%list_elem_of_lookup.
  destruct (lookup_lt_is_Some_2 k j) as [y Hy].
  { rewrite <- Hlen. by eapply lookup_lt_Some. }
  exists y. apply elem_of_zip_lookup. eauto.
Qed.

Lemma element_flag_in_box this mesh box junk nodes_in_box elements_in_box n flag :
  getMeshInBox this mesh box junk = Ok (nodes_in_box, elements_in_box) →
  elements_in_box !! n = Some flag →
  flag ≠ 0%Z ↔ element_in_box this mesh box n.
Proof.
  intros [Heib _]%getMeshInBox_Ok Hflag.
  apply elementsInBox_Ok in Heib as [Hlen Hflags].
  destruct (Hflags n) as (flag' & Hflag' & _ & Hiff).
  { rewrite <- Hlen. by eapply lookup_lt_Some. }
  assert (flag' = flag) as -> by congruence.
  rewrite Hiff. apply in_box_flags_nonzero.
Qed.

(** C2.  With the flags of [getMeshInBox], the destination set phase 2
    computes for an in-box element is a set (ascending, no repetition, at most
    [nodes_per_element] members), is not empty, and holds exactly the ranks
    RCB gives to the zero-padded coordinates of the element's nodes; the set
    of an element with no node in the box is empty, and the exported pairs
    are exactly the in-box elements paired with their destinations, so an
    ordinal none of whose slots is in the box is not exported. *)
Theorem C2_element_destinations this rcb mesh box junk junk' nodes_in_box
    elements_in_box received export_elements export_element_procs sends outcome :
  d_rcb this = Some rcb →
  getMeshInBox this mesh box junk = Ok (nodes_in_box, elements_in_box) →
  run_rank (setupImportCommunication this mesh elements_in_box junk') received
    = ((export_elements, export_element_procs) :: sends, outcome) →
  ∃ sets,
    elementDestinations this mesh elements_in_box junk' = Ok sets ∧
    unroll (elements mesh) sets = Ok (export_elements, export_element_procs) ∧
    length sets = length (elements mesh) ∧
    (∀ n, n < length (elements mesh) →
       ∃ s, sets !! n = Some s ∧
            ascending s ∧ NoDup s ∧ length s ≤ nodesPerElement mesh ∧
            (element_in_box this mesh box n →
             s ≠ [] ∧ ∀ r, r ∈ s ↔ element_routes this rcb mesh n r) ∧
            (¬ element_in_box this mesh box n → s = [])) ∧
    (∀ e r, (e, r) ∈ zip export_elements export_element_procs ↔
            ∃ n, elements mesh !! n = Some e ∧
                 element_in_box this mesh box n ∧
                 element_routes this rcb mesh n r) ∧
    (∀ e, (∀ n, elements mesh !! n = Some e → ¬ element_in_box this mesh box n) →
          e ∉ export_elements).
Proof.
  intros Hrcb Hbox (sets & Hdest & Hun)%setupImportCommunication_round0.
  exists sets. split; [done|]. split; [done|].
  destruct (elementDestinations_Ok _ _ _ _ _ _ Hrcb Hdest) as [Hlen Hrows].
  destruct (unroll_Ok _ _ _ _ Hun) as [Hlen2 Hpairs].
  assert (∀ e r, (e, r) ∈ zip export_elements export_element_procs ↔
            ∃ n, elements mesh !! n = Some e ∧
                 element_in_box this mesh box n ∧
                 element_routes this rcb mesh n r) as Hexp.
  { intros e r. rewrite Hpairs. split.
    - intros (n & s & He & Hs & Hr). exists n. split; [done|].
      destruct (Hrows n) as (flag & s' & Hflag & Hs' & _ & _ & Hmem).
      { by eapply lookup_lt_Some. }
      assert (s' = s) as -> by congruence.
      destruct (proj1 (Hmem r) Hr) as [Hnz Hroute]. split; [|done].
      by apply (element_flag_in_box _ _ _ _ _ _ _ _ Hbox Hflag).
    - intros (n & He & Hin & Hr).
      destruct (Hrows n) as (flag & s & Hflag & Hs & _ & _ & Hmem).
      { by eapply lookup_lt_Some. }
      exists n, s. split_and!; [done|done|]. apply Hmem. split; [|done].
      by apply (element_flag_in_box _ _ _ _ _ _ _ _ Hbox Hflag). }
  split_and!; [done| |done|].
  - intros n Hn. destruct (Hrows n Hn) as (flag & s & Hflag & Hs & Hasc & Hle & Hmem).
    pose proof (element_flag_in_box _ _ _ _ _ _ _ _ Hbox Hflag) as Hiff.
    exists s. split_and!; [done|done|by apply ascending_NoDup|done| |].
    + intros Hin. assert (flag ≠ 0%Z) as Hnz by by apply Hiff.
      assert (∀ r, r ∈ s ↔ element_routes this rcb mesh n r) as Hmem'.
      { intros r. rewrite Hmem. tauto. }
      split; [|done]. destruct Hin as (i & m & Hi & Hm & _).
      intros ->. eapply elem_of_nil, Hmem'. by exists i, m.
    + intros Hout. destruct s as [|r s]; [done|]. exfalso.
      apply Hout, Hiff. apply (Hmem r). left.
  - intros e Hout [r Hr]%(elem_of_zip_fst _ export_element_procs); [|done].
    apply Hexp in Hr as (n & He & Hin & _). by apply (Hout n).
Qed.

Lemma C2_element_destinations_witness :
  ∃ sets,
    elementDestinations Example.facade Example.mesh [1; 1; 0]%Z Example.junk
      = Ok sets ∧
    unroll (elements Example.mesh) sets = Ok ([10; 10; 20], [0; 1; 1])%Z ∧
    length sets = length (elements Example.mesh) ∧
    (∀ n, n < length (elements Example.mesh) →
       ∃ s, sets !! n = Some s ∧
            ascending s ∧ NoDup s ∧ length s ≤ nodesPerElement Example.mesh ∧
            (element_in_box Example.facade Example.mesh Example.box n →
             s ≠ [] ∧
             ∀ r, r ∈ s ↔
                  element_routes Example.facade Example.rcb Example.mesh n r) ∧
            (¬ element_in_box Example.facade Example.mesh Example.box n →
             s = [])) ∧
    (∀ e r, (e, r) ∈ zip [10; 10; 20]%Z [0; 1; 1]%Z ↔
            ∃ n, elements Example.mesh !! n = Some e ∧
                 element_in_box Example.facade Example.mesh Example.box n ∧
                 element_routes Example.facade Example.rcb Example.mesh n r) ∧
    (∀ e, (∀ n, elements Example.mesh !! n = Some e →
                ¬ element_in_box Example.facade Example.mesh Example.box n) →
          e ∉ [10; 10; 20]%Z).
Proof.
  apply (C2_element_destinations Example.facade Example.rcb Example.mesh
           Example.box Example.junk Example.junk [1; 1; 1; 0]%Z [1; 1; 0]%Z
           [] [10; 10; 20]%Z [0; 1; 1]%Z [] None);
    reflexivity.
Defined.

Lemma pulls_node_plain mesh export m r :
  NoDup (nodes mesh) → NoDup (elements mesh) →
  pulls_node mesh export m r ↔ carries_node mesh export m r.
Proof.
  intros Hn He. unfold pulls_node, carries_node, element_node_index. split.
  - intros (e & n & i & Hin & Hen & Hi & g & Hg & Hm).
    exists e, n, i, g. split_and!; [done| |done|done|].
    + by apply index_map_lookup_NoDup.
    + by apply index_map_lookup_NoDup.
  - intros (e & n & i & g & Hin & Hen & Hi & Hg & Hm).
    exists e, n, i. split_and!; [done| |done|].
    + by apply index_map_lookup_NoDup.
    + exists g. split; [done|]. by apply index_map_lookup_NoDup.
Qed.

(** C3.  The destination set phase 4 computes for a local node holds exactly
    the ranks of the exported (element, rank) pairs whose element has that
    node in its connectivity; the exported (node, rank) pairs are those sets
    unrolled.  RCB is not consulted.  The code finds elements and nodes
    through its index maps; when the ordinals of the mesh are distinct this
    is the plain reading of the connectivity array. *)
Theorem C3_node_destinations this mesh elements_in_box junk received
    export_elements export_element_procs export_nodes export_node_procs
    sends outcome :
  run_rank (setupImportCommunication this mesh elements_in_box junk) received
    = ((export_elements, export_element_procs)
         :: (export_nodes, export_node_procs) :: sends, outcome) →
  ∃ sets,
    nodeDestinations mesh export_elements export_element_procs = Ok sets ∧
    unroll (nodes mesh) sets = Ok (export_nodes, export_node_procs) ∧
    length sets = length (nodes mesh) ∧
    (∀ m, m < length (nodes mesh) →
       ∃ s, sets !! m = Some s ∧ ascending s ∧
            (∀ r, r ∈ s ↔
                  pulls_node mesh (zip export_elements export_element_procs) m r) ∧
            (NoDup (nodes mesh) → NoDup (elements mesh) →
             ∀ r, r ∈ s ↔
                  carries_node mesh (zip export_elements export_element_procs)
                    m r)) ∧
    (∀ g r, (g, r) ∈ zip export_nodes export_node_procs ↔
            ∃ m, nodes mesh !! m = Some g ∧
                 pulls_node mesh (zip export_elements export_element_procs) m r).
Proof.
  intros (sets & Hsets & Hun)%setupImportCommunication_round1.
  exists sets. split; [done|]. split; [done|].
  destruct (nodeDestinations_Ok _ _ _ _ Hsets) as [Hlen Hrows].
  destruct (unroll_Ok _ _ _ _ Hun) as [_ Hpairs].
  split_and!; [done| |].
  - intros m Hm. destruct (Hrows m Hm) as (s & Hs & Hasc & Hmem).
    exists s. split_and!; [done..|].
    intros Hn He r. rewrite Hmem. by apply pulls_node_plain.
  - intros g r. rewrite Hpairs. split.
    + intros (m & s & Hg & Hs & Hr). exists m. split; [done|].
      destruct (Hrows m) as (s' & Hs' & _ & Hmem); [by eapply lookup_lt_Some|].
      assert (s' = s) as -> by congruence. by apply Hmem.
    + intros (m & Hg & Hpull).
      destruct (Hrows m) as (s & Hs & _ & Hmem); [by eapply lookup_lt_Some|].
      exists m, s. split_and!; [done|done|]. by apply Hmem.
Qed.

Lemma C3_node_destinations_witness :
  ∃ sets,
    nodeDestinations Example.mesh [10; 10; 20]%Z [0; 1; 1]%Z = Ok sets ∧
    unroll (nodes Example.mesh) sets
      = Ok ([100; 100; 101; 101; 102], [0; 1; 0; 1; 1])%Z ∧
    length sets = length (nodes Example.mesh) ∧
    (∀ m, m < length (nodes Example.mesh) →
       ∃ s, sets !! m = Some s ∧ ascending s ∧
            (∀ r, r ∈ s ↔
                  pulls_node Example.mesh (zip [10; 10; 20]%Z [0; 1; 1]%Z) m r) ∧
            (NoDup (nodes Example.mesh) → NoDup (elements Example.mesh) →
             ∀ r, r ∈ s ↔
                  carries_node Example.mesh (zip [10; 10; 20]%Z [0; 1; 1]%Z)
                    m r)) ∧
    (∀ g r, (g, r) ∈ zip [100; 100; 101; 101; 102]%Z [0; 1; 0; 1; 1]%Z ↔
            ∃ m, nodes Example.mesh !! m = Some g ∧
                 pulls_node Example.mesh (zip [10; 10; 20]%Z [0; 1; 1]%Z) m r).
Proof.
  apply (C3_node_destinations Example.facade Example.mesh [1; 1; 0]%Z
           Example.junk [[40; 10]]%Z
           [10; 10; 20]%Z [0; 1; 1]%Z
           [100; 100; 101; 101; 102]%Z [0; 1; 0; 1; 1]%Z [] None).
  reflexivity.
Defined.

(** Node 100 lies left of the cut, so RCB routes it to rank 0 alone; it is
    nevertheless sent to rank 1 as well, with element 10. *)
Example node_follows_its_element :
  getDestinationProc Example.rcb (node_point Example.facade Example.mesh 0) = 0%Z ∧
  nodeDestinations Example.mesh [10; 10; 20]%Z [0; 1; 1]%Z
  = Ok [[0; 1]; [0; 1]; [1]; []]%Z.
Proof. split; reflexivity. Qed.

(** ** Nodes follow their elements *)

(** Phase 4 went through: it found the row of every exported element and the
    slot of every node in it. *)
Lemma node_row_defined mesh n p sets sets' :
  for_range 0 (nodesPerElement mesh)
    (λ i export_node_procs_set,
       node_index ← connected_node_index mesh (index_map (nodes mesh)) i n;
       array_modify export_node_procs_set node_index (set_insert p))
    sets = Ok sets' →
  ∀ i, i < nodesPerElement mesh → ∃ m, element_node_index mesh n i m.
Proof.
  apply (for_range_partial
           (λ j (_ : list (list Z)),
              ∀ i, i < j → ∃ m, element_node_index mesh n i m)); [lia| |].
  { intros; lia. }
  intros j setsj setsj' Hj Hdef (m & Hm%connected_node_index_Ok & _)%bind_Ok i Hi.
  destruct (decide (i = j)) as [->|Hne]; [by exists m|]. apply Hdef. lia.
Qed.

Lemma nodeDestinationsLoop_defined mesh export_elements export_element_procs
    sets sets' e p :
  nodeDestinationsLoop mesh (index_map (nodes mesh)) (index_map (elements mesh))
    export_elements export_element_procs sets = Ok sets' →
  (e, p) ∈ zip export_elements export_element_procs →
  ∃ n, index_map (elements mesh) !! e = Some n ∧
       ∀ i, i < nodesPerElement mesh → ∃ m, element_node_index mesh n i m.
Proof.
  revert export_element_procs sets.
  induction export_elements as [|e' ee IH]; intros ep sets; simpl.
  - intros _ Hin. by apply elem_of_nil in Hin.
  - destruct ep as [|p' ep]; [done|].
    intros (n & Hn%map_find_Ok & (sets1 & Hrow & Hrest)%bind_Ok)%bind_Ok.
    intros [[= -> ->]|Hin]%elem_of_cons.
    + exists n. split; [done|]. by eapply node_row_defined.
    + by eapply IH.
Qed.

(** Every exported (element, rank) pair takes every node of the element along
    to the same rank. *)
Lemma exports_cover this mesh elements_in_box junk received
    export_elements export_element_procs export_nodes export_node_procs
    sends outcome :
  run_rank (setupImportCommunication this mesh elements_in_box junk) received
    = ((export_elements, export_element_procs)
         :: (export_nodes, export_node_procs) :: sends, outcome) →
  ∀ e p g,
    (e, p) ∈ zip export_elements export_element_procs →
    node_of mesh e g →
    (g, p) ∈ zip export_nodes export_node_procs.
Proof.
  intros (sets & Hsets & Hun)%setupImportCommunication_round1 e p g Hep
    (n & i & Hn & Hi & Hg).
  destruct (nodeDestinationsLoop_defined _ _ _ _ _ e p Hsets Hep)
    as (n' & Hn' & Hdef).
  assert (n' = n) as -> by congruence.
  destruct (Hdef i Hi) as (m & g' & Hg' & Hm).
  assert (g' = g) as -> by congruence.
  destruct (nodeDestinations_Ok _ _ _ _ Hsets) as [_ Hrows].
  destruct (Hrows m) as (s & Hs & _ & Hmem).
  { apply index_map_slot in Hm. by eapply lookup_lt_Some. }
  destruct (unroll_Ok _ _ _ _ Hun) as [_ Hpairs].
  apply Hpairs. exists m, s. split_and!; [by apply index_map_slot|done|].
  apply Hmem. exists e, n, i. split_and!; [done..|]. by exists g.
Qed.

Lemma elem_of_sent_to r (send : list Z * list Z) x :
  x ∈ sent_to r send ↔ (x, r) ∈ zip send.1 send.2.
Proof.
  unfold sent_to. rewrite list_elem_of_fmap. split.
  - intros ([x' r'] & -> & Hin). apply list_elem_of_In, filter_In in Hin as [Hin Hr].
    simpl in *. apply bool_decide_eq_true in Hr as ->. by apply list_elem_of_In.
  - intros Hin. exists (x, r). split; [done|].
    apply list_elem_of_In, filter_In. split; [by apply list_elem_of_In|].
    by apply bool_decide_eq_true.
Qed.

Lemma elem_of_allToAll sends r x :
  x ∈ allToAll sends r ↔
  ∃ send, send ∈ sends ∧ (x, Z.of_nat r) ∈ zip send.1 send.2.
Proof.
  unfold allToAll. rewrite list_elem_of_In, in_flat_map.
  setoid_rewrite <- list_elem_of_In. by setoid_rewrite elem_of_sent_to.
Qed.

Lemma elem_of_round_sends ranks j send :
  send ∈ round_sends ranks j ↔
  ∃ s sk, ranks !! s = Some sk ∧ send = default ([], []) (rank_sends sk !! j).
Proof.
  unfold round_sends. change (map ?f ?l) with (f <$> l).
  rewrite list_elem_of_fmap. split.
  - intros (sk & -> & [s Hs]%list_elem_of_lookup). by exists s, sk.
  - intros (s & sk & Hs & ->). exists sk. split; [done|].
    apply list_elem_of_lookup. by exists s.
Qed.

Lemma node_of_NoDup mesh n i e g :
  NoDup (elements mesh) → elements mesh !! n = Some e →
  i < nodesPerElement mesh → element_node mesh n i = Some g →
  node_of mesh e g.
Proof.
  intros Hnd He Hi Hg. exists n, i. split_and!; [|done..].
  by apply index_map_NoDup.
Qed.

(** C1.  Whenever [setupImportCommunication] exports an (element, rank) pair
    it exports every node of that element to the same rank; so, when the
    ranks of a communicator have run it together and all have returned, every
    element in [rendezvous_elements] of a rank was shipped there by some
    rank, and all the nodes it has on a rank that shipped it are in
    [rendezvous_nodes] of the receiving rank.  The nodes of an element are
    those of the row the code finds through [element_indices]; when the
    element ordinals of the shipping rank are distinct, that is the row of
    the slot holding the element. *)
Theorem C1_nodes_follow_elements (ranks : list RankRun) :
  collective_run ranks →
  (∀ s sk, ranks !! s = Some sk → ∃ out, rank_outcome sk = Some (Ok out)) →
  ∀ r rk rendezvous_nodes rendezvous_elements,
    ranks !! r = Some rk →
    rank_outcome rk = Some (Ok (rendezvous_nodes, rendezvous_elements)) →
    (∃ export_elements export_element_procs export_nodes export_node_procs,
       rank_sends rk = [(export_elements, export_element_procs);
                        (export_nodes, export_node_procs)] ∧
       ∀ e p g,
         (e, p) ∈ zip export_elements export_element_procs →
         node_of (rank_mesh rk) e g →
         (g, p) ∈ zip export_nodes export_node_procs) ∧
    ∀ e, e ∈ rendezvous_elements →
      (∃ s sk, ranks !! s = Some sk ∧ ships_element sk e r) ∧
      ∀ s sk g,
        ranks !! s = Some sk → ships_element sk e r →
        (node_of (rank_mesh sk) e g → g ∈ rendezvous_nodes) ∧
        (NoDup (elements (rank_mesh sk)) →
         ∀ n i, elements (rank_mesh sk) !! n = Some e →
                i < nodesPerElement (rank_mesh sk) →
                element_node (rank_mesh sk) n i = Some g →
                g ∈ rendezvous_nodes).
Proof.
  intros Hrun Hall.
  assert (∀ s sk, ranks !! s = Some sk →
            ∃ ee ep en np,
              rank_sends sk = [(ee, ep); (en, np)] ∧
              ∀ e p g, (e, p) ∈ zip ee ep → node_of (rank_mesh sk) e g →
                       (g, p) ∈ zip en np) as Hlocal.
  { intros s sk Hsk. destruct (Hall s sk Hsk) as [[rn re] Hout].
    unfold rank_outcome, rank_sends in *.
    destruct (run_rank (rank_program sk) (rank_received sk)) as [sends out] eqn:Hrk.
    simpl in Hout. subst out.
    destruct (setupImportCommunication_returns _ _ _ _ _ _ _ _ Hrk)
      as ([ee ep] & [en np] & _ & _ & _ & -> & _).
    exists ee, ep, en, np. split; [done|]. by eapply exports_cover. }
  intros r rk rn re Hrk Hout. split; [by eapply Hlocal|].
  unfold rank_outcome in Hout.
  destruct (run_rank (rank_program rk) (rank_received rk)) as [sends out] eqn:Hrun_rk.
  simpl in Hout. subst out.
  destruct (setupImportCommunication_returns _ _ _ _ _ _ _ _ Hrun_rk)
    as (_ & _ & ie & inn & rest & _ & Hrecv & -> & ->).
  pose proof (Hrun r rk 0 ie Hrk ltac:(by rewrite Hrecv)) as Hie.
  pose proof (Hrun r rk 1 inn Hrk ltac:(by rewrite Hrecv)) as Hinn.
  intros e He. apply (proj1 (elem_of_unique_list ie e)) in He. split.
  - rewrite Hie in He.
    apply elem_of_allToAll in He as (send & Hsend & Hpair).
    apply elem_of_round_sends in Hsend as (s & sk & Hsk & ->).
    exists s, sk. split; [done|].
    destruct (Hlocal s sk Hsk) as (ee & ep & en & np & Hsends & _).
    rewrite Hsends in Hpair. unfold ships_element. rewrite Hsends.
    by exists ee, ep.
  - intros s sk g Hsk (ee & ep & Hee & Hpair).
    destruct (Hlocal s sk Hsk) as (ee' & ep' & en & np & Hsends & Hcover).
    rewrite Hsends in Hee. simpl in Hee. injection Hee as <- <-.
    assert (node_of (rank_mesh sk) e g → g ∈ unique_list inn) as Hnodes.
    { intros Hg. apply elem_of_unique_list. rewrite Hinn.
      apply elem_of_allToAll. exists (en, np). split.
      - apply elem_of_round_sends. exists s, sk. split; [done|]. by rewrite Hsends.
      - by eapply Hcover. }
    split; [done|]. intros Hnd n i Hn Hi Hg.
    by eapply Hnodes, node_of_NoDup.
Qed.

Lemma collective_run_example : collective_run [Example.rank0; Example.rank1].
Proof.
  intros r rk j imports Hr Hj.
  destruct r as [|[|r]]; simpl in Hr; simplify_eq;
    (destruct j as [|[|j]]; simpl in Hj; simplify_eq);
    apply (bool_decide_unpack _); vm_compute; reflexivity.
Qed.

Lemma all_return_example :
  ∀ s sk, [Example.rank0; Example.rank1] !! s = Some sk →
          ∃ out, rank_outcome sk = Some (Ok out).
Proof.
  intros s sk Hs. destruct s as [|[|s]]; simpl in Hs; simplify_eq;
    eexists; reflexivity.
Qed.

Lemma C1_nodes_follow_elements_witness :
  (∃ export_elements export_element_procs export_nodes export_node_procs,
     rank_sends Example.rank1 = [(export_elements, export_element_procs);
                                 (export_nodes, export_node_procs)] ∧
     ∀ e p g,
       (e, p) ∈ zip export_elements export_element_procs →
       node_of (rank_mesh Example.rank1) e g →
       (g, p) ∈ zip export_nodes export_node_procs) ∧
  ∀ e, e ∈ [10; 20]%Z →
    (∃ s sk, [Example.rank0; Example.rank1] !! s = Some sk ∧
             ships_element sk e 1) ∧
    ∀ s sk g,
      [Example.rank0; Example.rank1] !! s = Some sk → ships_element sk e 1 →
      (node_of (rank_mesh sk) e g → g ∈ [100; 101; 102]%Z) ∧
      (NoDup (elements (rank_mesh sk)) →
       ∀ n i, elements (rank_mesh sk) !! n = Some e →
              i < nodesPerElement (rank_mesh sk) →
              element_node (rank_mesh sk) n i = Some g →
              g ∈ [100; 101; 102]%Z).
Proof.
  apply (C1_nodes_follow_elements [Example.rank0; Example.rank1]
           collective_run_example all_return_example
           1 Example.rank1 [100; 101; 102]%Z [10; 20]%Z);
    reflexivity.
Defined.

(** ** The planner returns on well-formed input *)

Lemma wf_node_point_index this mesh m k :
  well_formed this mesh → m < length (nodes mesh) → k < d_node_dim this →
  k * length (nodes mesh) + m < length (coords mesh).
Proof.
  intros Hwf Hm Hk. apply (blocked_index (d_node_dim this)); [apply Hwf|done..].
Qed.

Lemma elementDestinations_total this rcb mesh elements_in_box junk :
  well_formed this mesh → d_rcb this = Some rcb →
  length elements_in_box = length (elements mesh) →
  is_Ok (elementDestinations this mesh elements_in_box junk).
Proof.
  intros Hwf Hrcb Heib. unfold elementDestinations. cbv zeta.
  match goal with |- context [for_range 0 ?N ?b ?s] =>
    destruct (for_range_total
                (λ _ (st : Point3 * list (list Z)),
                   length st.2 = length (elements mesh)) 0 N b s)
      as ([pt sets] & -> & _)
  end; [lia|apply length_replicate| |by eexists].
  intros n st Hn Hlen.
  destruct (array_get_lt elements_in_box n) as (flag & _ & ->); [lia|]. simpl.
  case_decide; [|by eexists].
  apply (for_range_total
           (λ _ (st : Point3 * list (list Z)),
              length st.2 = length (elements mesh))); [lia|done|].
  intros i [pt sets] Hi Hlen'. cbn [snd] in Hlen'.
  destruct (well_formed_node_index this mesh n i Hwf) as [m Hm]; [lia|lia|].
  pose proof (element_node_index_lt _ _ _ _ Hm) as Hlt.
  apply connected_node_index_Ok in Hm. rewrite Hm. simpl.
  rewrite load_point_total;
    [|apply Hwf|intros; by apply (wf_node_point_index this)].
  simpl. rewrite Hrcb. simpl.
  destruct (lookup_lt_is_Some_2 sets n) as [s Hs]; [lia|].
  unfold array_modify, array_get. rewrite Hs. simpl.
  unfold array_set. rewrite decide_True by lia. simpl.
  eexists. split; [done|]. cbn [snd]. by rewrite length_insert.
Qed.

Lemma nodeDestinationsLoop_total this mesh export_elements export_element_procs sets :
  well_formed this mesh →
  length export_elements ≤ length export_element_procs →
  (∀ e, e ∈ export_elements → e ∈ elements mesh) →
  length sets = length (nodes mesh) →
  is_Ok (nodeDestinationsLoop mesh (index_map (nodes mesh))
           (index_map (elements mesh)) export_elements export_element_procs sets).
Proof.
  intros Hwf. revert export_element_procs sets.
  induction export_elements as [|e ee IH]; intros ep sets Hlen Hin Hsets; simpl.
  - by eexists.
  - destruct ep as [|p ep]; simpl in Hlen; [lia|].
    destruct (index_map_elem (elements mesh) e) as (n & Hn & Hlt);
      [apply Hin; left|].
    unfold map_find. rewrite Hn. simpl.
    match goal with |- context [for_range 0 ?N ?b ?s] =>
      destruct (for_range_total
                  (λ _ (st : list (list Z)), length st = length (nodes mesh))
                  0 N b s) as (sets1 & -> & Hsets1)
    end; [lia|done| |].
    + intros i sets0 Hi Hsets0.
      destruct (well_formed_node_index this mesh n i Hwf) as [m Hm]; [lia|lia|].
      pose proof (element_node_index_lt _ _ _ _ Hm) as Hmlt.
      apply connected_node_index_Ok in Hm. rewrite Hm. simpl.
      destruct (lookup_lt_is_Some_2 sets0 m) as [s Hs]; [lia|].
      unfold array_modify, array_get. rewrite Hs. simpl.
      unfold array_set. rewrite decide_True by lia.
      eexists. split; [done|]. by rewrite length_insert.
    + simpl. apply IH; [lia| |done]. intros e' He'. apply Hin. by right.
Qed.

Lemma unroll_ids ids sets export_ids export_procs e :
  unroll ids sets = Ok (export_ids, export_procs) → e ∈ export_ids → e ∈ ids.
Proof.
  intros [Hlen Hpairs]%unroll_Ok [r Hr]%(elem_of_zip_fst _ export_procs); [|done].
  apply Hpairs in Hr as (n & _ & Hn & _). apply list_elem_of_lookup. eauto.
Qed.

(** On a well-formed mesh, with the partitioner in place and one flag per
    element, a rank that is given its two deliveries returns. *)
Lemma setupImportCommunication_total this rcb mesh elements_in_box junk
    import_elements import_nodes :
  well_formed this mesh → d_rcb this = Some rcb →
  length elements_in_box = length (elements mesh) →
  ∃ sends rendezvous_nodes rendezvous_elements,
    run_rank (setupImportCommunication this mesh elements_in_box junk)
      [import_elements; import_nodes]
    = (sends, Some (Ok (rendezvous_nodes, rendezvous_elements))).
Proof.
  intros Hwf Hrcb Heib. unfold setupImportCommunication.
  destruct (elementDestinations_total this rcb mesh elements_in_box junk)
    as [esets Hesets]; [done..|].
  rewrite Hesets. simpl.
  destruct (elementDestinations_Ok _ _ _ _ _ _ Hrcb Hesets) as [Hlen _].
  destruct (unroll_total (elements mesh) esets) as [[ee ep] Hun]; [lia|].
  rewrite Hun. simpl.
  destruct (nodeDestinationsLoop_total this mesh ee ep
              (replicate (length (nodes mesh)) [])) as [nsets Hnsets].
  { done. }
  { apply unroll_Ok in Hun as [-> _]. done. }
  { intros e. by apply (unroll_ids _ _ _ _ _ Hun). }
  { apply length_replicate. }
  unfold nodeDestinations. rewrite Hnsets. simpl.
  destruct (nodeDestinationsLoop_Ok _ _ _ _ _ Hnsets) as [Hnlen _].
  rewrite length_replicate in Hnlen.
  destruct (unroll_total (nodes mesh) nsets) as [[en np] Hun']; [lia|].
  rewrite Hun'. simpl. by eexists _, _, _.
Qed.

(** ** Every communicator has a run *)

(** The send of round [j] depends on the first [j] deliveries only. *)
Lemma run_rank_sends_prefix {A} (p : Collective A) received more j :
  j ≤ length received →
  (run_rank p (received ++ more)).1 !! j = (run_rank p received).1 !! j.
Proof.
  revert received j. induction p as [a|e|exports procs k IH]; intros received j Hj.
  - done.
  - done.
  - destruct received as [|imports received]; simpl in *.
    + assert (j = 0) as -> by lia. destruct more as [|imports more]; simpl; [done|].
      by destruct (run_rank (k imports) more).
    + specialize (IH imports received).
      destruct (run_rank (k imports) (received ++ more)) as [sends1 out1].
      destruct (run_rank (k imports) received) as [sends2 out2].
      destruct j as [|j]; simpl; [done|]. apply IH. lia.
Qed.

Lemma rank_sends_with_received rk received more j :
  j ≤ length received →
  rank_sends (with_received rk (received ++ more)) !! j
  = rank_sends (with_received rk received) !! j.
Proof. apply run_rank_sends_prefix. Qed.

Lemma deliver_round_lookup ranks j r rk' :
  deliver_round ranks j !! r = Some rk' ↔
  ∃ rk, ranks !! r = Some rk ∧
        rk' = with_received rk
                (rank_received rk ++ [allToAll (round_sends ranks j) r]).
Proof.
  unfold deliver_round. rewrite list_lookup_imap.
  destruct (ranks !! r) as [rk|]; simpl; split.
  - intros [= <-]. by exists rk.
  - by intros (rk0 & [= <-] & ->).
  - done.
  - by intros (rk0 & ? & _).
Qed.

(** Adding the delivery of round [j] leaves the sends up to round [j] as
    they were, on ranks that had received [j] deliveries. *)
Lemma round_sends_deliver_round ranks j i :
  (∀ r rk, ranks !! r = Some rk → length (rank_received rk) = j) →
  i ≤ j →
  round_sends (deliver_round ranks j) i = round_sends ranks i.
Proof.
  intros Hlen Hi. unfold round_sends. apply list_eq. intros r.
  change (map ?f ?l) with (f <$> l). rewrite !list_lookup_fmap.
  destruct (deliver_round ranks j !! r) as [rk'|] eqn:Hr.
  - apply deliver_round_lookup in Hr as (rk & Hrk & ->). rewrite Hrk. simpl.
    rewrite rank_sends_with_received by (rewrite (Hlen r rk Hrk); lia).
    by destruct rk.
  - destruct (ranks !! r) as [rk|] eqn:Hrk; [|done].
    assert (is_Some (deliver_round ranks j !! r)) as [? ?]; [|congruence].
    eexists. apply deliver_round_lookup. by exists rk.
Qed.

Theorem deliver_collective_run ranks : collective_run (deliver ranks).
Proof.
  unfold deliver.
  set (ranks0 := map (λ rk, with_received rk []) ranks).
  set (ranks1 := deliver_round ranks0 0).
  assert (∀ r rk, ranks0 !! r = Some rk → length (rank_received rk) = 0) as Hlen0.
  { intros r rk. unfold ranks0. change (map ?f ?l) with (f <$> l).
    rewrite list_lookup_fmap. destruct (ranks !! r); simpl; [|done].
    by intros [= <-]. }
  assert (∀ r rk, ranks1 !! r = Some rk →
            ∃ rk0, ranks0 !! r = Some rk0 ∧
                   rk = with_received rk0 [allToAll (round_sends ranks0 0) r])
    as Hranks1.
  { intros r rk (rk0 & Hrk0 & ->)%deliver_round_lookup. exists rk0.
    split; [done|]. destruct rk0 as [? ? ? ? recv]. simpl in *.
    specialize (Hlen0 r _ Hrk0). simpl in Hlen0.
    by destruct recv. }
  assert (∀ r rk, ranks1 !! r = Some rk → length (rank_received rk) = 1) as Hlen1.
  { intros r rk (rk0 & _ & ->)%Hranks1. done. }
  intros r rk j imports (rk1 & Hrk1 & ->)%deliver_round_lookup Hj.
  destruct (Hranks1 r rk1 Hrk1) as (rk0 & Hrk0 & ->). simpl in Hj.
  destruct j as [|[|j]]; simpl in Hj; [| |done]; injection Hj as <-.
  - rewrite (round_sends_deliver_round ranks1 1 0) by (done || lia).
    unfold ranks1. rewrite (round_sends_deliver_round ranks0 0 0) by (done || lia).
    done.
  - rewrite (round_sends_deliver_round ranks1 1 1) by (done || lia). done.
Qed.

Lemma deliver_lookup ranks s sk :
  deliver ranks !! s = Some sk →
  ∃ rk import_elements import_nodes,
    ranks !! s = Some rk ∧
    sk = with_received rk [import_elements; import_nodes].
Proof.
  unfold deliver.
  intros (rk1 & (rk0 & Hrk0 & ->)%deliver_round_lookup & ->)%deliver_round_lookup.
  revert Hrk0. change (map ?f ?l) with (f <$> l). rewrite list_lookup_fmap.
  destruct (ranks !! s) as [rk|]; simpl; [|done]. intros [= <-].
  by eexists rk, _, _.
Qed.

(** On well-formed meshes, with the partitioner in place and the flags of
    every element at hand, the ranks of a communicator all return from the
    run [deliver] computes. *)
Theorem deliver_returns ranks :
  (∀ s rk, ranks !! s = Some rk →
     well_formed (rank_this rk) (rank_mesh rk) ∧
     is_Some (d_rcb (rank_this rk)) ∧
     length (rank_elements_in_box rk) = length (elements (rank_mesh rk))) →
  ∀ s sk, deliver ranks !! s = Some sk → ∃ out, rank_outcome sk = Some (Ok out).
Proof.
  intros Hwf s sk (rk & ie & inn & Hrk & ->)%deliver_lookup.
  destruct (Hwf s rk Hrk) as (Hmesh & [rcb Hrcb] & Hlen).
  destruct (setupImportCommunication_total (rank_this rk) rcb (rank_mesh rk)
              (rank_elements_in_box rk) (rank_node_coords rk) ie inn)
    as (sends & rn & re & Hrun); [done..|].
  exists (rn, re). unfold rank_outcome, rank_program. simpl. by rewrite Hrun.
Qed.

(** * Further properties of the code *)

(** ** When the loops return *)

(** A loop that completed ran its body successfully at every index. *)
Lemma for_each_Ok_body {A S} (body : A → S → result S) l s s' x :
  for_each body l s = Ok s' → x ∈ l → ∃ s1 s2, body x s1 = Ok s2.
Proof.
  revert s. induction l as [|y l IH]; intros s; simpl.
  - intros _ Hx. by apply elem_of_nil in Hx.
  - intros (s1 & Hy & Hl)%bind_Ok [->|Hx]%elem_of_cons; [by exists s, s1|].
    by eapply IH.
Qed.

Lemma for_range_Ok_body {S} lo hi (body : nat → S → result S) s s' n :
  for_range lo hi body s = Ok s' → lo ≤ n < hi → ∃ s1 s2, body n s1 = Ok s2.
Proof.
  intros Hrun Hn. eapply for_each_Ok_body; [exact Hrun|].
  apply list_elem_of_In, in_seq. lia.
Qed.

(** A point was loaded: the dimension fits the buffer and every coordinate
    read was inside the array. *)
Lemma load_point_Ok_inv d coords stride n junk p :
  load_point d coords stride n junk = Ok p →
  d ≤ 3 ∧ ∀ k, k < d → k * stride + n < length coords.
Proof.
  destruct d as [|[|[|[|d]]]]; load_point_cases; intros [= <-];
    (split; [lia|]); intros k Hk;
    (destruct k as [|[|[|k]]]; [..|try lia]); try lia;
    repeat match goal with
      | H : _ !! _ = Some _ |- _ => apply lookup_lt_Some in H
      end;
    simpl in *; lia.
Qed.

Lemma nodesInBox_returns this mesh box junk :
  loadable this mesh → is_Ok (nodesInBox this mesh box junk).
Proof.
  intros Hload. unfold nodesInBox. cbv zeta.
  match goal with |- context [for_range 0 ?N ?b ?s] =>
    destruct (for_range_total (λ _ (_ : Point3 * list Z), True) 0 N b s)
      as ([pt o] & -> & _)
  end; [lia|done| |by eexists].
  intros n [pt o] Hn _.
  destruct Hload as [Hnil|[Hd Hlen]]; [rewrite Hnil in Hn; simpl in Hn; lia|].
  rewrite load_point_total; [by eexists|done|].
  intros k Hk. apply (blocked_index (d_node_dim this)); [done|done|lia].
Qed.

Lemma nodesInBox_loadable this mesh box junk :
  is_Ok (nodesInBox this mesh box junk) → loadable this mesh.
Proof.
  intros [nib Hnib]. unfold nodesInBox in Hnib. cbv zeta in Hnib.
  apply bind_Ok in Hnib as ([pt o] & Hloop & _).
  destruct (nodes mesh) as [|g gs] eqn:Hnodes; [by left|]. right.
  destruct (for_range_Ok_body _ _ _ _ _ (length gs) Hloop) as ([pt1 o1] & s2 & Hbody).
  { simpl. lia. }
  apply bind_Ok in Hbody as (p & [Hd Hin]%load_point_Ok_inv & _).
  split; [done|].
  destruct (d_node_dim this) as [|d]; [lia|].
  specialize (Hin d ltac:(lia)). rewrite Hnodes. simpl in *. lia.
Qed.

Lemma resolvable_node_index mesh n i :
  resolvable mesh → n < length (elements mesh) → i < nodesPerElement mesh →
  ∃ m, element_node_index mesh n i m.
Proof.
  intros Hres Hn Hi. destruct (Hres n i Hn Hi) as (g & Hg & Hin).
  destruct (index_map_elem _ _ Hin) as (m & Hm & _). by exists m, g.
Qed.

Lemma element_node_index_elem mesh n i m :
  element_node_index mesh n i m →
  ∃ g, element_node mesh n i = Some g ∧ g ∈ nodes mesh.
Proof.
  intros (g & Hg & Hm). exists g. split; [done|].
  apply list_elem_of_lookup. exists m. by apply index_map_slot.
Qed.

Lemma elementsInBox_returns mesh nodes_in_box :
  resolvable mesh → length nodes_in_box = length (nodes mesh) →
  is_Ok (elementsInBox mesh nodes_in_box).
Proof.
  intros Hres Hlen. unfold elementsInBox. cbv zeta.
  apply for_range_push_total. intros n Hn.
  match goal with |- is_Ok (for_range 0 ?N ?b ?s) =>
    destruct (for_range_total (λ _ (_ : Z), True) 0 N b s) as (fl & Hfl & _)
  end; [lia|done| |by exists fl].
  intros i fl Hi _.
  destruct (resolvable_node_index mesh n i Hres) as [m Hm]; [done|lia|].
  pose proof (element_node_index_lt _ _ _ _ Hm) as Hlt.
  apply connected_node_index_Ok in Hm. rewrite Hm. simpl.
  destruct (array_get_lt nodes_in_box m) as (f & _ & ->); [lia|].
  by eexists.
Qed.

Lemma elementsInBox_resolvable mesh nodes_in_box :
  is_Ok (elementsInBox mesh nodes_in_box) → resolvable mesh.
Proof.
  intros [eib Heib] n i Hn Hi. unfold elementsInBox in Heib. cbv zeta in Heib.
  apply for_range_push in Heib as [_ Hrows].
  destruct (Hrows n Hn) as (flag & _ & Hloop).
  destruct (for_range_Ok_body _ _ _ _ _ i Hloop) as (s1 & s2 & Hbody); [lia|].
  apply bind_Ok in Hbody as (m & Hm%connected_node_index_Ok & _).
  by eapply element_node_index_elem.
Qed.

Lemma expandNodesInBox_returns mesh elements_in_box (nodes_in_box : list Z) :
  resolvable mesh →
  length nodes_in_box = length (nodes mesh) →
  length elements_in_box = length (elements mesh) →
  is_Ok (expandNodesInBox mesh elements_in_box nodes_in_box).
Proof.
  intros Hres Hnib Heib. unfold expandNodesInBox. cbv zeta.
  match goal with |- is_Ok (for_range 0 ?N ?b ?s) =>
    destruct (for_range_total
                (λ _ (nib : list Z), length nib = length (nodes mesh)) 0 N b s)
      as (nib & Hrun & _)
  end; [lia|done| |by exists nib].
  intros n nib Hn Hlen.
  destruct (array_get_lt elements_in_box n) as (flag & _ & ->); [lia|]. simpl.
  case_decide; [|by eexists].
  apply (for_range_total (λ _ (nib : list Z), length nib = length (nodes mesh)));
    [lia|done|].
  intros i nib0 Hi Hlen0.
  destruct (resolvable_node_index mesh n i Hres) as [m Hm]; [lia|lia|].
  pose proof (element_node_index_lt _ _ _ _ Hm) as Hlt.
  apply connected_node_index_Ok in Hm. rewrite Hm. simpl.
  unfold array_set. rewrite decide_True by lia.
  eexists. split; [done|]. by rewrite length_insert.
Qed.

Lemma getMeshInBox_Ok_conditions this mesh box junk :
  is_Ok (getMeshInBox this mesh box junk) → loadable this mesh ∧ resolvable mesh.
Proof.
  intros [[nib eib] Hrun]. unfold getMeshInBox in Hrun.
  apply bind_Ok in Hrun as (nib0 & Hnib0 & (eib0 & Heib0 & _)%bind_Ok).
  split.
  - apply (nodesInBox_loadable this mesh box junk). by eexists.
  - apply (elementsInBox_resolvable mesh nib0). by eexists.
Qed.

(** [getMeshInBox] returns exactly on the meshes whose coordinates can be
    loaded and whose connectivity names local nodes; on any other mesh it
    reads past an array or dereferences [node_indices.end()]. *)
Theorem getMeshInBox_returns_iff this mesh box junk :
  is_Ok (getMeshInBox this mesh box junk) ↔ loadable this mesh ∧ resolvable mesh.
Proof.
  split; [apply getMeshInBox_Ok_conditions|].
  intros [Hload Hres]. unfold getMeshInBox.
  destruct (nodesInBox_returns this mesh box junk Hload) as [nib Hnib].
  rewrite Hnib. simpl. apply nodesInBox_Ok in Hnib as ->.
  destruct (elementsInBox_returns mesh (in_box_flags this mesh box) Hres)
    as [eib Heib]; [apply length_in_box_flags|].
  rewrite Heib. simpl. apply elementsInBox_Ok in Heib as [Hlen _].
  destruct (expandNodesInBox_returns mesh eib (in_box_flags this mesh box) Hres)
    as [nib' Hnib']; [apply length_in_box_flags|done|].
  rewrite Hnib'. by eexists.
Qed.

(** An entry of the connectivity that is not a local node is met at
    [node_indices.find]: with the arrays long enough, that is the only way
    [getMeshInBox] fails. *)
Theorem getMeshInBox_unknown_node this mesh box junk :
  loadable this mesh →
  nodesPerElement mesh * length (elements mesh) ≤ length (connectivity mesh) →
  ¬ resolvable mesh →
  getMeshInBox this mesh box junk = Fail KeyNotFound.
Proof.
  intros Hload Hconn Hres. unfold getMeshInBox.
  destruct (nodesInBox_returns this mesh box junk Hload) as [nib Hnib].
  rewrite Hnib. simpl. apply nodesInBox_Ok in Hnib as ->.
  destruct (elementsInBox mesh (in_box_flags this mesh box)) as [eib|e] eqn:Heib.
  { exfalso. apply Hres, (elementsInBox_resolvable mesh (in_box_flags this mesh box)).
    by eexists. }
  simpl. f_equal. unfold elementsInBox in Heib. cbv zeta in Heib.
  apply for_each_Fail in Heib as (n & eib & Hn & Hbody).
  apply list_elem_of_In, in_seq in Hn.
  apply bind_Fail in Hbody as [Hrow|(fl & _ & ?)]; [|done].
  apply for_each_Fail in Hrow as (i & fl & Hi & Hbody).
  apply list_elem_of_In, in_seq in Hi.
  apply bind_Fail in Hbody as [Hfind|(m & Hm & Hget)].
  - unfold connected_node_index in Hfind.
    apply bind_Fail in Hfind as [Hget|(g & _ & Hfind)].
    + exfalso. destruct (array_get_lt (connectivity mesh)
                           (i * length (elements mesh) + n)) as (g & _ & Hg); [nia|].
      congruence.
    + unfold map_find in Hfind. destruct (_ !! g); congruence.
  - exfalso. apply connected_node_index_Ok, element_node_index_lt in Hm.
    apply bind_Fail in Hget as [Hget|(f & _ & ?)]; [|done].
    destruct (array_get_lt (in_box_flags this mesh box) m) as (f & _ & Hf).
    { by rewrite length_in_box_flags. }
    congruence.
Qed.

(** ** The node flags [getMeshInBox] returns *)

Lemma element_node_index_fun mesh n i m m' :
  element_node_index mesh n i m → element_node_index mesh n i m' → m = m'.
Proof. intros (g & Hg & Hm) (g' & Hg' & Hm'). congruence. Qed.

Lemma mark_element_flags mesh n (nodes_in_box nodes_in_box' : list Z) :
  for_range 0 (nodesPerElement mesh)
    (λ i nodes_in_box,
       node_index ← connected_node_index mesh (index_map (nodes mesh)) i n;
       array_set nodes_in_box node_index 1%Z)
    nodes_in_box = Ok nodes_in_box' →
  ∀ m f', nodes_in_box' !! m = Some f' →
    (f' = 1%Z ∧ ∃ i, i < nodesPerElement mesh ∧ element_node_index mesh n i m) ∨
    nodes_in_box !! m = Some f'.
Proof.
  apply (for_range_partial
           (λ k (nib : list Z),
              ∀ m f', nib !! m = Some f' →
                (f' = 1%Z ∧ ∃ i, i < k ∧ element_node_index mesh n i m) ∨
                nodes_in_box !! m = Some f')); [lia|by right|].
  intros k nib nib' Hk Hinv
    (mk & Hmk%connected_node_index_Ok & [Hlt ->]%array_set_Ok)%bind_Ok m f' Hf'.
  destruct (decide (m = mk)) as [->|Hne].
  - rewrite list_lookup_insert_eq in Hf' by done. injection Hf' as <-.
    left. split; [done|]. exists k. split; [lia|done].
  - rewrite list_lookup_insert_ne in Hf' by done.
    destruct (Hinv m f' Hf') as [(-> & i & Hi & Hm)|?]; [|by right].
    left. split; [done|]. exists i. split; [lia|done].
Qed.

Lemma expandNodesInBox_flags mesh elements_in_box (nodes_in_box nodes_in_box' : list Z) :
  expandNodesInBox mesh elements_in_box nodes_in_box = Ok nodes_in_box' →
  ∀ m f', nodes_in_box' !! m = Some f' →
    (f' = 1%Z ∧
     ∃ n flag i, n < length (elements mesh) ∧
                 elements_in_box !! n = Some flag ∧ flag ≠ 0%Z ∧
                 i < nodesPerElement mesh ∧ element_node_index mesh n i m) ∨
    nodes_in_box !! m = Some f'.
Proof.
  unfold expandNodesInBox. cbv zeta.
  apply (for_range_partial
           (λ k (nib : list Z),
              ∀ m f', nib !! m = Some f' →
                (f' = 1%Z ∧
                 ∃ n flag i, n < k ∧
                             elements_in_box !! n = Some flag ∧ flag ≠ 0%Z ∧
                             i < nodesPerElement mesh ∧
                             element_node_index mesh n i m) ∨
                nodes_in_box !! m = Some f')); [lia|by right|].
  intros k nib nib' Hk Hinv (flag & Hflag%array_get_Ok & Hbody)%bind_Ok m f' Hf'.
  case_decide as Hnz.
  - destruct (mark_element_flags _ _ _ _ Hbody m f' Hf') as [(-> & i & Hi & Hm)|Hold].
    + left. split; [done|]. exists k, flag, i. split_and!; [lia|done..].
    + destruct (Hinv m f' Hold) as [(-> & n & fl & i & Hn & ?)|?]; [|by right].
      left. split; [done|]. exists n, fl, i. split; [lia|done].
  - injection Hbody as <-.
    destruct (Hinv m f' Hf') as [(-> & n & fl & i & Hn & ?)|?]; [|by right].
    left. split; [done|]. exists n, fl, i. split; [lia|done].
Qed.

(** When [getMeshInBox] returns, [nodes_in_box] has one flag per node, each
    0 or 1, and the flag of a node is set exactly when the node is
    geometrically in the box or belongs to an element that has a node in the
    box. *)
Theorem getMeshInBox_active_nodes this mesh box junk nodes_in_box elements_in_box :
  getMeshInBox this mesh box junk = Ok (nodes_in_box, elements_in_box) →
  length nodes_in_box = length (nodes mesh) ∧
  ∀ m, m < length (nodes mesh) →
    ∃ f, nodes_in_box !! m = Some f ∧ (f = 0 ∨ f = 1)%Z ∧
         (f ≠ 0%Z ↔
          pointInBox box (node_point this mesh m) = true ∨
          ∃ n i, n < length (elements mesh) ∧ i < nodesPerElement mesh ∧
                 element_in_box this mesh box n ∧
                 element_node_index mesh n i m).
Proof.
  intros Hrun. pose proof Hrun as [Heib Hnib]%getMeshInBox_Ok.
  destruct (expandNodesInBox_Ok _ _ _ _ Hnib) as [Hlen Hactive].
  rewrite length_in_box_flags in Hlen. split; [done|]. intros m Hm.
  destruct (lookup_lt_is_Some_2 nodes_in_box m) as [f Hf]; [lia|].
  pose proof (in_box_flags_lookup this mesh box m Hm) as Hgeo.
  exists f. split; [done|].
  destruct (expandNodesInBox_flags _ _ _ _ Hnib m f Hf)
    as [(-> & n & flag & i & Hn & Hflag & Hnz & Hi & Hmi)|Hold].
  - split; [by right|]. split; [|done]. intros _. right. exists n, i.
    split_and!; [done|done| |done].
    by apply (element_flag_in_box _ _ _ _ _ _ _ _ Hrun Hflag).
  - rewrite Hgeo in Hold. injection Hold as <-.
    split; [destruct (pointInBox _ _); auto|]. split.
    + intros Hnz. left. by destruct (pointInBox _ _).
    + intros [Hbox|(n & i & Hn & Hi & Hin & Hmi)].
      * by rewrite Hbox.
      * apply elementsInBox_Ok in Heib as [Hlen' Hflags].
        destruct (Hflags n Hn) as (flag & Hflag & _ & _).
        assert (flag ≠ 0%Z) as Hnz
          by by apply (element_flag_in_box _ _ _ _ _ _ _ _ Hrun Hflag).
        destruct (Hactive n flag i Hn Hflag Hnz Hi) as (m' & Hm' & Hone).
        assert (m = m') as -> by by eapply element_node_index_fun.
        rewrite Hone in Hf. injection Hf as Hf. rewrite <- Hf. done.
Qed.

Lemma broken_mesh_not_resolvable : ¬ resolvable Example.broken_mesh.
Proof.
  intros Hres. destruct (Hres 0 1) as (g & Hg & Hin); [simpl; lia..|].
  injection Hg as <-. apply list_elem_of_In in Hin. simpl in Hin.
  destruct Hin as [?|[?|[]]]; discriminate.
Qed.

Lemma getMeshInBox_unknown_node_witness :
  getMeshInBox Example.facade Example.broken_mesh Example.box Example.junk
  = Fail KeyNotFound.
Proof.
  apply (getMeshInBox_unknown_node Example.facade Example.broken_mesh
           Example.box Example.junk).
  - right. simpl. lia.
  - simpl. lia.
  - exact broken_mesh_not_resolvable.
Defined.

Lemma getMeshInBox_active_nodes_witness :
  length [1; 1; 1; 0]%Z = length (nodes Example.mesh) ∧
  ∀ m, m < length (nodes Example.mesh) →
    ∃ f, [1; 1; 1; 0]%Z !! m = Some f ∧ (f = 0 ∨ f = 1)%Z ∧
         (f ≠ 0%Z ↔
          pointInBox Example.box (node_point Example.facade Example.mesh m)
            = true ∨
          ∃ n i, n < length (elements Example.mesh) ∧
                 i < nodesPerElement Example.mesh ∧
                 element_in_box Example.facade Example.mesh Example.box n ∧
                 element_node_index Example.mesh n i m).
Proof.
  apply (getMeshInBox_active_nodes Example.facade Example.mesh Example.box
           Example.junk [1; 1; 1; 0]%Z [1; 1; 0]%Z).
  reflexivity.
Defined.

(** ** Edge behaviour of the queries *)

Lemma load_point_overflow d coords stride n junk :
  3 < d → load_point d coords stride n junk = Fail OutOfRange.
Proof.
  intros Hd. destruct d as [|[|[|[|d]]]]; [lia..|]. load_point_cases; done.
Qed.

(** An input with fewer values than one point has takes neither query into
    its loop: both return an empty array, whatever the state of the trees. *)
Theorem queries_short_input this junk coords :
  1 ≤ d_node_dim this → length coords < d_node_dim this →
  getRendezvousProcs this junk coords = Ok [] ∧ getElements this coords = Ok [].
Proof.
  intros Hd Hlen. unfold getRendezvousProcs, getElements. cbv zeta.
  rewrite size_div_Ok by done. rewrite Nat.div_small by done.
  split; reflexivity.
Qed.

Lemma queries_short_input_witness :
  getRendezvousProcs Example.facade_no_trees Example.junk [PrimFloat.one] = Ok [] ∧
  getElements Example.facade_no_trees [PrimFloat.one] = Ok [].
Proof.
  apply (queries_short_input Example.facade_no_trees Example.junk [PrimFloat.one]);
    simpl; lia.
Defined.

(** With at least one point in the input, a query dereferences its tree in
    the first iteration: on a facade whose tree is null it fails there. *)
Theorem queries_null_tree this junk coords :
  1 ≤ d_node_dim this ≤ 3 → d_node_dim this ≤ length coords →
  (d_rcb this = None →
   getRendezvousProcs this junk coords = Fail NullReference) ∧
  (d_kdtree this = None → getElements this coords = Fail NullReference).
Proof.
  intros Hd Hlen.
  set (d := d_node_dim this) in *. set (N := length coords / d).
  pose proof (div_blocked (length coords) d ltac:(lia)) as HN. fold N in HN.
  assert (1 ≤ N) as HN1.
  { unfold N. apply Nat.div_str_pos. lia. }
  split; intros Hnull.
  - unfold getRendezvousProcs. fold d. rewrite size_div_Ok by lia. fold N.
    change (Ok N ≫= ?f) with (f N). cbv beta.
    rewrite for_range_first by lia.
    rewrite (load_point_total d coords N 0 junk)
      by (try lia; intros; apply (blocked_index d N); lia).
    rewrite Hnull. done.
  - unfold getElements. cbv zeta. fold d. rewrite size_div_Ok by lia. fold N.
    change (Ok N ≫= ?f) with (f N). cbv beta.
    rewrite for_range_first by lia.
    rewrite (load_array_total d N coords 0)
      by (try apply length_replicate; intros; apply (blocked_index d N); lia).
    rewrite Hnull. done.
Qed.

Lemma queries_null_tree_witness :
  getRendezvousProcs Example.facade_no_trees Example.junk Example.three_points
    = Fail NullReference ∧
  getElements Example.facade_no_trees Example.three_points
    = Fail NullReference.
Proof.
  destruct (queries_null_tree Example.facade_no_trees Example.junk
              Example.three_points) as [Hprocs Helements];
    [simpl; lia | simpl; lia |].
  split; [apply Hprocs | apply Helements]; reflexivity.
Defined.

(** A node dimension above 3 does not fit the three-slot buffer of
    [getRendezvousProcs]: with at least one point in the input the call
    writes past the buffer, whatever the partitioner.  [getElements] sizes
    its buffer by the dimension and still returns one entry per point. *)
Theorem queries_dimension_above_3 this t junk coords :
  3 < d_node_dim this → d_node_dim this ≤ length coords →
  d_kdtree this = Some t →
  getRendezvousProcs this junk coords = Fail OutOfRange ∧
  ∃ ids, getElements this coords = Ok ids ∧
         length ids = length coords / d_node_dim this.
Proof.
  intros Hd Hlen Ht. split.
  - unfold getRendezvousProcs. rewrite size_div_Ok by lia.
    change (Ok ?N ≫= ?f) with (f N). cbv beta.
    rewrite for_range_first by (apply Nat.div_str_pos; lia).
    by rewrite load_point_overflow.
  - eexists. split; [apply getElements_run; [lia|done]|].
    by rewrite length_map, length_seq.
Qed.

Lemma queries_dimension_above_3_witness :
  getRendezvousProcs Example.facade4 Example.junk Example.one_point4
    = Fail OutOfRange ∧
  ∃ ids, getElements Example.facade4 Example.one_point4 = Ok ids ∧
         length ids = length Example.one_point4 / d_node_dim Example.facade4.
Proof.
  apply (queries_dimension_above_3 Example.facade4 Example.kdtree Example.junk
           Example.one_point4); [simpl; lia | simpl; lia | reflexivity].
Defined.

(** ** The coordinate buffer of the planner *)

Lemma for_each_same_outcome {A S} (R : S → S → Prop)
    (body : A → S → result S) l s1 s2 :
  R s1 s2 →
  (∀ x a b, R a b → same_outcome R (body x a) (body x b)) →
  same_outcome R (for_each body l s1) (for_each body l s2).
Proof.
  intros HR Hbody. revert s1 s2 HR.
  induction l as [|x l IH]; intros s1 s2 HR; simpl; [done|].
  specialize (Hbody x s1 s2 HR).
  destruct (body x s1) as [a|e1], (body x s2) as [b|e2]; simpl in *;
    [by apply IH|done..].
Qed.

Lemma same_outcome_refl {S} (R : S → S → Prop) (r : result S) :
  (∀ s, R s s) → same_outcome R r r.
Proof. intros HR. destruct r; simpl; auto. Qed.

Lemma elementDestinations_junk this mesh elements_in_box junk1 junk2 :
  elementDestinations this mesh elements_in_box junk1
  = elementDestinations this mesh elements_in_box junk2.
Proof.
  unfold elementDestinations. cbv zeta.
  match goal with |- (?r1 ≫= _) = (?r2 ≫= _) =>
    assert (same_outcome same_sets r1 r2) as Hsame
  end.
  { unfold for_range. apply for_each_same_outcome; [done|].
    intros n [pa sa] [pb sb] Hab. unfold same_sets in Hab. simpl in Hab. subst sb.
    destruct (array_get elements_in_box n) as [flag|e]; simpl; [|done].
    case_decide; [|done].
    apply for_each_same_outcome; [done|].
    intros i [pc sc] [pd sd] Hcd. unfold same_sets in Hcd. simpl in Hcd. subst sd.
    simpl. destruct (connected_node_index _ _ i n) as [m|e]; simpl; [|done].
    rewrite (load_point_junk _ _ _ _ pc pd).
    by apply same_outcome_refl. }
  match goal with |- (?r1 ≫= _) = (?r2 ≫= _) =>
    destruct r1 as [[p1 o1]|e1], r2 as [[p2 o2]|e2]
  end; unfold same_sets in Hsame; simpl in *; congruence || done.
Qed.

Lemma nodesInBox_junk this mesh box junk1 junk2 :
  nodesInBox this mesh box junk1 = nodesInBox this mesh box junk2.
Proof.
  unfold nodesInBox. cbv zeta.
  apply (bind_snd_ext (for_range 0 _ _ _) (for_range 0 _ _ _)).
  apply for_each_junk. intros n j1 j2 o.
  by rewrite (load_point_junk _ _ _ _ j1 j2).
Qed.

(** [getMeshInBox] and [setupImportCommunication] declare [double
    node_coords[3]] without initialising it; what they return, and what the
    planner sends, does not depend on what the buffer held. *)
Theorem node_coords_buffer_overwritten this mesh box elements_in_box junk1 junk2 :
  getMeshInBox this mesh box junk1 = getMeshInBox this mesh box junk2 ∧
  setupImportCommunication this mesh elements_in_box junk1
  = setupImportCommunication this mesh elements_in_box junk2.
Proof.
  split.
  - unfold getMeshInBox. by rewrite (nodesInBox_junk this mesh box junk1 junk2).
  - unfold setupImportCommunication.
    by rewrite (elementDestinations_junk this mesh elements_in_box junk1 junk2).
Qed.

(** ** The filter makes the planner safe *)

(** Phase 2 resolved every node of every flagged element. *)
Lemma elementDestinations_defined this mesh elements_in_box junk sets n flag i :
  elementDestinations this mesh elements_in_box junk = Ok sets →
  n < length (elements mesh) → elements_in_box !! n = Some flag →
  flag ≠ 0%Z → i < nodesPerElement mesh →
  ∃ m, element_node_index mesh n i m.
Proof.
  unfold elementDestinations. cbv zeta.
  intros ([pt sets'] & Hloop & _)%bind_Ok Hn Hflag Hnz Hi.
  destruct (for_range_Ok_body _ _ _ _ _ n Hloop) as (s1 & s2 & Hbody); [lia|].
  apply bind_Ok in Hbody as (flag' & Hflag'%array_get_Ok & Hrow).
  assert (flag' = flag) as -> by congruence.
  rewrite decide_True in Hrow by done.
  destruct (for_range_Ok_body _ _ _ _ _ i Hrow) as ([p1 o1] & s4 & Hbody); [lia|].
  apply bind_Ok in Hbody as (m & Hm%connected_node_index_Ok & _). by exists m.
Qed.

Lemma elementDestinations_returns this rcb mesh elements_in_box junk :
  loadable this mesh → resolvable mesh → d_rcb this = Some rcb →
  length elements_in_box = length (elements mesh) →
  is_Ok (elementDestinations this mesh elements_in_box junk).
Proof.
  intros Hload Hres Hrcb Heib. unfold elementDestinations. cbv zeta.
  match goal with |- context [for_range 0 ?N ?b ?s] =>
    destruct (for_range_total
                (λ _ (st : Point3 * list (list Z)),
                   length st.2 = length (elements mesh)) 0 N b s)
      as ([pt sets] & -> & _)
  end; [lia|apply length_replicate| |by eexists].
  intros n st Hn Hlen.
  destruct (array_get_lt elements_in_box n) as (flag & _ & ->); [lia|]. simpl.
  case_decide; [|by eexists].
  apply (for_range_total
           (λ _ (st : Point3 * list (list Z)),
              length st.2 = length (elements mesh))); [lia|done|].
  intros i [pt sets] Hi Hlen'. cbn [snd] in Hlen'.
  destruct (resolvable_node_index mesh n i Hres) as [m Hm]; [lia|lia|].
  pose proof (element_node_index_lt _ _ _ _ Hm) as Hlt.
  apply connected_node_index_Ok in Hm. rewrite Hm. simpl.
  destruct Hload as [Hnil|[Hd Hcoords]]; [rewrite Hnil in Hlt; simpl in Hlt; lia|].
  rewrite load_point_total;
    [|done|intros; apply (blocked_index (d_node_dim this)); done || lia].
  simpl. rewrite Hrcb. simpl.
  destruct (lookup_lt_is_Some_2 sets n) as [s Hs]; [lia|].
  unfold array_modify, array_get. rewrite Hs. simpl.
  unfold array_set. rewrite decide_True by lia. simpl.
  eexists. split; [done|]. cbn [snd]. by rewrite length_insert.
Qed.

Lemma nodeDestinationsLoop_returns mesh export_elements export_element_procs sets :
  resolvable mesh →
  length export_elements ≤ length export_element_procs →
  (∀ e, e ∈ export_elements → e ∈ elements mesh) →
  length sets = length (nodes mesh) →
  is_Ok (nodeDestinationsLoop mesh (index_map (nodes mesh))
           (index_map (elements mesh)) export_elements export_element_procs sets).
Proof.
  intros Hres. revert export_element_procs sets.
  induction export_elements as [|e ee IH]; intros ep sets Hlen Hin Hsets; simpl.
  - by eexists.
  - destruct ep as [|p ep]; simpl in Hlen; [lia|].
    destruct (index_map_elem (elements mesh) e) as (n & Hn & Hlt);
      [apply Hin; left|].
    unfold map_find. rewrite Hn. simpl.
    match goal with |- context [for_range 0 ?N ?b ?s] =>
      destruct (for_range_total
                  (λ _ (st : list (list Z)), length st = length (nodes mesh))
                  0 N b s) as (sets1 & -> & Hsets1)
    end; [lia|done| |].
    + intros i sets0 Hi Hsets0.
      destruct (resolvable_node_index mesh n i Hres) as [m Hm]; [lia|lia|].
      pose proof (element_node_index_lt _ _ _ _ Hm) as Hmlt.
      apply connected_node_index_Ok in Hm. rewrite Hm. simpl.
      destruct (lookup_lt_is_Some_2 sets0 m) as [s Hs]; [lia|].
      unfold array_modify, array_get. rewrite Hs. simpl.
      unfold array_set. rewrite decide_True by lia.
      eexists. split; [done|]. by rewrite length_insert.
    + simpl. apply IH; [lia| |done]. intros e' He'. apply Hin. by right.
Qed.

Lemma setupImportCommunication_returns_on this rcb mesh elements_in_box junk
    import_elements import_nodes :
  loadable this mesh → resolvable mesh → d_rcb this = Some rcb →
  length elements_in_box = length (elements mesh) →
  ∃ sends rendezvous_nodes rendezvous_elements,
    run_rank (setupImportCommunication this mesh elements_in_box junk)
      [import_elements; import_nodes]
    = (sends, Some (Ok (rendezvous_nodes, rendezvous_elements))).
Proof.
  intros Hload Hres Hrcb Heib. unfold setupImportCommunication.
  destruct (elementDestinations_returns this rcb mesh elements_in_box junk)
    as [esets Hesets]; [done..|].
  rewrite Hesets. simpl.
  destruct (elementDestinations_Ok _ _ _ _ _ _ Hrcb Hesets) as [Hlen _].
  destruct (unroll_total (elements mesh) esets) as [[ee ep] Hun]; [lia|].
  rewrite Hun. simpl.
  destruct (nodeDestinationsLoop_returns mesh ee ep
              (replicate (length (nodes mesh)) [])) as [nsets Hnsets].
  { done. }
  { apply unroll_Ok in Hun as [-> _]. done. }
  { intros e. by apply (unroll_ids _ _ _ _ _ Hun). }
  { apply length_replicate. }
  unfold nodeDestinations. rewrite Hnsets. simpl.
  destruct (nodeDestinationsLoop_Ok _ _ _ _ _ Hnsets) as [Hnlen _].
  rewrite length_replicate in Hnlen.
  destruct (unroll_total (nodes mesh) nsets) as [[en np] Hun']; [lia|].
  rewrite Hun'. simpl. by eexists _, _, _.
Qed.

(** [build] hands the flags of [getMeshInBox] to the planner.  Once the
    filter has returned and the partitioner is in place, the planner cannot
    fail on that mesh: for every delivery of the two rounds it returns. *)
Theorem planner_returns_after_filter this rcb mesh box junk junk'
    nodes_in_box elements_in_box import_elements import_nodes :
  getMeshInBox this mesh box junk = Ok (nodes_in_box, elements_in_box) →
  d_rcb this = Some rcb →
  ∃ sends rendezvous_nodes rendezvous_elements,
    run_rank (setupImportCommunication this mesh elements_in_box junk')
      [import_elements; import_nodes]
    = (sends, Some (Ok (rendezvous_nodes, rendezvous_elements))).
Proof.
  intros Hbox Hrcb.
  destruct (getMeshInBox_Ok_conditions this mesh box junk) as [Hload Hres];
    [by eexists|].
  apply (setupImportCommunication_returns_on this rcb); [done..|].
  apply getMeshInBox_Ok in Hbox as [Heib _].
  by apply elementsInBox_Ok in Heib as [? _].
Qed.

Lemma planner_returns_after_filter_witness :
  ∃ sends rendezvous_nodes rendezvous_elements,
    run_rank (setupImportCommunication Example.facade Example.mesh [1; 1; 0]%Z
                Example.junk)
      [[40; 10]; [200; 100; 201; 101]]%Z
    = (sends, Some (Ok (rendezvous_nodes, rendezvous_elements))).
Proof.
  apply (planner_returns_after_filter Example.facade Example.rcb Example.mesh
           Example.box Example.junk Example.junk [1; 1; 1; 0]%Z [1; 1; 0]%Z);
    reflexivity.
Defined.

(** ** What a rank sends *)

(** The sends of a rank that returned, in terms of the two phases. *)
Lemma returned_sends this mesh elements_in_box junk received sends out :
  run_rank (setupImportCommunication this mesh elements_in_box junk) received
    = (sends, Some (Ok out)) →
  ∃ esets ee ep nsets en np import_elements import_nodes rest,
    sends = [(ee, ep); (en, np)] ∧
    received = import_elements :: import_nodes :: rest ∧
    out = (unique_list import_nodes, unique_list import_elements) ∧
    elementDestinations this mesh elements_in_box junk = Ok esets ∧
    unroll (elements mesh) esets = Ok (ee, ep) ∧
    nodeDestinations mesh ee ep = Ok nsets ∧
    unroll (nodes mesh) nsets = Ok (en, np).
Proof.
  destruct out as [rn re]. intros Hrun.
  destruct (setupImportCommunication_returns _ _ _ _ _ _ _ _ Hrun)
    as ([ee ep] & [en np] & ie & inn & rest & -> & -> & -> & ->).
  destruct (setupImportCommunication_round0 _ _ _ _ _ _ _ _ Hrun)
    as (esets & Hesets & Hun).
  destruct (setupImportCommunication_round1 _ _ _ _ _ _ _ _ _ _ Hrun)
    as (nsets & Hnsets & Hun').
  by exists esets, ee, ep, nsets, en, np, ie, inn, rest.
Qed.

(** The exported (node, rank) pairs are exactly the nodes of the exported
    elements, paired with the ranks of those elements. *)
Lemma node_exports_iff mesh ee ep nsets en np :
  nodeDestinations mesh ee ep = Ok nsets →
  unroll (nodes mesh) nsets = Ok (en, np) →
  ∀ g p, (g, p) ∈ zip en np ↔ ∃ e, (e, p) ∈ zip ee ep ∧ node_of mesh e g.
Proof.
  intros Hnsets Hun g p.
  destruct (nodeDestinations_Ok _ _ _ _ Hnsets) as [Hlen Hrows].
  destruct (unroll_Ok _ _ _ _ Hun) as [_ Hpairs].
  rewrite Hpairs. split.
  - intros (m & s & Hg & Hs & Hp).
    destruct (Hrows m) as (s' & Hs' & _ & Hmem); [by eapply lookup_lt_Some|].
    assert (s' = s) as -> by congruence.
    apply Hmem in Hp as (e & n & i & Hin & Hn & Hi & g' & Hg' & Hm).
    exists e. split; [done|]. exists n, i. split_and!; [done..|].
    apply index_map_slot in Hm. congruence.
  - intros (e & Hin & n & i & Hn & Hi & Hg).
    destruct (nodeDestinationsLoop_defined _ _ _ _ _ e p Hnsets Hin)
      as (n' & Hn' & Hdef).
    assert (n' = n) as -> by congruence.
    destruct (Hdef i Hi) as (m & g' & Hg' & Hm).
    assert (g' = g) as -> by congruence.
    destruct (Hrows m) as (s & Hs & _ & Hmem).
    { apply index_map_slot in Hm. by eapply lookup_lt_Some. }
    exists m, s. split_and!; [by apply index_map_slot|done|].
    apply Hmem. exists e, n, i. split_and!; [done..|]. by exists g.
Qed.

Lemma elem_of_zip_snd (l k : list Z) y :
  length l = length k → y ∈ k → ∃ x, (x, y) ∈ zip l k.
Proof.
  intros Hlen [j Hj]%list_elem_of_lookup.
  destruct (lookup_lt_is_Some_2 l j) as [x Hx].
  { rewrite Hlen. by eapply lookup_lt_Some. }
  exists x. apply elem_of_zip_lookup. eauto.
Qed.

(** Every rank the planner addresses, in either round, is the rank RCB gave
    to a node of a flagged element: the distributor is never handed a
    destination that the partitioner did not return. *)
Theorem exports_addressed_by_rcb this rcb mesh elements_in_box junk received
    export_elements export_element_procs export_nodes export_node_procs
    sends outcome p :
  d_rcb this = Some rcb →
  run_rank (setupImportCommunication this mesh elements_in_box junk) received
    = ((export_elements, export_element_procs)
         :: (export_nodes, export_node_procs) :: sends, outcome) →
  p ∈ export_element_procs ∨ p ∈ export_node_procs →
  ∃ n flag, n < length (elements mesh) ∧
            elements_in_box !! n = Some flag ∧ flag ≠ 0%Z ∧
            element_routes this rcb mesh n p.
Proof.
  intros Hrcb Hrun Hp.
  destruct (setupImportCommunication_round0 _ _ _ _ _ _ _ _ Hrun)
    as (esets & Hesets & Hun).
  destruct (setupImportCommunication_round1 _ _ _ _ _ _ _ _ _ _ Hrun)
    as (nsets & Hnsets & Hun').
  destruct (elementDestinations_Ok _ _ _ _ _ _ Hrcb Hesets) as [Hlen Hrows].
  destruct (unroll_Ok _ _ _ _ Hun) as [Hlen1 Hpairs].
  destruct (unroll_Ok _ _ _ _ Hun') as [Hlen2 _].
  assert (∃ e, (e, p) ∈ zip export_elements export_element_procs) as [e He].
  { destruct Hp as [Hp|Hp].
    - by apply elem_of_zip_snd.
    - destruct (elem_of_zip_snd export_nodes _ p Hlen2 Hp) as [g Hg].
      apply (node_exports_iff _ _ _ _ _ _ Hnsets Hun') in Hg as (e & He & _).
      by exists e. }
  apply Hpairs in He as (n & s & Hn & Hs & Hps).
  assert (n < length (elements mesh)) as Hlt by by eapply lookup_lt_Some.
  destruct (Hrows n Hlt) as (flag & s' & Hflag & Hs' & _ & _ & Hmem).
  assert (s' = s) as -> by congruence.
  destruct (proj1 (Hmem p) Hps) as [Hnz Hroute]. by exists n, flag.
Qed.

Lemma exports_addressed_by_rcb_witness :
  ∃ n flag, n < length (elements Example.mesh) ∧
            [1; 1; 0]%Z !! n = Some flag ∧ flag ≠ 0%Z ∧
            element_routes Example.facade Example.rcb Example.mesh n 1%Z.
Proof.
  apply (exports_addressed_by_rcb Example.facade Example.rcb Example.mesh
           [1; 1; 0]%Z Example.junk [[40; 10]]%Z
           [10; 10; 20]%Z [0; 1; 1]%Z
           [100; 100; 101; 101; 102]%Z [0; 1; 0; 1; 1]%Z [] None 1%Z);
    [reflexivity | reflexivity | left; apply list_elem_of_In; simpl; tauto].
Defined.

(** ** What a rank holds after the two rounds *)

Lemma rank_returned rk out :
  rank_outcome rk = Some (Ok out) →
  ∃ esets ee ep nsets en np import_elements import_nodes rest,
    rank_sends rk = [(ee, ep); (en, np)] ∧
    rank_received rk = import_elements :: import_nodes :: rest ∧
    out = (unique_list import_nodes, unique_list import_elements) ∧
    elementDestinations (rank_this rk) (rank_mesh rk) (rank_elements_in_box rk)
      (rank_node_coords rk) = Ok esets ∧
    unroll (elements (rank_mesh rk)) esets = Ok (ee, ep) ∧
    nodeDestinations (rank_mesh rk) ee ep = Ok nsets ∧
    unroll (nodes (rank_mesh rk)) nsets = Ok (en, np).
Proof.
  unfold rank_outcome, rank_sends, rank_program. intros Hout.
  destruct (run_rank _ (rank_received rk)) as [sends o] eqn:Hrun.
  simpl in Hout. subst o. by apply returned_sends in Hrun.
Qed.

Lemma ships_element_iff rk out e r :
  rank_outcome rk = Some (Ok out) →
  ships_element rk e r ↔
  (e, Z.of_nat r) ∈ zip (default ([], []) (rank_sends rk !! 0)).1
                        (default ([], []) (rank_sends rk !! 0)).2.
Proof.
  intros (? & ee & ep & ? & en & np & ? & ? & ? & Hsends & _)%rank_returned.
  unfold ships_element. rewrite Hsends. simpl. split.
  - by intros (? & ? & [= <- <-] & ?).
  - intros ?. by exists ee, ep.
Qed.

Lemma rendezvous_elements_iff (ranks : list RankRun) r rk rn re e :
  collective_run ranks →
  (∀ s sk, ranks !! s = Some sk → ∃ out, rank_outcome sk = Some (Ok out)) →
  ranks !! r = Some rk → rank_outcome rk = Some (Ok (rn, re)) →
  e ∈ re ↔ ∃ s sk, ranks !! s = Some sk ∧ ships_element sk e r.
Proof.
  intros Hrun Hall Hrk Hout.
  destruct (rank_returned _ _ Hout)
    as (_ & _ & _ & _ & _ & _ & ie & inn & rest & _ & Hrecv & [= -> ->] & _).
  pose proof (Hrun r rk 0 ie Hrk ltac:(by rewrite Hrecv)) as Hie.
  rewrite elem_of_unique_list, Hie, elem_of_allToAll. split.
  - intros (send & (s & sk & Hsk & ->)%elem_of_round_sends & Hpair).
    exists s, sk. split; [done|]. destruct (Hall s sk Hsk) as [out Hsk_out].
    by apply (ships_element_iff sk out).
  - intros (s & sk & Hsk & Hship). destruct (Hall s sk Hsk) as [out Hsk_out].
    exists (default ([], []) (rank_sends sk !! 0)). split.
    + apply elem_of_round_sends. by exists s, sk.
    + by apply (ships_element_iff sk out).
Qed.

Lemma rendezvous_nodes_iff (ranks : list RankRun) r rk rn re g :
  collective_run ranks →
  (∀ s sk, ranks !! s = Some sk → ∃ out, rank_outcome sk = Some (Ok out)) →
  ranks !! r = Some rk → rank_outcome rk = Some (Ok (rn, re)) →
  g ∈ rn ↔ ∃ s sk e, ranks !! s = Some sk ∧ ships_element sk e r ∧
                     node_of (rank_mesh sk) e g.
Proof.
  intros Hrun Hall Hrk Hout.
  destruct (rank_returned _ _ Hout)
    as (_ & _ & _ & _ & _ & _ & ie & inn & rest & _ & Hrecv & [= -> ->] & _).
  pose proof (Hrun r rk 1 inn Hrk ltac:(by rewrite Hrecv)) as Hinn.
  rewrite elem_of_unique_list, Hinn, elem_of_allToAll. split.
  - intros (send & (s & sk & Hsk & ->)%elem_of_round_sends & Hpair).
    destruct (Hall s sk Hsk) as [out Hsk_out].
    destruct (rank_returned _ _ Hsk_out)
      as (? & ee & ep & nsets & en & np & ? & ? & ? & Hsends & _ & _ & _ & _
            & Hnsets & Hun).
    rewrite Hsends in Hpair. simpl in Hpair.
    apply (node_exports_iff _ _ _ _ _ _ Hnsets Hun) in Hpair as (e & He & Hg).
    exists s, sk, e. split_and!; [done| |done].
    unfold ships_element. rewrite Hsends. by exists ee, ep.
  - intros (s & sk & e & Hsk & (ee' & ep' & Hee & Hpair) & Hg).
    destruct (Hall s sk Hsk) as [out Hsk_out].
    destruct (rank_returned _ _ Hsk_out)
      as (? & ee & ep & nsets & en & np & ? & ? & ? & Hsends & _ & _ & _ & _
            & Hnsets & Hun).
    rewrite Hsends in Hee. simpl in Hee. injection Hee as <- <-.
    exists (en, np). split.
    + apply elem_of_round_sends. exists s, sk. split; [done|]. by rewrite Hsends.
    + apply (node_exports_iff _ _ _ _ _ _ Hnsets Hun). by exists e.
Qed.

(** When the ranks of a communicator have run the planner together and all
    have returned, [rendezvous_elements] of a rank holds exactly the elements
    some rank shipped to it and [rendezvous_nodes] exactly the nodes those
    elements have on the ranks that shipped them: no element that was
    addressed to the rank is missing and no node is there without an element
    that it belongs to. *)
Theorem rendezvous_content (ranks : list RankRun) :
  collective_run ranks →
  (∀ s sk, ranks !! s = Some sk → ∃ out, rank_outcome sk = Some (Ok out)) →
  ∀ r rk rendezvous_nodes rendezvous_elements,
    ranks !! r = Some rk →
    rank_outcome rk = Some (Ok (rendezvous_nodes, rendezvous_elements)) →
    (∀ e, e ∈ rendezvous_elements ↔
          ∃ s sk, ranks !! s = Some sk ∧ ships_element sk e r) ∧
    (∀ g, g ∈ rendezvous_nodes ↔
          ∃ s sk e, ranks !! s = Some sk ∧ ships_element sk e r ∧
                    node_of (rank_mesh sk) e g) ∧
    (∀ g, g ∈ rendezvous_nodes →
          ∃ e, e ∈ rendezvous_elements ∧
               ∃ s sk, ranks !! s = Some sk ∧ ships_element sk e r ∧
                       node_of (rank_mesh sk) e g).
Proof.
  intros Hrun Hall r rk rn re Hrk Hout.
  split_and!.
  - intros e. by eapply rendezvous_elements_iff.
  - intros g. by eapply rendezvous_nodes_iff.
  - intros g Hg.
    apply (rendezvous_nodes_iff ranks r rk rn re g Hrun Hall Hrk Hout) in Hg
      as (s & sk & e & Hsk & Hship & Hnode).
    exists e. split; [|by exists s, sk].
    apply (rendezvous_elements_iff ranks r rk rn re e Hrun Hall Hrk Hout).
    by exists s, sk.
Qed.

Lemma rendezvous_content_witness :
  (∀ e, e ∈ [10; 40]%Z ↔
        ∃ s sk, [Example.rank0; Example.rank1] !! s = Some sk ∧
                ships_element sk e 0) ∧
  (∀ g, g ∈ [100; 101; 200; 201]%Z ↔
        ∃ s sk e, [Example.rank0; Example.rank1] !! s = Some sk ∧
                  ships_element sk e 0 ∧ node_of (rank_mesh sk) e g) ∧
  (∀ g, g ∈ [100; 101; 200; 201]%Z →
        ∃ e, e ∈ [10; 40]%Z ∧
             ∃ s sk, [Example.rank0; Example.rank1] !! s = Some sk ∧
                     ships_element sk e 0 ∧ node_of (rank_mesh sk) e g).
Proof.
  apply (rendezvous_content [Example.rank0; Example.rank1]
           collective_run_example all_return_example
           0 Example.rank0 [100; 101; 200; 201]%Z [10; 40]%Z);
    reflexivity.
Defined.

(** An element goes, with all its nodes, to the rank RCB gives to any one of
    its nodes: when the ranks have run the planner together and all have
    returned, a flagged element of a rank is in [rendezvous_elements] of the
    rank that owns the point of each of its nodes, and every node of the
    element is in [rendezvous_nodes] there. *)
Theorem element_on_the_rank_of_each_node (ranks : list RankRun)
    s sk rcb n e flag i m r rk rendezvous_nodes rendezvous_elements :
  collective_run ranks →
  (∀ s sk, ranks !! s = Some sk → ∃ out, rank_outcome sk = Some (Ok out)) →
  ranks !! s = Some sk →
  d_rcb (rank_this sk) = Some rcb →
  elements (rank_mesh sk) !! n = Some e →
  rank_elements_in_box sk !! n = Some flag → flag ≠ 0%Z →
  i < nodesPerElement (rank_mesh sk) →
  element_node_index (rank_mesh sk) n i m →
  getDestinationProc rcb (node_point (rank_this sk) (rank_mesh sk) m)
    = Z.of_nat r →
  ranks !! r = Some rk →
  rank_outcome rk = Some (Ok (rendezvous_nodes, rendezvous_elements)) →
  e ∈ rendezvous_elements ∧
  ∀ g, node_of (rank_mesh sk) e g → g ∈ rendezvous_nodes.
Proof.
  intros Hrun Hall Hsk Hrcb He Hflag Hnz Hi Hm Hroute Hrk Hout.
  assert (ships_element sk e r) as Hship.
  { destruct (Hall s sk Hsk) as [out Hsk_out].
    destruct (rank_returned _ _ Hsk_out)
      as (esets & ee & ep & ? & ? & ? & ? & ? & ? & Hsends & _ & _ & Hesets
            & Hun & _).
    unfold ships_element. rewrite Hsends. exists ee, ep. split; [done|].
    destruct (elementDestinations_Ok _ _ _ _ _ _ Hrcb Hesets) as [_ Hrows].
    destruct (Hrows n) as (flag' & set & Hflag' & Hset & _ & _ & Hmem);
      [by eapply lookup_lt_Some|].
    assert (flag' = flag) as -> by congruence.
    apply (unroll_Ok _ _ _ _ Hun). exists n, set. split_and!; [done..|].
    apply Hmem. split; [done|]. exists i, m. by rewrite Hroute. }
  split.
  - apply (rendezvous_elements_iff ranks r rk rendezvous_nodes
             rendezvous_elements e Hrun Hall Hrk Hout).
    by exists s, sk.
  - intros g Hg.
    apply (rendezvous_nodes_iff ranks r rk rendezvous_nodes
             rendezvous_elements g Hrun Hall Hrk Hout).
    by exists s, sk, e.
Qed.

Lemma element_on_the_rank_of_each_node_witness :
  10%Z ∈ [10; 20]%Z ∧
  ∀ g, node_of (rank_mesh Example.rank0) 10%Z g → g ∈ [100; 101; 102]%Z.
Proof.
  apply (element_on_the_rank_of_each_node [Example.rank0; Example.rank1]
           0 Example.rank0 Example.rcb 0 10%Z 1%Z 1 1 1 Example.rank1
           [100; 101; 102]%Z [10; 20]%Z
           collective_run_example all_return_example);
    try reflexivity; [discriminate | simpl; lia |].
  exists 101%Z. split; reflexivity.
Defined.

(** ** The outcome does not depend on the order of arrival *)

Lemma ascending_ext (s1 s2 : list Z) :
  ascending s1 → ascending s2 → (∀ x, x ∈ s1 ↔ x ∈ s2) → s1 = s2.
Proof.
  unfold ascending. intros H1. revert s2.
  induction H1 as [|a s1 Hs1 IH Ha]; intros s2 H2 Hext.
  - destruct s2 as [|b s2]; [done|].
    exfalso. eapply elem_of_nil, Hext. left.
  - destruct H2 as [|b s2 Hs2 Hb].
    { exfalso. eapply elem_of_nil, Hext. left. }
    rewrite Forall_forall in Ha, Hb.
    assert (a = b) as ->.
    { assert (a ∈ b :: s2) as [->|Hin]%elem_of_cons by (apply Hext; left); [done|].
      assert (b ∈ a :: s1) as [->|Hin']%elem_of_cons by (apply Hext; left); [done|].
      specialize (Ha _ Hin'). specialize (Hb _ Hin). lia. }
    f_equal. apply IH; [done|]. intros x. split; intros Hx.
    + assert (x ∈ b :: s2) as [->|?]%elem_of_cons by (apply Hext; by right);
        [|done].
      specialize (Ha _ Hx). lia.
    + assert (x ∈ b :: s1) as [->|?]%elem_of_cons by (apply Hext; by right);
        [|done].
      specialize (Hb _ Hx). lia.
Qed.

Lemma unique_list_ext (l1 l2 : list Z) :
  (∀ x, x ∈ l1 ↔ x ∈ l2) → unique_list l1 = unique_list l2.
Proof.
  intros Hext. apply ascending_ext; [apply unique_list_ascending..|].
  intros x. by rewrite !elem_of_unique_list.
Qed.

Lemma same_input_sends rk rk' out out' :
  same_input rk rk' →
  rank_outcome rk = Some (Ok out) → rank_outcome rk' = Some (Ok out') →
  rank_sends rk = rank_sends rk'.
Proof.
  intros (Hthis & Hmesh & Heib) Hout Hout'.
  destruct (rank_returned _ _ Hout)
    as (esets & ee & ep & nsets & en & np & ? & ? & ? & -> & _ & _ & Hesets
          & Hun & Hnsets & Hun2).
  destruct (rank_returned _ _ Hout')
    as (esets' & ee' & ep' & nsets' & en' & np' & ? & ? & ? & -> & _ & _
          & Hesets' & Hun' & Hnsets' & Hun2').
  rewrite <- Hthis, <- Hmesh, <- Heib in *.
  rewrite (elementDestinations_junk _ _ _ _ (rank_node_coords rk)) in Hesets'.
  assert (esets' = esets) as -> by congruence.
  assert (ee' = ee ∧ ep' = ep) as [-> ->] by (split; congruence).
  assert (nsets' = nsets) as -> by congruence.
  assert (en' = en ∧ np' = np) as [-> ->] by (split; congruence).
  done.
Qed.

Lemma same_input_round_sends ranks ranks' j :
  Forall2 same_input ranks ranks' →
  (∀ s sk, ranks !! s = Some sk → ∃ out, rank_outcome sk = Some (Ok out)) →
  (∀ s sk, ranks' !! s = Some sk → ∃ out, rank_outcome sk = Some (Ok out)) →
  round_sends ranks j = round_sends ranks' j.
Proof.
  intros Hsame Hall Hall'. unfold round_sends. apply list_eq. intros s.
  change (map ?f ?l) with (f <$> l). rewrite !list_lookup_fmap.
  destruct (ranks !! s) as [sk|] eqn:Hsk.
  - destruct (Forall2_lookup_l _ _ _ _ _ Hsame Hsk) as (sk' & Hsk' & Hin).
    rewrite Hsk'. simpl.
    destruct (Hall s sk Hsk) as [out Hout], (Hall' s sk' Hsk') as [out' Hout'].
    by rewrite (same_input_sends sk sk' out out').
  - destruct (ranks' !! s) as [sk'|] eqn:Hsk'; [|done].
    destruct (Forall2_lookup_r _ _ _ _ _ Hsame Hsk') as (sk & ? & _). congruence.
Qed.

(** The arrays a rank ends with are a function of what the ranks brought to
    the planner: two runs of the same communicator on the same facades,
    meshes and flags, in which every rank returned, give every rank the same
    [rendezvous_nodes] and [rendezvous_elements], whatever the order in which
    the items arrived and whatever the buffers held. *)
Theorem outcome_independent_of_arrival (ranks ranks' : list RankRun) r rk rk' :
  Forall2 same_input ranks ranks' →
  collective_run ranks → collective_run ranks' →
  (∀ s sk, ranks !! s = Some sk → ∃ out, rank_outcome sk = Some (Ok out)) →
  (∀ s sk, ranks' !! s = Some sk → ∃ out, rank_outcome sk = Some (Ok out)) →
  ranks !! r = Some rk → ranks' !! r = Some rk' →
  rank_outcome rk = rank_outcome rk'.
Proof.
  intros Hsame Hrun Hrun' Hall Hall' Hrk Hrk'.
  destruct (Hall r rk Hrk) as [out Hout], (Hall' r rk' Hrk') as [out' Hout'].
  rewrite Hout, Hout'. do 2 f_equal.
  destruct (rank_returned _ _ Hout)
    as (_ & _ & _ & _ & _ & _ & ie & inn & rest & _ & Hrecv & -> & _).
  destruct (rank_returned _ _ Hout')
    as (_ & _ & _ & _ & _ & _ & ie' & inn' & rest' & _ & Hrecv' & -> & _).
  pose proof (Hrun r rk 0 ie Hrk ltac:(by rewrite Hrecv)) as Hie.
  pose proof (Hrun r rk 1 inn Hrk ltac:(by rewrite Hrecv)) as Hinn.
  pose proof (Hrun' r rk' 0 ie' Hrk' ltac:(by rewrite Hrecv')) as Hie'.
  pose proof (Hrun' r rk' 1 inn' Hrk' ltac:(by rewrite Hrecv')) as Hinn'.
  rewrite <- (same_input_round_sends ranks ranks' 0 Hsame Hall Hall') in Hie'.
  rewrite <- (same_input_round_sends ranks ranks' 1 Hsame Hall Hall') in Hinn'.
  f_equal; apply unique_list_ext; intros x.
  - by rewrite Hinn, Hinn'.
  - by rewrite Hie, Hie'.
Qed.

Lemma same_input_example :
  Forall2 same_input [Example.rank0; Example.rank1]
    (deliver [Example.rank0; Example.rank1]).
Proof. repeat constructor. Qed.

Lemma all_return_deliver_example :
  ∀ s sk, deliver [Example.rank0; Example.rank1] !! s = Some sk →
          ∃ out, rank_outcome sk = Some (Ok out).
Proof.
  intros s sk Hs. destruct s as [|[|s]]; [| |done];
    injection Hs as <-; eexists; reflexivity.
Qed.

Lemma outcome_independent_of_arrival_witness :
  rank_outcome Example.rank0
  = rank_outcome
      (with_received Example.rank0 [[10; 40]; [100; 101; 200; 201]]%Z).
Proof.
  apply (outcome_independent_of_arrival [Example.rank0; Example.rank1]
           (deliver [Example.rank0; Example.rank1]) 0 Example.rank0
           (with_received Example.rank0 [[10; 40]; [100; 101; 200; 201]]%Z)
           same_input_example collective_run_example
           (deliver_collective_run [Example.rank0; Example.rank1])
           all_return_example all_return_deliver_example);
    reflexivity.
Defined.

(** ** The index maps, seen from the caller *)

(** [node_indices] and [element_indices] find every ordinal of the list they
    were filled from and no other; the slot found holds that ordinal, and is
    the last one that does when the ordinal is listed more than once. *)
Theorem index_map_finds_last_slot (ids : list Z) :
  (∀ g, g ∈ ids ↔ is_Ok (map_find (index_map ids) g)) ∧
  (∀ g m, map_find (index_map ids) g = Ok m ↔
          ids !! m = Some g ∧ ∀ j, m < j → ids !! j ≠ Some g) ∧
  (∀ g, g ∉ ids → map_find (index_map ids) g = Fail KeyNotFound).
Proof.
  split_and!.
  - intros g. split.
    + intros (m & Hm & _)%index_map_elem. exists m. by apply map_find_Ok.
    + intros [m Hm%map_find_Ok%index_map_slot].
      apply list_elem_of_lookup. by exists m.
  - intros g m. rewrite map_find_Ok. apply index_map_lookup.
  - intros g Hg. unfold map_find.
    destruct (index_map ids !! g) as [m|] eqn:Hm; [|done].
    exfalso. apply Hg, list_elem_of_lookup. exists m. by apply index_map_slot.
Qed.

(** ** One sender, one copy *)

Lemma zip_replicate_fmap (id : Z) (s : list Z) :
  zip (replicate (length s) id) s = (λ r, (id, r)) <$> s.
Proof. induction s as [|x s IH]; simpl; [done|]. by rewrite IH. Qed.

Lemma unroll_NoDup ids sets export_ids export_procs :
  unroll ids sets = Ok (export_ids, export_procs) →
  NoDup ids → Forall ascending sets →
  NoDup (zip export_ids export_procs).
Proof.
  revert ids export_ids export_procs.
  induction sets as [|s sets IH]; intros ids ee ep; simpl.
  - intros Heq _ _. simplify_eq. constructor.
  - destruct ids as [|id ids]; [done|].
    intros ([ee' ep'] & Hrec & Heq)%bind_Ok Hnd Hasc. simplify_eq.
    apply NoDup_cons in Hnd as [Hid Hnd]. apply Forall_cons in Hasc as [Hs Hasc].
    rewrite zip_with_app by apply length_replicate.
    apply NoDup_app. split_and!.
    + rewrite zip_replicate_fmap. apply NoDup_fmap_2; [|by apply ascending_NoDup].
      intros x y. congruence.
    + intros [e r] [-> _]%elem_of_zip_replicate He.
      apply elem_of_zip_l in He. apply Hid. by eapply unroll_ids.
    + by eapply IH.
Qed.

(** Because the destinations of an element, and of a node, are collected in
    a set before they are unrolled, a rank whose ordinals are distinct never
    hands the distributor the same (ordinal, rank) pair twice: copies of an
    element on a rendezvous rank always come from different senders. *)
Theorem exports_sent_once this rcb mesh elements_in_box junk received
    export_elements export_element_procs export_nodes export_node_procs
    sends outcome :
  d_rcb this = Some rcb →
  run_rank (setupImportCommunication this mesh elements_in_box junk) received
    = ((export_elements, export_element_procs)
         :: (export_nodes, export_node_procs) :: sends, outcome) →
  (NoDup (elements mesh) → NoDup (zip export_elements export_element_procs)) ∧
  (NoDup (nodes mesh) → NoDup (zip export_nodes export_node_procs)).
Proof.
  intros Hrcb Hrun.
  destruct (setupImportCommunication_round0 _ _ _ _ _ _ _ _ Hrun)
    as (esets & Hesets & Hun).
  destruct (setupImportCommunication_round1 _ _ _ _ _ _ _ _ _ _ Hrun)
    as (nsets & Hnsets & Hun').
  split; intros Hnd.
  - apply (unroll_NoDup _ _ _ _ Hun Hnd).
    destruct (elementDestinations_Ok _ _ _ _ _ _ Hrcb Hesets) as [Hlen Hrows].
    apply Forall_lookup. intros n s Hs.
    destruct (Hrows n) as (? & s' & _ & Hs' & Hasc & _).
    { rewrite <- Hlen. by eapply lookup_lt_Some. }
    congruence.
  - apply (unroll_NoDup _ _ _ _ Hun' Hnd).
    destruct (nodeDestinations_Ok _ _ _ _ Hnsets) as [Hlen Hrows].
    apply Forall_lookup. intros m s Hs.
    destruct (Hrows m) as (s' & Hs' & Hasc & _).
    { rewrite <- Hlen. by eapply lookup_lt_Some. }
    congruence.
Qed.

Lemma exports_sent_once_witness :
  NoDup (zip [10; 10; 20]%Z [0; 1; 1]%Z) ∧
  NoDup (zip [100; 100; 101; 101; 102]%Z [0; 1; 0; 1; 1]%Z).
Proof.
  split.
  - apply (proj1 (exports_sent_once Example.facade Example.rcb Example.mesh
                    [1; 1; 0]%Z Example.junk [[40; 10]]%Z
                    [10; 10; 20]%Z [0; 1; 1]%Z
                    [100; 100; 101; 101; 102]%Z [0; 1; 0; 1; 1]%Z [] None
                    eq_refl eq_refl)).
    apply (bool_decide_unpack _). vm_compute. reflexivity.
  - apply (proj2 (exports_sent_once Example.facade Example.rcb Example.mesh
                    [1; 1; 0]%Z Example.junk [[40; 10]]%Z
                    [10; 10; 20]%Z [0; 1; 1]%Z
                    [100; 100; 101; 101; 102]%Z [0; 1; 0; 1; 1]%Z [] None
                    eq_refl eq_refl)).
    apply (bool_decide_unpack _). vm_compute. reflexivity.
Defined.

(** * The polynomial bases *)

(** Where [operator()] exists, [size()] exists and is the number of values
    returned, the binomial coefficient of [DIM + degree] over [degree]; the
    values are the monomials in the coordinates of degree at most that of
    the basis, by degree and in lexicographic order within a degree.  So each
    basis starts with the one below it. *)
Theorem basis_is_graded_monomials basis DIM p values :
  MultivariatePolynomialBasis.call basis DIM p = Some values →
  MultivariatePolynomialBasis.size basis DIM
    = Some (Z.of_nat (length values)) ∧
  length values
    = Nat.div
        (fact (Z.to_nat DIM + MultivariatePolynomialBasis.degree basis))
        (fact (Z.to_nat DIM) * fact (MultivariatePolynomialBasis.degree basis)) ∧
  values = MultivariatePolynomialBasis.graded_monomials
             (MultivariatePolynomialBasis.degree basis) (Z.to_nat DIM) p.
Proof.
  unfold MultivariatePolynomialBasis.call, MultivariatePolynomialBasis.size.
  intros Hcall.
  assert (DIM = 2 ∨ DIM = 3)%Z as [-> | ->].
  { destruct basis, DIM as [|[[|[]|]|[]|]|]; try discriminate; auto. }
  - destruct basis; injection Hcall as <-; repeat split.
  - destruct basis; injection Hcall as <-; repeat split.
Qed.

Lemma basis_is_graded_monomials_witness :
  let p := MultivariatePolynomialBasis.example_point in
  let values := [PrimFloat.one; p 0%Z; p 1%Z; PrimFloat.mul (p 0%Z) (p 0%Z);
                 PrimFloat.mul (p 0%Z) (p 1%Z); PrimFloat.mul (p 1%Z) (p 1%Z)] in
  MultivariatePolynomialBasis.size MultivariatePolynomialBasis.Quadratic 2
    = Some 6%Z ∧
  length values = Nat.div (fact (2 + 2)) (fact 2 * fact 2) ∧
  values = MultivariatePolynomialBasis.graded_monomials 2 2 p.
Proof.
  intros p values.
  apply (basis_is_graded_monomials MultivariatePolynomialBasis.Quadratic 2
           p values).
  reflexivity.
Defined.

(** * The priority queue *)

Import Details.
Local Open Scope Z_scope.

(** ** The monad and the loops of the queue *)

Lemma checked_bind_Returns {A B} (m : checked A) (f : A → checked B) a :
  m = Returns a → m ≫= f = f a.
Proof. intros ->. reflexivity. Qed.

(** The loop rule: an invariant that every turn keeps, and a measure that
    every [Continue] lowers, below the fuel. *)
Lemma while_returns {St} (Inv Post : St → Prop) (measure : St → nat)
    (body : St → checked (loop St)) (fuel : nat) (s : St) :
  (∀ s, Inv s → ∃ r, body s = Returns r ∧
     match r with
     | Continue s' => Inv s' ∧ (measure s' < measure s)%nat
     | Break s' => Post s'
     end) →
  Inv s → (measure s < fuel)%nat →
  ∃ s', while fuel body s = Returns s' ∧ Post s'.
Proof.
  intros Hbody. revert s.
  induction fuel as [|fuel IH]; intros s Hs Hm; [lia|].
  destruct (Hbody s Hs) as (r & Hr & Hcase).
  simpl. rewrite Hr. simpl.
  destruct r as [s'|s'].
  - destruct Hcase as [Hs' Hlt]. apply IH; [done|lia].
  - eauto.
Qed.

(** ** Slots *)

Lemma slot_Some_bounds {T} (heap : list T) i x :
  slot heap i = Some x → 0 ≤ i < Z.of_nat (length heap).
Proof.
  unfold slot. destruct (decide (0 ≤ i)); [|done].
  intros H%lookup_lt_Some. lia.
Qed.

Lemma slot_is_Some {T} (heap : list T) i :
  0 ≤ i < Z.of_nat (length heap) → is_Some (slot heap i).
Proof.
  intros Hi. unfold slot. rewrite decide_True by lia.
  apply lookup_lt_is_Some. lia.
Qed.

Lemma slot_lookup {T} (heap : list T) i :
  0 ≤ i → slot heap i = heap !! Z.to_nat i.
Proof. intros Hi. unfold slot. by rewrite decide_True. Qed.

Lemma slot_insert_eq {T} (heap : list T) i x :
  0 ≤ i < Z.of_nat (length heap) → slot (<[Z.to_nat i := x]> heap) i = Some x.
Proof.
  intros Hi. rewrite slot_lookup by lia.
  apply list_lookup_insert_eq. lia.
Qed.

Lemma slot_insert_ne {T} (heap : list T) i j x :
  0 ≤ i → i ≠ j → slot (<[Z.to_nat i := x]> heap) j = slot heap j.
Proof.
  intros Hi Hij. unfold slot. destruct (decide (0 ≤ j)); [|done].
  apply list_lookup_insert_ne. lia.
Qed.

Lemma heap_get_Returns {T} (heap : list T) i x :
  slot heap i = Some x → heap_get heap i = Returns x.
Proof. unfold heap_get. by intros ->. Qed.

Lemma heap_set_Returns {T} (heap : list T) i x :
  0 ≤ i < Z.of_nat (length heap) →
  heap_set heap i x = Returns (<[Z.to_nat i := x]> heap).
Proof.
  intros Hi. unfold heap_set.
  by destruct (slot_is_Some heap i Hi) as [y ->].
Qed.

(** The parent of a slot, and the two children of a slot. *)
Lemma parent_bounds i : 0 < i → 0 ≤ (i - 1) `quot` 2 < i.
Proof.
  intros Hi. rewrite Z.quot_div_nonneg by lia.
  Z.div_mod_to_equations. lia.
Qed.

Lemma parent_child i p :
  0 < i → (i - 1) `quot` 2 = p ↔ i = 2 * p + 1 ∨ i = 2 * p + 2.
Proof.
  intros Hi. rewrite Z.quot_div_nonneg by lia.
  Z.div_mod_to_equations. lia.
Qed.

(** ** Strict weak orderings *)

Lemma strict_weak_order_asym {T} (compare : T → T → bool) x y :
  strict_weak_order compare → compare x y = true → compare y x = false.
Proof.
  intros (Hirr & Htrans & _) Hxy.
  destruct (compare y x) eqn:Hyx; [|done].
  by rewrite <- (Hirr x), (Htrans x y x).
Qed.

(** Below the larger of two, below the smaller one is excluded. *)
Lemma strict_weak_order_below {T} (compare : T → T → bool) x y z :
  strict_weak_order compare →
  compare x y = true → compare x z = false → compare y z = false.
Proof.
  intros (Hirr & Htrans & _) Hxy Hxz.
  destruct (compare y z) eqn:Hyz; [|done].
  by rewrite <- Hxz, (Htrans x y z).
Qed.

Lemma Less_strict_weak_order : strict_weak_order Less.
Proof.
  unfold Less. split_and!.
  - intros x. apply bool_decide_eq_false. lia.
  - intros x y z Hxy%bool_decide_eq_true Hyz%bool_decide_eq_true.
    apply bool_decide_eq_true. lia.
  - intros x y z Hxy%bool_decide_eq_false Hyz%bool_decide_eq_false.
    apply bool_decide_eq_false. lia.
Qed.

(** ** Moving the hole *)

Lemma delete_insert_same {T} (l : list T) i x :
  delete i (<[i := x]> l) = delete i l.
Proof.
  revert i. induction l as [|y l IH]; intros [|i]; simpl; try done.
  by rewrite IH.
Qed.

Lemma insert_Permutation {T} (l : list T) (i : nat) x :
  (i < length l)%nat → <[i := x]> l ≡ₚ x :: delete i l.
Proof.
  intros Hi. rewrite <- (delete_insert_same l i x).
  apply delete_Permutation. by apply list_lookup_insert_eq.
Qed.

(** Copying slot [j] over the hole [i] moves the hole to [j]. *)
Lemma hole_moves {T} (l : list T) (i j : nat) v :
  i ≠ j → (i < length l)%nat → l !! j = Some v →
  delete j (<[i := v]> l) ≡ₚ delete i l.
Proof.
  intros Hij Hi Hj.
  apply (Permutation_cons_inv (a := v)).
  rewrite <- (insert_Permutation l i v) by done.
  symmetry. apply delete_Permutation.
  by rewrite list_lookup_insert_ne.
Qed.

Lemma delete_last_take {T} (l : list T) (m : nat) :
  length l = S m → delete m l = take m l.
Proof.
  intros Hl. rewrite delete_take_drop, drop_ge by lia.
  by rewrite app_nil_r.
Qed.

Lemma ordered_upto_mono {T} (compare : T → T → bool) heap m m' :
  m' ≤ m → ordered_upto compare heap m → ordered_upto compare heap m'.
Proof. intros Hm H i x p Hi. apply H. lia. Qed.

(** ** [push] *)

Lemma up_heap_turn {T} (compare : T → T → bool) (elem : T) heap0 n s :
  0 ≤ n < Z.of_nat (length heap0) →
  up_heap_inv compare elem heap0 n s →
  ∃ r, up_heap compare elem s = Returns r ∧
    match r with
    | Continue s' =>
        up_heap_inv compare elem heap0 n s' ∧ (Z.to_nat s'.2 < Z.to_nat s.2)%nat
    | Break s' => up_heap_post compare elem heap0 n s'
    end.
Proof.
  intros Hn. destruct s as [heap pos]. intros (Hlen & Hpos & Hperm & Hord).
  unfold up_heap. case_bool_decide as Hgt; cycle 1.
  { eexists; split; [done|]. split; [done|]. left. simpl. lia. }
  pose proof (parent_bounds pos ltac:(lia)) as Hpar.
  set (parent := (pos - 1) `quot` 2) in *.
  destruct (slot_is_Some heap parent ltac:(lia)) as [p Hp].
  rewrite (heap_get_Returns _ _ _ Hp). simpl.
  destruct (compare p elem) eqn:Hcmp; simpl; cycle 1.
  { eexists; split; [done|]. split; [done|]. right. eauto. }
  rewrite heap_set_Returns by lia. simpl.
  eexists; split; [done|]. simpl. split; [|lia].
  split; [|split; [|split]].
  - by rewrite length_insert.
  - lia.
  - rewrite take_insert_lt by lia. rewrite <- Hperm.
    apply hole_moves; [lia| |].
    + rewrite length_take. lia.
    + rewrite lookup_take_lt by lia. by rewrite <- slot_lookup by lia.
  - intros Hswo Hord0. right.
    specialize (Hord Hswo Hord0).
    pose proof Hswo as (Hirr & Htrans & Hneg).
    split.
    + intros i x y Hi Hx Hy.
      pose proof (parent_bounds i ltac:(lia)) as Hpi.
      destruct (decide (i = pos)) as [->|Hne].
      * rewrite slot_insert_eq in Hx by lia.
        rewrite slot_insert_ne in Hy by lia.
        fold parent in Hy. by simplify_eq.
      * rewrite slot_insert_ne in Hx by lia.
        destruct (decide ((i - 1) `quot` 2 = pos)) as [Heq|Hne'].
        -- rewrite Heq in Hy. rewrite slot_insert_eq in Hy by lia.
           assert (y = p) as -> by congruence.
           destruct Hord as [[Hposn _]|[Hord _]]; [lia|].
           destruct (slot_is_Some heap pos ltac:(lia)) as [v Hv].
           apply (Hneg _ v).
           ++ apply (Hord pos); [lia|done|done].
           ++ apply (Hord i); [lia|done|by rewrite Heq].
        -- rewrite slot_insert_ne in Hy by lia.
           destruct Hord as [[-> Hord]|[Hord _]];
             apply (Hord i); try done; lia.
    + exists p. split; [|done].
      by rewrite slot_insert_ne by lia.
Qed.

Lemma push_spec {T} (q : PriorityQueue T) (elem : T) :
  well_sized q → _size q < _max_size →
  ∃ q', push q elem = Returns q' ∧
    well_sized q' ∧ _size q' = _size q + 1 ∧ _compare q' = _compare q ∧
    contents q' ≡ₚ elem :: contents q ∧
    (strict_weak_order (_compare q) → heap_ordered q → heap_ordered q').
Proof.
  destruct q as [heap0 n compare].
  unfold well_sized, heap_ordered, contents, push, _max_size.
  cbn [_size _heap _compare]. intros [Hlen Hn] Hlt.
  rewrite bool_decide_true by done.
  destruct (while_returns (up_heap_inv compare elem heap0 n)
              (up_heap_post compare elem heap0 n) (λ s, Z.to_nat s.2)
              (up_heap compare elem) (S (Z.to_nat n)) (heap0, n))
    as ([heap pos] & -> & (Hlen' & Hpos & Hperm & Hord) & Hstop).
  { intros s. apply up_heap_turn. lia. }
  { split; [|split; [|split]]; [done|lia| |].
    - rewrite delete_last_take.
      + by rewrite take_take, Nat.min_l by lia.
      + rewrite length_take. lia.
    - intros _ Hord. by left. }
  { simpl. lia. }
  simpl in Hstop. simpl.
  rewrite heap_set_Returns by lia. simpl.
  eexists; split; [done|]. cbn [_size _heap _compare].
  split; [|split; [|split; [|split]]]; try done.
  - split; [by rewrite length_insert, Hlen'|lia].
  - replace (Z.to_nat (n + 1)) with (S (Z.to_nat n)) by lia.
    rewrite take_insert_lt by lia.
    rewrite insert_Permutation by (rewrite length_take; lia).
    by rewrite Hperm.
  - intros Hswo Hord0. specialize (Hord Hswo Hord0).
    pose proof Hswo as (Hirr & Htrans & Hneg).
    intros i x y Hi Hx Hy.
    pose proof (parent_bounds i ltac:(lia)) as Hpi.
    destruct (decide (i = pos)) as [->|Hne].
    + rewrite slot_insert_eq in Hx by lia.
      rewrite slot_insert_ne in Hy by lia.
      destruct Hstop as [?|(p & Hp & Hcmp)]; [lia|]. by simplify_eq.
    + rewrite slot_insert_ne in Hx by lia.
      destruct (decide ((i - 1) `quot` 2 = pos)) as [Heq|Hne'].
      * rewrite Heq in Hy. rewrite slot_insert_eq in Hy by lia.
        assert (y = elem) as -> by congruence.
        destruct Hord as [[Hposn _]|[Hord (v & Hv & Hcmp)]]; [lia|].
        apply (strict_weak_order_below _ v); [done..|].
        apply (Hord i); [lia|done|by rewrite Heq].
      * rewrite slot_insert_ne in Hy by lia.
        destruct Hord as [[Hposn Hord]|[Hord _]];
          apply (Hord i); try done; lia.
Qed.

(** ** [pop] *)

Lemma pick_children {T} (compare : T → T → bool) (heap : list T) n pos last :
  0 ≤ pos → 0 < n ≤ Z.of_nat (length heap) → slot heap (n - 1) = Some last →
  ∃ next,
    for_in (pick_child compare heap n) [2 * pos + 1; 2 * pos + 2] (n - 1)
      = Returns next ∧
    ((next = n - 1 ∧ above_children compare heap n pos last) ∨
     ((next = 2 * pos + 1 ∨ next = 2 * pos + 2) ∧ next < n - 1 ∧
      ∃ b, slot heap next = Some b ∧
        (strict_weak_order compare →
         compare last b = true ∧ above_children compare heap n pos b))).
Proof.
  intros Hpos Hn Hlast. unfold for_in, pick_child, above_children.
  destruct (decide (2 * pos + 1 < n - 1)) as [Hleft|Hleft]; cycle 1.
  { rewrite (bool_decide_eq_false_2 _ Hleft).
    rewrite (bool_decide_eq_false_2 (2 * pos + 2 < n - 1)) by lia.
    eexists; split; [done|]. left. split; [done|]. intros; lia. }
  rewrite (bool_decide_eq_true_2 _ Hleft).
  rewrite (heap_get_Returns _ _ _ Hlast). cbn [mbind checked_bind].
  destruct (slot_is_Some heap (2 * pos + 1) ltac:(lia)) as [l Hl].
  rewrite (heap_get_Returns _ _ _ Hl). cbn [mbind checked_bind].
  destruct (compare last l) eqn:Hcl; cbn [mbind checked_bind].
  - destruct (decide (2 * pos + 2 < n - 1)) as [Hright|Hright]; cycle 1.
    { rewrite (bool_decide_eq_false_2 _ Hright).
      eexists; split; [done|]. right.
      split; [by left|]. split; [done|]. exists l. split; [done|].
      intros (Hirr & _). split; [done|].
      intros child x [->| ->] ? Hx; [|lia]. by simplify_eq. }
    rewrite (bool_decide_eq_true_2 _ Hright).
    rewrite (heap_get_Returns _ _ _ Hl). cbn [mbind checked_bind].
    destruct (slot_is_Some heap (2 * pos + 2) ltac:(lia)) as [r Hr].
    rewrite (heap_get_Returns _ _ _ Hr). cbn [mbind checked_bind].
    destruct (compare l r) eqn:Hlr; cbn [mbind checked_bind].
    + eexists; split; [done|]. right.
      split; [by right|]. split; [done|]. exists r. split; [done|].
      intros Hswo. pose proof Hswo as (Hirr & Htrans & _).
      split; [by apply (Htrans _ l)|].
      intros child x [->| ->] ? Hx; simplify_eq; [|done].
      by apply strict_weak_order_asym.
    + eexists; split; [done|]. right.
      split; [by left|]. split; [done|]. exists l. split; [done|].
      intros (Hirr & _). split; [done|].
      intros child x [->| ->] ? Hx; by simplify_eq.
  - destruct (decide (2 * pos + 2 < n - 1)) as [Hright|Hright]; cycle 1.
    { rewrite (bool_decide_eq_false_2 _ Hright).
      eexists; split; [done|]. left. split; [done|].
      intros child x [->| ->] ? Hx; [|lia]. by simplify_eq. }
    rewrite (bool_decide_eq_true_2 _ Hright).
    rewrite (heap_get_Returns _ _ _ Hlast). cbn [mbind checked_bind].
    destruct (slot_is_Some heap (2 * pos + 2) ltac:(lia)) as [r Hr].
    rewrite (heap_get_Returns _ _ _ Hr). cbn [mbind checked_bind].
    destruct (compare last r) eqn:Hcr; cbn [mbind checked_bind].
    + eexists; split; [done|]. right.
      split; [by right|]. split; [done|]. exists r. split; [done|].
      intros Hswo. pose proof Hswo as (Hirr & _).
      split; [done|].
      intros child x [->| ->] ? Hx; simplify_eq; [|done].
      by apply (strict_weak_order_below _ last).
    + eexists; split; [done|]. left. split; [done|].
      intros child x [->| ->] ? Hx; by simplify_eq.
Qed.

Lemma down_heap_turn {T} (compare : T → T → bool) heap0 n last s :
  0 < n ≤ Z.of_nat (length heap0) →
  down_heap_inv compare heap0 n last s →
  ∃ r, down_heap compare n s = Returns r ∧
    match r with
    | Continue s' =>
        down_heap_inv compare heap0 n last s' ∧
        (Z.to_nat (n - s'.2) < Z.to_nat (n - s.2))%nat
    | Break s' => down_heap_post compare heap0 n last s'
    end.
Proof.
  intros Hn. destruct s as [heap pos].
  intros (Hlen & Hpos & Hlt & Hlast & Hperm & Hord).
  unfold down_heap.
  destruct (pick_children compare heap n pos last)
    as (next & -> & Hnext); [lia|lia|done|].
  cbn [mbind checked_bind].
  destruct Hnext as [[-> Habove]|(Hchild & Hnext & b & Hb & Hsel)].
  { rewrite bool_decide_true by done.
    eexists; split; [done|]. split; [|done]. by split_and!. }
  rewrite bool_decide_false by lia.
  rewrite (heap_get_Returns _ _ _ Hb). cbn [mbind checked_bind].
  rewrite heap_set_Returns by lia. cbn [mbind checked_bind].
  eexists; split; [done|]. cbn [fst snd]. split; [|lia].
  unfold down_heap_inv.
  split; [|split; [|split; [|split; [|split]]]].
  - by rewrite length_insert.
  - lia.
  - by right.
  - by rewrite slot_insert_ne by lia.
  - rewrite take_insert_lt by lia. rewrite <- Hperm.
    apply hole_moves; [lia| |].
    + rewrite length_take. lia.
    + rewrite lookup_take_lt by lia. by rewrite <- slot_lookup by lia.
  - intros Hswo Hord0. destruct (Hord Hswo Hord0) as [Hheap Hup].
    destruct (Hsel Hswo) as [Hlb Habove].
    pose proof Hswo as (Hirr & Htrans & Hneg).
    assert ((next - 1) `quot` 2 = pos) as Hparent
      by (apply (proj2 (parent_child next pos ltac:(lia))); done).
    split.
    + intros i x y Hi Hx Hy.
      pose proof (parent_bounds i ltac:(lia)) as Hpi.
      destruct (decide (i = pos)) as [->|Hne].
      * rewrite slot_insert_eq in Hx by lia.
        rewrite slot_insert_ne in Hy by lia.
        assert (x = b) as -> by congruence.
        destruct (slot_is_Some heap pos ltac:(lia)) as [v Hv].
        apply (Hneg _ v).
        -- apply (Hheap pos); [lia|done|done].
        -- apply (Hheap next); [lia|done|by rewrite Hparent].
      * rewrite slot_insert_ne in Hx by lia.
        destruct (decide ((i - 1) `quot` 2 = pos)) as [Heq|Hne'].
        -- rewrite Heq in Hy. rewrite slot_insert_eq in Hy by lia.
           assert (y = b) as -> by congruence.
           apply (Habove i); [|lia|done].
           by apply (proj1 (parent_child i pos ltac:(lia))).
        -- rewrite slot_insert_ne in Hy by lia.
           apply (Hheap i); [lia|done|done].
    + right. exists b. rewrite Hparent.
      split; [by rewrite slot_insert_eq by lia|].
      by apply strict_weak_order_asym.
Qed.

Lemma pop_spec {T} (q : PriorityQueue T) :
  length (_heap q) = Z.to_nat _max_size → 0 < _size q ≤ _max_size →
  ∃ q' t, pop q = Returns q' ∧ slot (_heap q) 0 = Some t ∧
    length (_heap q') = Z.to_nat _max_size ∧
    _size q' = _size q - 1 ∧ _compare q' = _compare q ∧
    contents q ≡ₚ t :: contents q' ∧
    (strict_weak_order (_compare q) →
     ordered_upto (_compare q) (_heap q) (_size q - 1) → heap_ordered q').
Proof.
  destruct q as [heap0 n compare].
  unfold heap_ordered, contents, pop, _max_size.
  cbn [_size _heap _compare]. intros Hlen Hn.
  rewrite bool_decide_true by lia.
  destruct (slot_is_Some heap0 (n - 1) ltac:(lia)) as [last Hlast].
  destruct (slot_is_Some heap0 0 ltac:(lia)) as [t Ht].
  destruct (while_returns (down_heap_inv compare heap0 n last)
              (down_heap_post compare heap0 n last)
              (λ s, Z.to_nat (n - s.2))
              (down_heap compare n) (S (Z.to_nat n)) (heap0, 0))
    as ([heap pos] & -> &
        (Hlen' & Hpos & Hlt & Hlast' & Hperm & Hord) & Habove).
  { intros s. apply down_heap_turn. lia. }
  { split; [|split; [|split; [|split; [|split]]]]; try done.
    - by left.
    - intros _ Hord. split; [done|by left]. }
  { simpl. lia. }
  simpl in Habove. simpl.
  rewrite (heap_get_Returns _ _ _ Hlast'). simpl.
  rewrite heap_set_Returns by lia. simpl.
  exists {| _heap := <[Z.to_nat pos := last]> heap; _size := n - 1;
            _compare := compare |}, t.
  cbn [_size _heap _compare].
  split; [done|]. split; [done|].
  split; [by rewrite length_insert, Hlen'|].
  split; [done|]. split; [done|]. split.
  - rewrite (delete_Permutation (take (Z.to_nat n) heap0) 0 t); cycle 1.
    { rewrite lookup_take_lt by lia. by rewrite slot_lookup in Ht. }
    apply Permutation_cons; [done|]. rewrite <- Hperm.
    destruct (decide (pos = n - 1)) as [Heq|Hne].
    + assert (n = 1) as -> by lia. assert (pos = 0) as -> by lia.
      simpl. by destruct heap.
    + rewrite <- (hole_moves (take (Z.to_nat n) heap) (Z.to_nat pos)
                   (Z.to_nat (n - 1)) last); cycle 1.
      { lia. }
      { rewrite length_take. lia. }
      { rewrite lookup_take_lt by lia. by rewrite <- slot_lookup by lia. }
      rewrite delete_last_take; cycle 1.
      { rewrite length_insert, length_take. lia. }
      rewrite <- take_insert_lt by lia.
      by rewrite take_take, Nat.min_l by lia.
  - intros Hswo Hord0. destruct (Hord Hswo Hord0) as [Hheap Hup].
    intros i x y Hi Hx Hy.
    pose proof (parent_bounds i ltac:(lia)) as Hpi.
    destruct (decide (i = pos)) as [->|Hne].
    + rewrite slot_insert_eq in Hx by lia.
      rewrite slot_insert_ne in Hy by lia.
      destruct Hup as [?|(p & Hp & Hcmp)]; [lia|]. congruence.
    + rewrite slot_insert_ne in Hx by lia.
      destruct (decide ((i - 1) `quot` 2 = pos)) as [Heq|Hne'].
      * rewrite Heq in Hy. rewrite slot_insert_eq in Hy by lia.
        assert (y = last) as -> by congruence.
        apply (Habove i); [|lia|done].
        by apply (proj1 (parent_child i pos ltac:(lia))).
      * rewrite slot_insert_ne in Hy by lia.
        apply (Hheap i); [lia|done|done].
Qed.

(** ** What the asserts decide *)

Lemma push_asserts {T} (q : PriorityQueue T) elem :
  ¬ _size q < _max_size → push q elem = Faults AssertionFailed.
Proof. intros H. unfold push. by rewrite bool_decide_false. Qed.

Lemma pop_asserts {T} (q : PriorityQueue T) :
  ¬ _size q > 0 → pop q = Faults AssertionFailed.
Proof. intros H. unfold pop. by rewrite bool_decide_false. Qed.

Lemma pop_push_asserts {T} (q : PriorityQueue T) elem :
  ¬ _size q < _max_size → pop_push q elem = Faults AssertionFailed.
Proof. intros H. unfold pop_push. by rewrite bool_decide_false. Qed.

Lemma push_Returns_inv {T} (q q' : PriorityQueue T) elem :
  push q elem = Returns q' → _size q < _max_size.
Proof.
  intros H. destruct (decide (_size q < _max_size)) as [|Hn]; [done|].
  by rewrite push_asserts in H.
Qed.

Lemma pop_Returns_inv {T} (q q' : PriorityQueue T) :
  pop q = Returns q' → 0 < _size q.
Proof.
  intros H. destruct (decide (_size q > 0)) as [|Hn]; [lia|].
  by rewrite pop_asserts in H.
Qed.

Lemma pop_push_Returns_inv {T} (q q' : PriorityQueue T) elem :
  pop_push q elem = Returns q' → _size q < _max_size.
Proof.
  intros H. destruct (decide (_size q < _max_size)) as [|Hn]; [done|].
  by rewrite pop_push_asserts in H.
Qed.

Lemma top_Returns {T} (q : PriorityQueue T) t :
  top q = Returns t ↔ 0 < _size q ∧ slot (_heap q) 0 = Some t.
Proof.
  unfold top, heap_get. case_bool_decide as Hn; simpl.
  - destruct (slot (_heap q) 0); split.
    + intros [= ->]. split; [lia|done].
    + by intros [_ [= ->]].
    + done.
    + by intros [_ ?].
  - split; [done|]. intros [? _]. lia.
Qed.

Lemma slot_contents {T} (q : PriorityQueue T) i x :
  0 ≤ i < _size q → slot (_heap q) i = Some x → x ∈ contents q.
Proof.
  intros Hi Hx. apply elem_of_take. exists (Z.to_nat i).
  rewrite <- slot_lookup by lia. split; [done|lia].
Qed.

(** ** [pop_push] *)

Lemma pop_push_spec {T} (q : PriorityQueue T) (elem : T) :
  well_sized q → _size q < _max_size →
  ∃ q', pop_push q elem = Returns q' ∧
    well_sized q' ∧ _size q' = _size q ∧ _compare q' = _compare q ∧
    (∀ t, 0 < _size q → slot (_heap q) 0 = Some t →
          t :: contents q' ≡ₚ elem :: contents q) ∧
    (strict_weak_order (_compare q) → heap_ordered q → heap_ordered q').
Proof.
  destruct q as [heap0 n compare].
  unfold well_sized, heap_ordered, contents, pop_push, _max_size.
  cbn [_size _heap _compare]. intros [Hlen Hn] Hlt.
  rewrite bool_decide_true by done. cbn [mbind checked_bind assert].
  replace (n + 1 - 1) with n by lia.
  rewrite heap_set_Returns by lia. cbn [mbind checked_bind].
  destruct (pop_spec {| _heap := <[Z.to_nat n := elem]> heap0;
                        _size := n + 1; _compare := compare |})
    as (q' & t' & -> & Ht' & Hlen' & Hsize & Hcmp & Hperm & Hord).
  { cbn [_heap]. by rewrite length_insert. }
  { cbn [_size]. unfold _max_size. lia. }
  cbn [_size _heap _compare] in *. unfold contents in Hperm.
  cbn [_size _heap] in Hperm. unfold heap_ordered in Hord.
  exists q'. split; [done|]. unfold _max_size in Hlen'.
  split; [split; [done|lia]|]. split; [lia|]. split; [done|]. split.
  - intros t Hpos Ht.
    rewrite slot_insert_ne in Ht' by lia.
    assert (t' = t) as -> by congruence.
    rewrite <- Hperm.
    replace (Z.to_nat (n + 1)) with (S (Z.to_nat n)) by lia.
    rewrite take_insert_lt by lia.
    rewrite insert_Permutation by (rewrite length_take; lia).
    rewrite delete_last_take by (rewrite length_take; lia).
    by rewrite take_take, Nat.min_l by lia.
  - intros Hswo Hord0. rewrite Hsize, Hcmp.
    replace (n + 1 - 1) with n in * by lia.
    rewrite Hsize, Hcmp in Hord. apply Hord; [done|].
    intros i x y Hi Hx Hy.
    pose proof (parent_bounds i ltac:(lia)) as Hpi.
    rewrite slot_insert_ne in Hx, Hy by lia.
    by apply (Hord0 i).
Qed.

(** ** The root of a heap *)

Lemma root_above_all {T} (compare : T → T → bool) (heap : list T) m t :
  strict_weak_order compare → ordered_upto compare heap m →
  slot heap 0 = Some t →
  ∀ i, 0 ≤ i → ∀ x, i < m → slot heap i = Some x → compare t x = false.
Proof.
  intros Hswo Hord Ht. pose proof Hswo as (Hirr & _ & Hneg).
  apply (Wf_Z.Zlt_0_ind (λ i, ∀ x, i < m → slot heap i = Some x →
                                   compare t x = false)).
  intros i IH Hi x Him Hx.
  destruct (decide (i = 0)) as [->|Hne].
  { assert (x = t) as -> by congruence. apply Hirr. }
  pose proof (parent_bounds i ltac:(lia)) as Hpi.
  pose proof (slot_Some_bounds _ _ _ Hx) as Hb.
  destruct (slot_is_Some heap ((i - 1) `quot` 2) ltac:(lia)) as [p Hp].
  apply (Hneg _ p).
  - apply (IH ((i - 1) `quot` 2)); [lia|lia|done].
  - apply (Hord i); [lia|done|done].
Qed.

(** ** Pushing a list *)

Lemma pushed_spec (l : list Z) (q : PriorityQueue Z) :
  well_sized q → heap_ordered q → _compare q = Less →
  _size q + Z.of_nat (length l) ≤ _max_size →
  ∃ q', for_in (λ x q, push q x) l q = Returns q' ∧
    well_sized q' ∧ heap_ordered q' ∧ _compare q' = Less ∧
    _size q' = _size q + Z.of_nat (length l) ∧
    contents q' ≡ₚ l ++ contents q.
Proof.
  revert q. induction l as [|x l IH]; intros q Hwf Hord Hcmp Hlen.
  { exists q. simpl. split_and!; try done. lia. }
  simpl in Hlen.
  destruct (push_spec q x Hwf ltac:(lia))
    as (q1 & Hq1 & Hwf1 & Hsize1 & Hcmp1 & Hperm1 & Hord1).
  destruct (IH q1) as (q' & Hq' & Hwf' & Hord' & Hcmp' & Hsize' & Hperm').
  { done. }
  { apply Hord1; [|done]. rewrite Hcmp. apply Less_strict_weak_order. }
  { congruence. }
  { lia. }
  exists q'. simpl. rewrite Hq1. simpl.
  split; [done|]. split; [done|]. split; [done|]. split; [done|].
  split; [simpl; lia|].
  rewrite Hperm', Hperm1. by rewrite Permutation_middle.
Qed.

Lemma new_well_sized {T} (compare : T → T → bool) junk :
  well_sized (PriorityQueue_new compare junk).
Proof.
  unfold well_sized, PriorityQueue_new. cbn [_heap _size].
  split; [apply length_replicate|unfold _max_size; lia].
Qed.

Lemma new_heap_ordered {T} (compare : T → T → bool) junk :
  heap_ordered (PriorityQueue_new compare junk).
Proof. intros i x p Hi. simpl in Hi. lia. Qed.

(** ** The queue stays inside its array *)

Lemma three_heap_ordered : heap_ordered QueueExample.three.
Proof.
  intros i x p Hi. cbn [_size QueueExample.three] in Hi.
  assert (i = 1 ∨ i = 2) as [-> | ->] by lia;
    vm_compute; intros [= <-] [= <-]; reflexivity.
Qed.

Lemma full_heap_ordered : heap_ordered QueueExample.full.
Proof.
  intros i x p Hi Hx Hp.
  unfold slot in Hx, Hp. repeat case_decide; try done.
  cbn [_heap QueueExample.full] in Hx, Hp.
  apply lookup_replicate in Hx as [-> _].
  apply lookup_replicate in Hp as [-> _]. reflexivity.
Qed.

(** On a queue whose [_size] is between 0 and [_max_size], the asserts
    are the only way an operation does not return: [push] and [pop_push]
    return unless the queue is full, [pop] and [top] unless it is empty; no
    subscript leaves the array and no loop runs on.  What is returned is a
    queue of that kind again, one longer after [push], one shorter after
    [pop], as long after [pop_push]. *)
Theorem queue_stays_in_its_array {T} (q : PriorityQueue T) (elem : T) :
  well_sized q →
  (if bool_decide (_size q < _max_size)
   then ∃ q', push q elem = Returns q' ∧
              well_sized q' ∧ _size q' = _size q + 1
   else push q elem = Faults AssertionFailed) ∧
  (if bool_decide (_size q > 0)
   then ∃ q', pop q = Returns q' ∧ well_sized q' ∧ _size q' = _size q - 1
   else pop q = Faults AssertionFailed) ∧
  (if bool_decide (_size q < _max_size)
   then ∃ q', pop_push q elem = Returns q' ∧
              well_sized q' ∧ _size q' = _size q
   else pop_push q elem = Faults AssertionFailed) ∧
  (if bool_decide (_size q > 0)
   then ∃ t, top q = Returns t ∧ t ∈ contents q
   else top q = Faults AssertionFailed).
Proof.
  intros Hwf. pose proof Hwf as [Hlen Hn]. unfold _max_size in Hlen.
  split; [|split; [|split]].
  - case_bool_decide as Hlt; [|by apply push_asserts].
    destruct (push_spec q elem Hwf Hlt) as (q' & ? & ? & ? & _). eauto.
  - case_bool_decide as Hgt; [|by apply pop_asserts].
    destruct (pop_spec q) as (q' & t & ? & _ & Hlen' & Hsize & _);
      [done|lia|].
    exists q'. split; [done|]. split; [|done]. split; [done|lia].
  - case_bool_decide as Hlt; [|by apply pop_push_asserts].
    destruct (pop_push_spec q elem Hwf Hlt) as (q' & ? & ? & ? & _). eauto.
  - case_bool_decide as Hgt; cycle 1.
    { unfold top. by rewrite bool_decide_false. }
    destruct (slot_is_Some (_heap q) 0 ltac:(lia)) as [t Ht].
    exists t. split; [apply top_Returns; split; [lia|done]|].
    apply (slot_contents q 0); [lia|done].
Qed.

Lemma queue_stays_in_its_array_witness :
  (∃ q', push QueueExample.three 4 = Returns q' ∧
         well_sized q' ∧ _size q' = 4) ∧
  (∃ q', pop QueueExample.three = Returns q' ∧ well_sized q' ∧ _size q' = 2) ∧
  (∃ q', pop_push QueueExample.three 4 = Returns q' ∧
         well_sized q' ∧ _size q' = 3) ∧
  (∃ t, top QueueExample.three = Returns t ∧ t ∈ contents QueueExample.three).
Proof.
  apply (queue_stays_in_its_array QueueExample.three 4).
  split; [reflexivity|]. unfold _max_size. simpl. lia.
Defined.

(** ** [push] *)

(** [push] adds its argument and nothing else: the elements of the
    queue it returns are those of the queue it was called on and [elem], each
    as often as before. *)
Theorem push_adds_one_element {T} (q q' : PriorityQueue T) (elem : T) :
  well_sized q → push q elem = Returns q' →
  contents q' ≡ₚ elem :: contents q.
Proof.
  intros Hwf Hpush.
  destruct (push_spec q elem Hwf (push_Returns_inv _ _ _ Hpush))
    as (q1 & Hq1 & _ & _ & _ & Hperm & _).
  congruence.
Qed.

Lemma push_adds_one_element_witness :
  [7; 4; 5; 3] ≡ₚ 4 :: contents QueueExample.three.
Proof.
  apply (push_adds_one_element QueueExample.three
           {| _heap := [7; 4; 5; 3] ++ replicate 252 0; _size := 4;
              _compare := Less |} 4).
  - split; [reflexivity|]. unfold _max_size. simpl. lia.
  - reflexivity.
Defined.

(** With a strict weak ordering for [_compare], [push] keeps the heap:
    if no slot of the queue compares below a child of its, none does in the
    queue [push] returns. *)
Theorem push_keeps_heap_order {T} (q q' : PriorityQueue T) (elem : T) :
  strict_weak_order (_compare q) → well_sized q → heap_ordered q →
  push q elem = Returns q' → heap_ordered q'.
Proof.
  intros Hswo Hwf Hord Hpush.
  destruct (push_spec q elem Hwf (push_Returns_inv _ _ _ Hpush))
    as (q1 & Hq1 & _ & _ & _ & _ & Hord1).
  assert (q1 = q') as <- by congruence. by apply Hord1.
Qed.

Lemma push_keeps_heap_order_witness :
  heap_ordered {| _heap := [7; 4; 5; 3] ++ replicate 252 0; _size := 4;
                  _compare := Less |}.
Proof.
  apply (push_keeps_heap_order QueueExample.three _ 4).
  - apply Less_strict_weak_order.
  - split; [reflexivity|]. unfold _max_size. simpl. lia.
  - apply three_heap_ordered.
  - reflexivity.
Defined.

(** ** [top] *)

(** In a heap, [top] returns a greatest element: no element of the
    queue compares above it. *)
Theorem top_is_greatest {T} (q : PriorityQueue T) (t : T) :
  strict_weak_order (_compare q) → heap_ordered q → top q = Returns t →
  ∀ x, x ∈ contents q → _compare q t x = false.
Proof.
  intros Hswo Hord [Hn Ht]%top_Returns x Hx.
  apply elem_of_take in Hx as (i & Hx & Hi).
  apply (root_above_all (_compare q) (_heap q) (_size q) t Hswo Hord Ht
           (Z.of_nat i)); [lia|lia|].
  rewrite slot_lookup by lia. by rewrite Nat2Z.id.
Qed.

Lemma top_is_greatest_witness : Less 7 5 = false.
Proof.
  apply (top_is_greatest QueueExample.three 7).
  - apply Less_strict_weak_order.
  - apply three_heap_ordered.
  - reflexivity.
  - apply list_elem_of_In. simpl. tauto.
Defined.

(** ** [pop] *)

(** [pop] removes what [top] returns, once, and nothing else. *)
Theorem pop_removes_the_top {T} (q q' : PriorityQueue T) :
  well_sized q → pop q = Returns q' →
  ∃ t, top q = Returns t ∧ contents q ≡ₚ t :: contents q'.
Proof.
  intros [Hlen Hn] Hpop.
  pose proof (pop_Returns_inv _ _ Hpop) as Hpos.
  destruct (pop_spec q) as (q1 & t & Hq1 & Ht & _ & _ & _ & Hperm & _);
    [done|lia|].
  assert (q1 = q') as <- by congruence.
  exists t. split; [|done]. by apply top_Returns.
Qed.

Lemma pop_removes_the_top_witness :
  ∃ t, top QueueExample.three = Returns t ∧
       contents QueueExample.three ≡ₚ t :: [5; 3].
Proof.
  apply (pop_removes_the_top QueueExample.three
           {| _heap := [5; 3; 5] ++ replicate 253 0; _size := 2;
              _compare := Less |}).
  - split; [reflexivity|]. unfold _max_size. simpl. lia.
  - reflexivity.
Defined.

(** With a strict weak ordering for [_compare], [pop] keeps the
    heap. *)
Theorem pop_keeps_heap_order {T} (q q' : PriorityQueue T) :
  strict_weak_order (_compare q) → well_sized q → heap_ordered q →
  pop q = Returns q' → heap_ordered q'.
Proof.
  intros Hswo [Hlen Hn] Hord Hpop.
  pose proof (pop_Returns_inv _ _ Hpop) as Hpos.
  destruct (pop_spec q) as (q1 & t & Hq1 & _ & _ & _ & _ & _ & Hord1);
    [done|lia|].
  assert (q1 = q') as <- by congruence.
  apply Hord1; [done|].
  apply (ordered_upto_mono _ _ (_size q)); [lia|done].
Qed.

Lemma pop_keeps_heap_order_witness :
  heap_ordered {| _heap := [5; 3; 5] ++ replicate 253 0; _size := 2;
                  _compare := Less |}.
Proof.
  apply (pop_keeps_heap_order QueueExample.three).
  - apply Less_strict_weak_order.
  - split; [reflexivity|]. unfold _max_size. simpl. lia.
  - apply three_heap_ordered.
  - reflexivity.
Defined.

(** ** [pop_push] *)

(** [pop_push] on an empty queue returns, and returns an empty queue:
    the new element takes the place of the root and is popped at once.  The
    [pop] that [pop_push] stands for does not return there. *)
Theorem pop_push_on_empty_queue {T} (q : PriorityQueue T) (elem : T) :
  well_sized q → _size q = 0 →
  pop q = Faults AssertionFailed ∧
  ∃ q', pop_push q elem = Returns q' ∧ _size q' = 0 ∧ contents q' = [].
Proof.
  intros Hwf Hn. split; [apply pop_asserts; lia|].
  destruct (pop_push_spec q elem Hwf) as (q' & Hq' & _ & Hsize & _).
  { unfold _max_size. lia. }
  exists q'. split; [done|]. split; [lia|].
  unfold contents. rewrite Hsize, Hn. reflexivity.
Qed.

Lemma pop_push_on_empty_queue_witness :
  pop QueueExample.none = Faults AssertionFailed ∧
  ∃ q', pop_push QueueExample.none 4 = Returns q' ∧
        _size q' = 0 ∧ contents q' = [].
Proof.
  apply (pop_push_on_empty_queue QueueExample.none 4).
  - split; [reflexivity|]. unfold _max_size. simpl. lia.
  - reflexivity.
Defined.

(** On a queue that is not empty, [pop_push] replaces what [top]
    returns by the new element and touches nothing else; with a strict weak
    ordering for [_compare] it keeps the heap. *)
Theorem pop_push_replaces_the_top {T} (q q' : PriorityQueue T) (elem : T) :
  well_sized q → 0 < _size q → pop_push q elem = Returns q' →
  ∃ t, top q = Returns t ∧
       t :: contents q' ≡ₚ elem :: contents q ∧
       (strict_weak_order (_compare q) → heap_ordered q → heap_ordered q').
Proof.
  intros Hwf Hpos Hpp. pose proof Hwf as [Hlen Hn]. unfold _max_size in Hlen.
  destruct (pop_push_spec q elem Hwf (pop_push_Returns_inv _ _ _ Hpp))
    as (q1 & Hq1 & _ & _ & _ & Hperm & Hord).
  assert (q1 = q') as <- by congruence.
  destruct (slot_is_Some (_heap q) 0 ltac:(lia)) as [t Ht].
  exists t. split; [by apply top_Returns|]. split; [by apply Hperm|done].
Qed.

Lemma pop_push_replaces_the_top_witness :
  ∃ t, top QueueExample.three = Returns t ∧
       t :: [5; 3; 4] ≡ₚ 4 :: contents QueueExample.three ∧
       (strict_weak_order Less → heap_ordered QueueExample.three →
        heap_ordered {| _heap := [5; 3; 4; 4] ++ replicate 252 0; _size := 3;
                        _compare := Less |}).
Proof.
  apply (pop_push_replaces_the_top QueueExample.three
           {| _heap := [5; 3; 4; 4] ++ replicate 252 0; _size := 3;
              _compare := Less |} 4).
  - split; [reflexivity|]. unfold _max_size. simpl. lia.
  - simpl. lia.
  - reflexivity.
Defined.

(** [pop_push] against [pop] followed by [push]: on a queue that is
    neither empty nor full both return, with the same elements; on a full
    queue the pair returns and [pop_push] stops at its assert. *)
Theorem pop_push_against_pop_then_push {T} (q : PriorityQueue T) (elem : T) :
  well_sized q → 0 < _size q →
  ∃ q1 q2, pop q = Returns q1 ∧ push q1 elem = Returns q2 ∧
    if bool_decide (_size q < _max_size)
    then ∃ q', pop_push q elem = Returns q' ∧ contents q' ≡ₚ contents q2
    else pop_push q elem = Faults AssertionFailed.
Proof.
  intros Hwf Hpos. pose proof Hwf as [Hlen Hn].
  destruct (pop_spec q)
    as (q1 & t & Hq1 & Ht & Hlen1 & Hsize1 & _ & Hperm1 & _); [done|lia|].
  assert (well_sized q1) as Hwf1 by (split; [done|lia]).
  destruct (push_spec q1 elem Hwf1 ltac:(lia))
    as (q2 & Hq2 & _ & _ & _ & Hperm2 & _).
  exists q1, q2. split; [done|]. split; [done|].
  case_bool_decide as Hlt; [|by apply pop_push_asserts].
  destruct (pop_push_spec q elem Hwf Hlt) as (q' & Hq' & _ & _ & _ & Hperm & _).
  exists q'. split; [done|].
  apply (Permutation_cons_inv (a := t)).
  rewrite (Hperm t Hpos Ht), Hperm2, Hperm1. apply perm_swap.
Qed.

Lemma pop_push_against_pop_then_push_witness :
  ∃ q1 q2, pop QueueExample.full = Returns q1 ∧ push q1 4 = Returns q2 ∧
    pop_push QueueExample.full 4 = Faults AssertionFailed.
Proof.
  apply (pop_push_against_pop_then_push QueueExample.full 4).
  - split; [reflexivity|]. unfold _max_size. simpl. lia.
  - unfold _max_size. simpl. lia.
Defined.

(** ** Pushing and asking for the top *)

(** From the constructor through [push] to [top]: after pushing the
    integers of a list of at most [_max_size] elements into a new queue
    ordered by [Less], [top] returns the maximum of the list. *)
Theorem top_of_pushed (l : list Z) (junk : Z) :
  l ≠ [] → Z.of_nat (length l) ≤ _max_size →
  ∃ q t, for_in (λ x q, push q x) l (PriorityQueue_new Less junk) = Returns q ∧
    top q = Returns t ∧ t ∈ l ∧ ∀ x, x ∈ l → x ≤ t.
Proof.
  intros Hne Hlen.
  destruct (pushed_spec l (PriorityQueue_new Less junk))
    as (q & Hq & Hwf & Hord & Hcmp & Hsize & Hperm).
  { apply new_well_sized. }
  { apply new_heap_ordered. }
  { done. }
  { simpl. lia. }
  simpl in Hsize. rewrite app_nil_r in Hperm.
  pose proof Hwf as [Hlen' _]. unfold _max_size in Hlen'.
  assert (0 < Z.of_nat (length l)) by (destruct l; [done|simpl; lia]).
  destruct (slot_is_Some (_heap q) 0 ltac:(lia)) as [t Ht].
  exists q, t. split; [done|]. split; [apply top_Returns; split; [lia|done]|].
  split.
  - rewrite <- Hperm. apply (slot_contents q 0); [lia|done].
  - intros x Hx. rewrite <- Hperm in Hx.
    pose proof (root_above_all (_compare q) (_heap q) (_size q) t) as Hroot.
    apply elem_of_take in Hx as (i & Hx & Hi).
    specialize (Hroot ltac:(rewrite Hcmp; apply Less_strict_weak_order)
                  Hord Ht (Z.of_nat i) ltac:(lia) x ltac:(lia)).
    rewrite slot_lookup, Nat2Z.id in Hroot by lia.
    specialize (Hroot Hx). rewrite Hcmp in Hroot.
    apply bool_decide_eq_false in Hroot. lia.
Qed.

Lemma top_of_pushed_witness :
  ∃ q t, for_in (λ x q, push q x) [5; 1; 7; 3] (PriorityQueue_new Less 0)
           = Returns q ∧
    top q = Returns t ∧ t ∈ [5; 1; 7; 3] ∧ ∀ x, x ∈ [5; 1; 7; 3] → x ≤ t.
Proof.
  apply (top_of_pushed [5; 1; 7; 3] 0).
  - discriminate.
  - unfold _max_size. simpl. lia.
Defined.

(** ** The slots from [_size] on *)

Lemma while_alike {S1 S2} (R : S1 → S2 → Prop)
    (body1 : S1 → checked (loop S1)) (body2 : S2 → checked (loop S2))
    (fuel : nat) s1 s2 :
  (∀ s1 s2, R s1 s2 → alike (loop_alike R) (body1 s1) (body2 s2)) →
  R s1 s2 → alike R (while fuel body1 s1) (while fuel body2 s2).
Proof.
  intros Hbody. revert s1 s2.
  induction fuel as [|fuel IH]; intros s1 s2 Hs; [done|].
  specialize (Hbody s1 s2 Hs). simpl.
  destruct (body1 s1) as [[s1'|s1']|f1], (body2 s2) as [[s2'|s2']|f2];
    simpl in *; try done.
  by apply IH.
Qed.

Lemma take_agree {T} (heap1 heap2 : list T) (m : Z) :
  take (Z.to_nat m) heap1 = take (Z.to_nat m) heap2 ↔
  ∀ i, 0 ≤ i < m → slot heap1 i = slot heap2 i.
Proof.
  split.
  - intros Heq i Hi. rewrite !slot_lookup by lia.
    rewrite <- (lookup_take_lt heap1 (Z.to_nat m)) by lia.
    rewrite <- (lookup_take_lt heap2 (Z.to_nat m)) by lia.
    by rewrite Heq.
  - intros Hslots. apply list_eq. intros k. rewrite !lookup_take.
    case_decide; [|done].
    specialize (Hslots (Z.of_nat k) ltac:(lia)).
    by rewrite !slot_lookup, Nat2Z.id in Hslots by lia.
Qed.

Lemma slot_same_length {T} (heap1 heap2 : list T) i :
  length heap1 = length heap2 → is_Some (slot heap1 i) → is_Some (slot heap2 i).
Proof.
  intros Hlen [x Hx]. apply slot_Some_bounds in Hx.
  apply slot_is_Some. lia.
Qed.

(** Writing the same value to the same slot of two arrays of one length. *)
Lemma heap_set_alike {T} (heap1 heap2 : list T) i x :
  length heap1 = length heap2 →
  (0 ≤ i < Z.of_nat (length heap1) ∧
   heap_set heap1 i x = Returns (<[Z.to_nat i := x]> heap1) ∧
   heap_set heap2 i x = Returns (<[Z.to_nat i := x]> heap2)) ∨
  (heap_set heap1 i x = Faults OutOfBounds ∧
   heap_set heap2 i x = Faults OutOfBounds).
Proof.
  intros Hlen. unfold heap_set.
  destruct (slot heap1 i) as [y|] eqn:H1.
  - destruct (slot_same_length heap1 heap2 i Hlen) as [z ->]; [by eexists|].
    left. split; [by apply slot_Some_bounds in H1|done].
  - destruct (slot heap2 i) as [z|] eqn:H2; [|by right].
    destruct (slot_same_length heap2 heap1 i) as [? ?]; [done|by eexists|].
    congruence.
Qed.

Lemma up_heap_alike {T} (compare : T → T → bool) elem n s1 s2 :
  s1.2 ≤ n → agree_upto (n + 1) false s1 s2 →
  alike (loop_alike (λ s1 s2, s1.2 ≤ n ∧ agree_upto (n + 1) false s1 s2))
    (up_heap compare elem s1) (up_heap compare elem s2).
Proof.
  destruct s1 as [heap1 pos], s2 as [heap2 pos2].
  intros Hpos (Heq & Hlen & Hslots). simpl in *. subst pos2.
  unfold up_heap. case_bool_decide as Hgt; [|done].
  pose proof (parent_bounds pos ltac:(lia)) as Hpar.
  set (parent := (pos - 1) `quot` 2) in *.
  unfold heap_get. rewrite <- (Hslots parent) by (try right; lia).
  destruct (slot heap1 parent) as [p|]; [|done]. cbn [mbind checked_bind].
  destruct (compare p elem); cbn [negb]; [|done].
  destruct (heap_set_alike heap1 heap2 pos p Hlen)
    as [(Hb & -> & ->)|[-> ->]]; [|done].
  unfold agree_upto. simpl. split; [lia|]. split; [done|].
  split; [by rewrite !length_insert|].
  intros i Hi [?|Hne]; [done|].
  destruct (decide (i = pos)) as [->|Hne'].
  - rewrite !slot_insert_eq by lia. done.
  - rewrite !slot_insert_ne by lia. apply Hslots; [lia|by right].
Qed.

Lemma push_alike {T} (q1 q2 : PriorityQueue T) elem :
  same_elements q1 q2 → alike same_elements (push q1 elem) (push q2 elem).
Proof.
  destruct q1 as [heap1 n compare], q2 as [heap2 n2 compare2].
  unfold same_elements, contents. cbn [_heap _size _compare].
  intros (<- & <- & Hlen & Hcontents).
  unfold push. cbn [_heap _size _compare].
  destruct (assert _); [|done]. cbn [mbind checked_bind].
  pose proof (while_alike
    (λ s1 s2, s1.2 ≤ n ∧ agree_upto (n + 1) false s1 s2)
    (up_heap compare elem) (up_heap compare elem) (S (Z.to_nat n))
    (heap1, n) (heap2, n)) as Hwhile.
  lapply Hwhile; [clear Hwhile; intros Hwhile|]; cycle 1.
  { intros s1 s2 [? ?]. by apply up_heap_alike. }
  lapply Hwhile; [clear Hwhile; intros Hwhile|]; cycle 1.
  { unfold agree_upto. simpl. split; [lia|]. split; [done|]. split; [done|].
    intros i Hi [?|Hne]; [done|].
    apply (proj1 (take_agree heap1 heap2 n) Hcontents). lia. }
  destruct (while _ _ (heap1, n)) as [[heap1' pos]|f1],
           (while _ _ (heap2, n)) as [[heap2' pos2]|f2]; try done.
  destruct Hwhile as (_ & Heq & Hlen' & Hslots).
  simpl in *. subst pos2.
  destruct (heap_set_alike heap1' heap2' pos elem Hlen')
    as [(Hb & -> & ->)|[-> ->]]; [|done].
  simpl. split; [done|]. split; [done|].
  split; [by rewrite !length_insert|].
  unfold contents. simpl. apply take_agree. intros i Hi.
  destruct (decide (i = pos)) as [->|Hne'].
  - rewrite !slot_insert_eq by lia. done.
  - rewrite !slot_insert_ne by lia. apply Hslots; [lia|by right].
Qed.

Lemma pick_child_range {T} (compare : T → T → bool) (heap : list T) n child
    next_pos a :
  pick_child compare heap n child next_pos = Returns a →
  a = next_pos ∨ (a = child ∧ child < n - 1).
Proof.
  unfold pick_child. case_bool_decide as Hlt; [|intros [= <-]; by left].
  destruct (heap_get heap next_pos); [|done]. cbn [mbind checked_bind].
  destruct (heap_get heap child); [|done]. cbn [mbind checked_bind].
  destruct (compare _ _); intros [= <-]; [by right|by left].
Qed.

Lemma pick_child_agree {T} (compare : T → T → bool) (heap1 heap2 : list T) n
    child next_pos :
  (∀ i, 0 ≤ i < n → slot heap1 i = slot heap2 i) →
  0 ≤ next_pos < n → 0 ≤ child →
  pick_child compare heap1 n child next_pos
  = pick_child compare heap2 n child next_pos.
Proof.
  intros Hslots Hnext Hchild. unfold pick_child, heap_get.
  case_bool_decide as Hlt; [|done].
  by rewrite (Hslots next_pos), (Hslots child) by lia.
Qed.

Lemma pick_children_agree {T} (compare : T → T → bool) (heap1 heap2 : list T)
    n pos :
  (∀ i, 0 ≤ i < n → slot heap1 i = slot heap2 i) → 0 < n → 0 ≤ pos →
  for_in (pick_child compare heap1 n) [2 * pos + 1; 2 * pos + 2] (n - 1)
  = for_in (pick_child compare heap2 n) [2 * pos + 1; 2 * pos + 2] (n - 1).
Proof.
  intros Hslots Hn Hpos. cbn [for_in].
  rewrite (pick_child_agree compare heap1 heap2) by (done || lia).
  destruct (pick_child compare heap2 n (2 * pos + 1) (n - 1)) as [a|]
    eqn:Ha; [|done].
  cbn [mbind checked_bind].
  apply pick_child_range in Ha.
  by rewrite (pick_child_agree compare heap1 heap2) by (done || lia).
Qed.

Lemma pick_children_range {T} (compare : T → T → bool) (heap : list T) n pos
    next :
  for_in (pick_child compare heap n) [2 * pos + 1; 2 * pos + 2] (n - 1)
    = Returns next →
  next = n - 1 ∨ ((next = 2 * pos + 1 ∨ next = 2 * pos + 2) ∧ next < n - 1).
Proof.
  cbn [for_in].
  destruct (pick_child compare heap n (2 * pos + 1) (n - 1)) as [a|]
    eqn:Ha; [|done].
  cbn [mbind checked_bind].
  destruct (pick_child compare heap n (2 * pos + 2) a) as [b|]
    eqn:Hb; [|done].
  cbn [mbind checked_bind]. intros [= <-].
  apply pick_child_range in Ha, Hb. lia.
Qed.

Lemma down_heap_alike {T} (compare : T → T → bool) n s1 s2 :
  0 < n → 0 ≤ s1.2 → agree_upto n true s1 s2 →
  alike (loop_alike (λ s1 s2, 0 ≤ s1.2 ∧ agree_upto n true s1 s2))
    (down_heap compare n s1) (down_heap compare n s2).
Proof.
  destruct s1 as [heap1 pos], s2 as [heap2 pos2].
  intros Hn Hpos (Heq & Hlen & Hslots). simpl in Heq, Hlen, Hslots, Hpos.
  subst pos2.
  assert (∀ i, 0 ≤ i < n → slot heap1 i = slot heap2 i) as Hall
    by (intros i Hi; apply Hslots; [done|by left]).
  unfold down_heap.
  rewrite (pick_children_agree compare heap1 heap2) by done.
  destruct (for_in _ _ _) as [next|] eqn:Hnext; [|done].
  cbn [mbind checked_bind].
  apply pick_children_range in Hnext.
  case_bool_decide as Hstop.
  { simpl. split; [done|]. by split. }
  unfold heap_get. rewrite <- (Hall next) by lia.
  destruct (slot heap1 next) as [v|]; [|done]. cbn [mbind checked_bind].
  destruct (heap_set_alike heap1 heap2 pos v Hlen)
    as [(Hb & -> & ->)|[-> ->]]; [|done].
  unfold agree_upto. simpl. split; [lia|]. split; [done|].
  split; [by rewrite !length_insert|].
  intros i Hi _.
  destruct (decide (i = pos)) as [->|Hne'].
  - rewrite !slot_insert_eq by lia. done.
  - rewrite !slot_insert_ne by lia. by apply Hall.
Qed.

Lemma pop_alike {T} (q1 q2 : PriorityQueue T) :
  same_elements q1 q2 → alike same_elements (pop q1) (pop q2).
Proof.
  destruct q1 as [heap1 n compare], q2 as [heap2 n2 compare2].
  unfold same_elements, contents. cbn [_heap _size _compare].
  intros (<- & <- & Hlen & Hcontents).
  unfold pop. cbn [_heap _size _compare].
  case_bool_decide as Hn; [|done]. cbn [mbind checked_bind assert].
  pose proof (while_alike
    (λ s1 s2, 0 ≤ s1.2 ∧ agree_upto n true s1 s2)
    (down_heap compare n) (down_heap compare n) (S (Z.to_nat n))
    (heap1, 0) (heap2, 0)) as Hwhile.
  lapply Hwhile; [clear Hwhile; intros Hwhile|]; cycle 1.
  { intros s1 s2 [? ?]. apply down_heap_alike; [lia|done|done]. }
  lapply Hwhile; [clear Hwhile; intros Hwhile|]; cycle 1.
  { unfold agree_upto. simpl. split; [lia|]. split; [done|]. split; [done|].
    intros i Hi _.
    by apply (proj1 (take_agree heap1 heap2 n) Hcontents). }
  destruct (while _ _ (heap1, 0)) as [[heap1' pos]|f1],
           (while _ _ (heap2, 0)) as [[heap2' pos2]|f2]; try done.
  destruct Hwhile as (Hpos & Heq & Hlen' & Hslots).
  simpl in Hpos, Heq, Hlen', Hslots. subst pos2.
  cbn [mbind checked_bind].
  unfold heap_get. rewrite <- (Hslots (n - 1)) by (try left; lia).
  destruct (slot heap1' (n - 1)) as [v|]; [|done]. cbn [mbind checked_bind].
  destruct (heap_set_alike heap1' heap2' pos v Hlen')
    as [(Hb & -> & ->)|[-> ->]]; [|done].
  simpl. split; [done|]. split; [done|].
  split; [by rewrite !length_insert|].
  unfold contents. simpl. apply take_agree. intros i Hi.
  destruct (decide (i = pos)) as [->|Hne'].
  - rewrite !slot_insert_eq by lia. done.
  - rewrite !slot_insert_ne by lia. apply Hslots; [lia|by left].
Qed.

Lemma pop_push_alike {T} (q1 q2 : PriorityQueue T) elem :
  same_elements q1 q2 →
  alike same_elements (pop_push q1 elem) (pop_push q2 elem).
Proof.
  destruct q1 as [heap1 n compare], q2 as [heap2 n2 compare2].
  unfold same_elements, contents. cbn [_heap _size _compare].
  intros (<- & <- & Hlen & Hcontents).
  unfold pop_push. cbn [_heap _size _compare].
  destruct (assert _); [|done]. cbn [mbind checked_bind].
  replace (n + 1 - 1) with n by lia.
  destruct (heap_set_alike heap1 heap2 n elem Hlen)
    as [(Hb & -> & ->)|[-> ->]]; [|done].
  cbn [mbind checked_bind]. apply pop_alike.
  unfold same_elements, contents. cbn [_heap _size _compare].
  split; [done|]. split; [done|]. split; [by rewrite !length_insert|].
  apply take_agree. intros i Hi.
  destruct (decide (i = n)) as [->|Hne'].
  - rewrite !slot_insert_eq by lia. done.
  - rewrite !slot_insert_ne by lia.
    apply (proj1 (take_agree heap1 heap2 n) Hcontents). lia.
Qed.

(** No operation reads a slot from [_size] on: on two queues with the
    same elements in the same slots, whatever the other slots hold, [push],
    [pop] and [pop_push] do the same thing and leave two such queues again,
    and [top] returns the same. *)
Theorem spare_slots_never_read {T} (q1 q2 : PriorityQueue T) (elem : T) :
  same_elements q1 q2 →
  alike same_elements (push q1 elem) (push q2 elem) ∧
  alike same_elements (pop q1) (pop q2) ∧
  alike same_elements (pop_push q1 elem) (pop_push q2 elem) ∧
  top q1 = top q2.
Proof.
  intros Hsame. split; [by apply push_alike|].
  split; [by apply pop_alike|]. split; [by apply pop_push_alike|].
  destruct Hsame as (_ & Hsize & _ & Hcontents).
  unfold top, heap_get. rewrite <- Hsize.
  case_bool_decide as Hn; [|done]. cbn [mbind checked_bind assert].
  rewrite (proj1 (take_agree (_heap q1) (_heap q2) (_size q1))); [done| |lia].
  unfold contents in Hcontents. by rewrite Hsize at 2.
Qed.

Lemma spare_slots_never_read_witness :
  alike same_elements (push QueueExample.three 4) (push QueueExample.three' 4) ∧
  alike same_elements (pop QueueExample.three) (pop QueueExample.three') ∧
  alike same_elements (pop_push QueueExample.three 4)
    (pop_push QueueExample.three' 4) ∧
  top QueueExample.three = top QueueExample.three'.
Proof.
  apply (spare_slots_never_read QueueExample.three QueueExample.three' 4).
  repeat split; reflexivity.
Defined.
